(** * HDFSStore: a shallow embedding of [cerebro/storage/hdfs.py]

    The development follows the Python module top to bottom:
    - [PyStr]: the string primitives the module relies on (slicing, [int],
      [os.path.join]);
    - [Re]: the fragment of Python's backtracking [re] engine that
      [URL_PATTERN] is written in; [ReSpec]: what a pattern matches,
      whatever the order in which the engine tries;
    - [Url]: [parse_url], [_check_url];
    - [Backend]: the remote filesystem, as a trace of the calls made to it;
    - [Store]: [__init__], [get_filesystem] and the connection factory;
    - [Scratch]: the [get_local_output_dir_fn] context manager;
    - [Sync]: [sync_fn] and the closure it returns;
    - [UrlSpec], [StoreSpec], [SyncSpec], [Samples]: the vocabulary of the
      statements, and sample values.

    The properties come after the definitions, in the same order. *)

From Stdlib Require Import Ascii ZArith QArith Lia.
From stdpp Require Import base option list gmap strings.

Local Open Scope Z_scope.
Local Open Scope nat_scope.
Local Open Scope stdpp_scope.

(** Python exceptions raised by the module or passing through it. *)
Inductive exn :=
  | AttributeError            (* [match.group] on a [None] match *)
  | ValueError (msg : string) (* raised by [_check_url] and by [int] *)
  | ConnectError              (* [pa.hdfs.connect] failed *)
  | UploadError               (* [open] / [hdfs.upload] failed *)
  | OSError (msg : string).   (* [tempfile], [shutil], [os.path] failures *)

Inductive result (A : Type) :=
  | Ok (a : A)
  | Raise (e : exn).
Arguments Ok {A} a.
Arguments Raise {A} e.

Definition is_ok {A} (r : result A) : bool :=
  match r with Ok _ => true | Raise _ => false end.

(** ** String primitives

    A [str] is a [string]; the characters the module looks at (["/"], [":"],
    the digits, the line feed) are ASCII. *)
Module PyStr.

Definition LF : ascii := "010"%char.
Definition SEP : ascii := "/"%char.

Fixpoint len (s : string) : nat :=
  match s with
  | EmptyString => 0
  | String _ s' => S (len s')
  end.

(** [s[n:]] for [0 <= n]. *)
Fixpoint drop_str (n : nat) (s : string) : string :=
  match n, s with
  | O, _ => s
  | S n', String _ s' => drop_str n' s'
  | S _, EmptyString => EmptyString
  end.

(** [s[:n]] for [0 <= n]. *)
Fixpoint take_str (n : nat) (s : string) : string :=
  match n, s with
  | O, _ => EmptyString
  | S n', String c s' => String c (take_str n' s')
  | S _, EmptyString => EmptyString
  end.

(** [s[a:b]] for [0 <= a <= b]. *)
Definition slice (a b : nat) (s : string) : string :=
  take_str (b - a) (drop_str a s).

(** [s[:n]] for any integer [n]: a negative bound counts from the end. *)
Definition slice_to (n : Z) (s : string) : string :=
  if (0 <=? n)%Z then take_str (Z.to_nat n) s
  else take_str (len s - Z.to_nat (- n)) s.

(** [s[n:]] for any integer [n]. *)
Definition slice_from (n : Z) (s : string) : string :=
  if (0 <=? n)%Z then drop_str (Z.to_nat n) s
  else drop_str (len s - Z.to_nat (- n)) s.

Definition startswith (c : ascii) (s : string) : bool :=
  match s with
  | String c' _ => Ascii.eqb c' c
  | EmptyString => false
  end.

Fixpoint endswith (c : ascii) (s : string) : bool :=
  match s with
  | EmptyString => false
  | String c' EmptyString => Ascii.eqb c' c
  | String _ s' => endswith c s'
  end.

Fixpoint has_prefix (p s : string) : bool :=
  match p, s with
  | EmptyString, _ => true
  | String a p', String b s' => Ascii.eqb a b && has_prefix p' s'
  | String _ _, EmptyString => false
  end.

(** [sub in s]. *)
Fixpoint contains (sub s : string) : bool :=
  has_prefix sub s ||
  match s with
  | EmptyString => false
  | String _ s' => contains sub s'
  end.

Fixpoint all_chars (p : ascii -> bool) (s : string) : bool :=
  match s with
  | EmptyString => true
  | String c s' => p c && all_chars p s'
  end.

(** The longest prefix of [s] whose characters satisfy [p]. *)
Fixpoint take_while (p : ascii -> bool) (s : string) : string :=
  match s with
  | String c s' => if p c then String c (take_while p s') else EmptyString
  | EmptyString => EmptyString
  end.

Fixpoint drop_while (p : ascii -> bool) (s : string) : string :=
  match s with
  | String c s' => if p c then drop_while p s' else s
  | EmptyString => EmptyString
  end.

Definition digit_val (c : ascii) : Z :=
  Z.of_nat (nat_of_ascii c) - 48.

(** The value of a string of ASCII digits, most significant first. *)
Fixpoint int_digits (acc : Z) (s : string) : Z :=
  match s with
  | EmptyString => acc
  | String c s' => int_digits (10 * acc + digit_val c) s'
  end.

(** [sys.get_int_max_str_digits()], as the interpreter starts with it. *)
Definition INT_MAX_STR_DIGITS : nat := 4300.

(** [int(s)] for a string of ASCII digits: the conversion refuses a string
    of more than [INT_MAX_STR_DIGITS] characters with a [ValueError]. *)
Definition int_of_str (s : string) : result Z :=
  if INT_MAX_STR_DIGITS <? len s
  then Raise (ValueError "Exceeds the limit (4300 digits) for integer string conversion")
  else Ok (int_digits 0 s).

(** [os.path.join(a, b)] of [posixpath]:
<<
    if b.startswith(sep): path = b
    elif not path or path.endswith(sep): path += b
    else: path += sep + b
>> *)
Definition os_path_join (a b : string) : string :=
  if startswith SEP b then b
  else if (match a with EmptyString => true | _ => false end) || endswith SEP a
       then a +:+ b
       else a +:+ String SEP b.

End PyStr.
Import PyStr.

(** ** The fragment of Python's [re] used by [URL_PATTERN] *)
Module Re.

(** What matches one character. *)
Inductive charset :=
  | CsDot                                        (* [.], no DOTALL *)
  | CsLit (c : ascii)                            (* a literal *)
  | CsSet (neg : bool) (rs : list (ascii * ascii)). (* [[...]] / [[^...]] *)

Definition in_range (c : ascii) (r : ascii * ascii) : bool :=
  (nat_of_ascii (fst r) <=? nat_of_ascii c) &&
  (nat_of_ascii c <=? nat_of_ascii (snd r)).

Definition cs_mem (cs : charset) (c : ascii) : bool :=
  match cs with
  | CsDot => negb (Ascii.eqb c LF)
  | CsLit c' => Ascii.eqb c c'
  | CsSet neg rs => xorb neg (existsb (in_range c) rs)
  end.

(** Repetition is only ever applied to a single-character item in the
    pattern, so [RPlus] takes a [charset]. *)
Inductive regex :=
  | REps
  | RChar (cs : charset)
  | RPlus (cs : charset)          (* greedy [+] *)
  | RSeq (r1 r2 : regex)
  | ROpt (r : regex)              (* greedy [?] *)
  | RGroup (n : nat) (r : regex)  (* capturing group number [n] *)
  | RBol                          (* [^], no MULTILINE *)
  | REol.                         (* [$], no MULTILINE *)

Fixpoint RLit (s : string) : regex :=
  match s with
  | EmptyString => REps
  | String c s' => RSeq (RChar (CsLit c)) (RLit s')
  end.

(** A position of the engine in the subject: the index, what is left of the
    subject there, and the spans of the groups closed so far. *)
Record mstate := MState {
  m_pos : nat;
  m_rest : string;
  m_caps : gmap nat (nat * nat)
}.

Definition set_cap (n : nat) (a : nat) (st : mstate) : mstate :=
  MState (m_pos st) (m_rest st) (<[n := (a, m_pos st)]> (m_caps st)).

Section Engine.
Context {A : Type}.

(** [cs+]: one character, then as many more as possible, giving one back
    each time the continuation fails. *)
Fixpoint plus_loop (cs : charset) (pos : nat) (rest : string)
    (caps : gmap nat (nat * nat)) (k : mstate -> option A) : option A :=
  match rest with
  | String c rest' =>
      if cs_mem cs c then
        match plus_loop cs (S pos) rest' caps k with
        | Some r => Some r
        | None => k (MState (S pos) rest' caps)
        end
      else None
  | EmptyString => None
  end.

(** The backtracking matcher, in continuation-passing style: alternatives
    are tried in the engine's priority order and the first one whose
    continuation succeeds wins. *)
Fixpoint mtch (r : regex) (st : mstate) (k : mstate -> option A) : option A :=
  match r with
  | REps => k st
  | RChar cs =>
      match m_rest st with
      | String c rest' =>
          if cs_mem cs c then k (MState (S (m_pos st)) rest' (m_caps st))
          else None
      | EmptyString => None
      end
  | RPlus cs => plus_loop cs (m_pos st) (m_rest st) (m_caps st) k
  | RSeq r1 r2 => mtch r1 st (fun st' => mtch r2 st' k)
  | ROpt r' =>
      match mtch r' st k with
      | Some c => Some c
      | None => k st
      end
  | RGroup n r' => mtch r' st (fun st' => k (set_cap n (m_pos st) st'))
  | RBol => if m_pos st =? 0 then k st else None
  | REol =>
      match m_rest st with
      | EmptyString => k st
      | String c EmptyString => if Ascii.eqb c LF then k st else None
      | _ => None
      end
  end.
End Engine.

(** A match object: the subject and the group spans. *)
Record match_obj := MatchObj {
  mo_string : string;
  mo_caps : gmap nat (nat * nat)
}.

(** [re.search]: the leftmost start position at which the pattern matches. *)
Fixpoint search_from (r : regex) (s : string) (pos : nat) (rest : string)
    : option match_obj :=
  match mtch r (MState pos rest ∅) (fun st => Some (MatchObj s (m_caps st))) with
  | Some m => Some m
  | None =>
      match rest with
      | EmptyString => None
      | String _ rest' => search_from r s (S pos) rest'
      end
  end.

Definition search (r : regex) (s : string) : option match_obj :=
  search_from r s 0 s.

(** [m.group(n)]: [None] for a group that took no part in the match. *)
Definition group (m : match_obj) (n : nat) : option string :=
  match mo_caps m !! n with
  | Some (a, b) => Some (slice a b (mo_string m))
  | None => None
  end.

(** [m.start(n)]: [-1] for a group that took no part in the match. *)
Definition start (m : match_obj) (n : nat) : Z :=
  match mo_caps m !! n with
  | Some (a, _) => Z.of_nat a
  | None => (-1)%Z
  end.

End Re.
Import Re.

(** ** URL parsing and validation *)
Module Url.

Definition FS_PREFIX : string := "hdfs://".

(** The four optional parts of the pattern:
    [(?:(.+://))?], [(?:([^/:]+))?], [(?:[:]([0-9]+))?] and [(?:(.+))?]. *)
Definition NOT_SLASH_COLON : charset := CsSet true [("/", "/"); (":", ":")]%char.
Definition COLON : charset := CsSet false [(":", ":")]%char.
Definition DIGIT : charset := CsSet false [("0", "9")]%char.

Definition SCHEME : regex := ROpt (RGroup 1 (RSeq (RPlus CsDot) (RLit "://"))).
Definition HOST : regex := ROpt (RGroup 2 (RPlus NOT_SLASH_COLON)).
Definition PORT : regex := ROpt (RSeq (RChar COLON) (RGroup 3 (RPlus DIGIT))).
Definition PATH : regex := ROpt (RGroup 4 (RPlus CsDot)).

(** ['^(?:(.+://))?(?:([^/:]+))?(?:[:]([0-9]+))?(?:(.+))?$'] *)
Definition URL_PATTERN : regex :=
  RSeq RBol (RSeq SCHEME (RSeq HOST (RSeq PORT (RSeq PATH REol)))).

Record parsed := Parsed {
  p_prefix : option string;
  p_host : option string;
  p_port : option Z;
  p_path : option string;
  p_path_offset : Z
}.

Definition parse_url (url : string) : result parsed :=
  match search URL_PATTERN url with
  | None => Raise AttributeError
  | Some m =>
      let prefix := group m 1 in
      let host := group m 2 in
      let port := group m 3 in
      match (match port with
             | Some p =>
                 match int_of_str p with
                 | Ok n => Ok (Some n)
                 | Raise e => Raise e
                 end
             | None => Ok None
             end) with
      | Raise e => Raise e
      | Ok port =>
          let path := group m 4 in
          let path_offset := start m 4 in
          Ok (Parsed prefix host port path path_offset)
      end
  end.

(** [not path] holds for [None] and for the empty string. *)
Definition falsy_str (o : option string) : bool :=
  match o with
  | None => true
  | Some EmptyString => true
  | Some _ => false
  end.

(** The two guards of the source, in order; the [print] is not modelled. *)
Definition _check_url (url : string) (prefix path : option string) : result unit :=
  if match prefix with
     | Some p => bool_decide (p ≠ FS_PREFIX)
     | None => false
     end
  then Raise (ValueError ("Mismatched HDFS namespace for URL: " +:+ url))
  else if falsy_str path
  then Raise (ValueError ("Failed to parse path from URL: " +:+ url))
  else Ok tt.

End Url.
Import Url.


(** ** Declarative reading of the pattern language

    [matches r st st'] holds when [r] can consume the subject from [st] to
    [st'], whatever the priorities of the engine. *)
Module ReSpec.

Definition same_caps (st st' : mstate) : Prop := m_caps st' = m_caps st.

Fixpoint matches (r : regex) (st st' : mstate) : Prop :=
  match r with
  | REps => st' = st
  | RChar cs =>
      ∃ c, m_rest st = String c (m_rest st') ∧ cs_mem cs c = true ∧
           m_pos st' = S (m_pos st) ∧ same_caps st st'
  | RPlus cs =>
      ∃ w, w ≠ EmptyString ∧ all_chars (cs_mem cs) w = true ∧
           m_rest st = w +:+ m_rest st' ∧
           m_pos st' = m_pos st + len w ∧ same_caps st st'
  | RSeq r1 r2 => ∃ mid, matches r1 st mid ∧ matches r2 mid st'
  | ROpt r' => matches r' st st' ∨ st' = st
  | RGroup n r' => ∃ st1, matches r' st st1 ∧ st' = set_cap n (m_pos st) st1
  | RBol => m_pos st = 0 ∧ st' = st
  | REol => (m_rest st = EmptyString ∨ m_rest st = String LF EmptyString) ∧ st' = st
  end.

(** The capture groups a pattern can write. *)
Fixpoint groups (r : regex) : list nat :=
  match r with
  | RSeq r1 r2 => groups r1 ++ groups r2
  | ROpt r' => groups r'
  | RGroup n r' => n :: groups r'
  | _ => []
  end.

(** The state describes position [m_pos st] of the subject [s]. *)
Definition at_pos (s : string) (st : mstate) : Prop :=
  m_rest st = drop_str (m_pos st) s ∧ m_pos st ≤ len s.

End ReSpec.
Import ReSpec.

(** ** A state-and-exception monad for the effectful methods

    A Python call either returns or raises; the mutations it made before
    raising stay. *)
Definition M (S A : Type) : Type := S → result A * S.

Definition mret {S A} (a : A) : M S A := λ s, (Ok a, s).
Definition mbind {S A B} (m : M S A) (f : A → M S B) : M S B :=
  λ s, match m s with
       | (Ok a, s') => f a s'
       | (Raise e, s') => (Raise e, s')
       end.
Definition mget {S} : M S S := λ s, (Ok s, s).
Definition mmodify {S} (f : S → S) : M S unit := λ s, (Ok tt, f s).
Definition lift_result {S A} (r : result A) : M S A := λ s, (r, s).

Notation "'do' x <- m ; k" := (mbind m (λ x, k))
  (at level 10, x name, m at level 100, k at level 200,
   format "'[v' 'do'  x  <-  m ; '/' k ']'").
Notation "'exec' m ; k" := (mbind m (λ _, k))
  (at level 10, m at level 100, k at level 200,
   format "'[v' 'exec'  m ; '/' k ']'").

(** [for x in l: body(x)] *)
Fixpoint for_each {S A} (l : list A) (body : A → M S unit) : M S unit :=
  match l with
  | [] => mret tt
  | x :: l' => exec body x; for_each l' body
  end.

(** ** The remote backend, seen through the calls the module makes *)
Module Backend.

Record hdfs_kwargs := HdfsKwargs {
  kw_host : string;
  kw_port : Z;
  kw_user : option string;
  kw_kerb_ticket : option string;
  kw_extra_conf : option (list (string * string))
}.

(** A filesystem handle is identified by the connection that made it. *)
Definition handle := nat.

Inductive event :=
  | EConnect (kw : hdfs_kwargs) (res : option handle)
  | EUpload (fs : handle) (hdfs_path local_path : string) (ok : bool).

Definition trace := list event.

(** Whether the next connection or transfer goes through: any function of
    what has happened so far. *)
Record backend := {
  connect_ok : trace → hdfs_kwargs → bool;
  upload_ok : trace → handle → string → bool
}.

(** [pa.hdfs.connect] applied to the keyword arguments [kw] *)
Definition pa_hdfs_connect (B : backend) (kw : hdfs_kwargs) : M trace handle :=
  λ t, if connect_ok B t kw
       then (Ok (length t), t ++ [EConnect kw (Some (length t))])
       else (Raise ConnectError, t ++ [EConnect kw None]).

(** [with open(local_path, 'rb') as f: hdfs.upload(hdfs_path, f)] *)
Definition hdfs_upload (B : backend) (fs : handle) (hdfs_path local_path : string)
    : M trace unit :=
  λ t, if upload_ok B t fs hdfs_path
       then (Ok tt, t ++ [EUpload fs hdfs_path local_path true])
       else (Raise UploadError, t ++ [EUpload fs hdfs_path local_path false]).

(** Calls of the connection factory. *)
Fixpoint connect_calls (t : trace) : nat :=
  match t with
  | [] => 0
  | EConnect _ _ :: t' => S (connect_calls t')
  | _ :: t' => connect_calls t'
  end.

(** Calls of the connection factory that returned a handle. *)
Fixpoint connections (t : trace) : nat :=
  match t with
  | [] => 0
  | EConnect _ (Some _) :: t' => S (connections t')
  | _ :: t' => connections t'
  end.

(** Local paths whose transfer was started, in order. *)
Fixpoint upload_attempts (t : trace) : list string :=
  match t with
  | [] => []
  | EUpload _ _ p _ :: t' => p :: upload_attempts t'
  | _ :: t' => upload_attempts t'
  end.

(** Local paths whose transfer completed, in order. *)
Fixpoint uploads (t : trace) : list string :=
  match t with
  | [] => []
  | EUpload _ _ p true :: t' => p :: uploads t'
  | _ :: t' => uploads t'
  end.

(** Remote targets of the completed transfers, with their local source. *)
Fixpoint upload_targets (t : trace) : list (string * string) :=
  match t with
  | [] => []
  | EUpload _ hp p true :: t' => (p, hp) :: upload_targets t'
  | _ :: t' => upload_targets t'
  end.

End Backend.
Import Backend.

(** ** The store: construction and accessors *)
Module Store.

Record HDFSStore := mkHDFSStore {
  _temp_dir : option string;
  _url_prefix : string;
  _hdfs_kwargs : hdfs_kwargs;
  _hdfs : handle;
  prefix_path : string
}.

(** Python's [a or b] on [str | None] and on [int | None]: the left operand
    when it is truthy, the right one otherwise. *)
Definition truthy_str (o : option string) : bool := negb (falsy_str o).

Definition truthy_int (o : option Z) : bool :=
  match o with
  | Some n => negb (n =? 0)%Z
  | None => false
  end.

Definition or_str (a b : option string) : option string :=
  if truthy_str a then a else b.

Definition or_int (a b : option Z) : option Z :=
  if truthy_int a then a else b.

(** [a or 'literal']: the right operand is a constant, so the result is one. *)
Definition or_str_lit (a : option string) (d : string) : string :=
  match a with
  | Some (String c s) => String c s
  | _ => d
  end.

Definition or_int_lit (a : option Z) (d : Z) : Z :=
  match a with
  | Some n => if (n =? 0)%Z then d else n
  | None => d
  end.

(** [host = host or url_host or 'default'] *)
Definition effective_host (host url_host : option string) : string :=
  or_str_lit (or_str host url_host) "default".

(** [port = port or url_port or 0] *)
Definition effective_port (port url_port : option Z) : Z :=
  or_int_lit (or_int port url_port) 0.

(** Modelled from the spec: the initialiser of the base class
    [FilesystemStore], which is not part of the sources at hand; it keeps
    the location string the store was created with. *)
Definition FilesystemStore_init (prefix_path : string) : string := prefix_path.

Section WithBackend.
Variable B : backend.

(** [_get_filesystem_fn()]: the returned closure, which connects with the
    captured keyword arguments every time it is called. *)
Definition _get_filesystem_fn (kw : hdfs_kwargs) : M trace handle :=
  pa_hdfs_connect B kw.

Definition __init__ (prefix_path : string)
    (host : option string) (port : option Z)
    (user kerb_ticket : option string)
    (extra_conf : option (list (string * string)))
    (temp_dir : option string) : M trace HDFSStore :=
  do p <- lift_result (parse_url prefix_path);
  exec lift_result (_check_url prefix_path (p_prefix p) (p_path p));
  let url_prefix :=
    if truthy_str (p_prefix p)
    then slice_to (p_path_offset p) prefix_path
    else FS_PREFIX in
  let host := effective_host host (p_host p) in
  let port := effective_port port (p_port p) in
  let kw := HdfsKwargs host port user kerb_ticket extra_conf in
  do hdfs <- _get_filesystem_fn kw;
  mret (mkHDFSStore temp_dir url_prefix kw hdfs
                    (FilesystemStore_init prefix_path)).

Definition path_prefix (self : HDFSStore) : string := _url_prefix self.

Definition get_filesystem (self : HDFSStore) : M trace handle :=
  mret (_hdfs self).

(** Modelled from the spec: [get_run_path] of the base class, which is
    not part of the sources at hand; the remote root of a run is the
    store's prefix path joined with the run identifier. *)
Definition get_run_path (self : HDFSStore) (run_id : string) : string :=
  os_path_join (prefix_path self) run_id.

End WithBackend.

End Store.
Import Store.

(** ** The scratch directory of a run *)
Module Scratch.

(** The local filesystem as the set of paths that exist, the candidate
    names [tempfile] will draw next, and the trees [shutil.rmtree] cannot
    remove: [stuck !! d = Some kept] when removing [d] fails (an entry it
    may not delete, or [d] is a file or a link and not a directory), which
    leaves [d] and the paths of [kept] below it in place. *)
Record os_state := OsState {
  paths : gset string;
  names : list string;
  stuck : gmap string (gset string)
}.

(** [p] is [d] or lies below it. *)
Definition under (d p : string) : bool :=
  bool_decide (p = d) || has_prefix (d +:+ String SEP EmptyString) p.

(** [tempfile.mkdtemp(dir=dir)]: the first candidate [dir/tmpXXXX] that
    [os.mkdir] can create; a candidate that exists is skipped. *)
Fixpoint mkdtemp_loop (dir : string) (cands : list string) (ps : gset string)
    (st : gmap string (gset string)) : result string * os_state :=
  match cands with
  | [] => (Raise (OSError "No usable temporary directory name found"),
           OsState ps [] st)
  | n :: cands' =>
      let file := os_path_join dir ("tmp" +:+ n) in
      if bool_decide (file ∈ ps) then mkdtemp_loop dir cands' ps st
      else if bool_decide (dir ∈ ps)
      then (Ok file, OsState ({[file]} ∪ ps) cands' st)
      else (Raise (OSError "No such file or directory"), OsState ps cands' st)
  end.

Definition mkdtemp (gettempdir : string) (dir : option string) : M os_state string :=
  λ s, mkdtemp_loop (default gettempdir dir) (names s) (paths s) (stuck s).

(** [shutil.rmtree(d)], called without [ignore_errors]: it raises when
    [d] does not exist and when it cannot remove the tree, and then what
    it could not remove stays. *)
Definition rmtree (d : string) : M os_state unit :=
  λ s, if bool_decide (d ∈ paths s)
       then match stuck s !! d with
            | None =>
                (Ok tt, OsState (filter (λ p, under d p = false) (paths s))
                                (names s) (stuck s))
            | Some kept =>
                (Raise (OSError "Cannot remove the directory tree"),
                 OsState (filter (λ p, (under d p = false) ∨ p = d ∨ p ∈ kept) (paths s))
                         (names s) (stuck s))
            end
       else (Raise (OSError "No such file or directory"), s).

(** [with local_run_path() as dirpath: body(dirpath)] for the generator
<<
    dirpath = tempfile.mkdtemp(dir=temp_dir)
    try:
        yield dirpath
    finally:
        shutil.rmtree(dirpath)
>>
    under [contextlib.contextmanager]: the [finally] clause runs when the
    block is left, by its end or by an exception, which is then raised
    again unless [rmtree] itself raises. *)
Definition with_local_run_path {A} (gettempdir : string) (temp_dir : option string)
    (body : string → M os_state A) : M os_state A :=
  λ s, match mkdtemp gettempdir temp_dir s with
       | (Raise e, s1) => (Raise e, s1)
       | (Ok dirpath, s1) =>
           match body dirpath s1 with
           | (r, s2) =>
               match rmtree dirpath s2 with
               | (Raise e, s3) => (Raise e, s3)
               | (Ok _, s3) => (r, s3)
               end
           end
       end.

(** [get_local_output_dir_fn(run_id)]: the context manager over the store's
    [_temp_dir]; [run_id] is not used. *)
Definition get_local_output_dir_fn {A} (gettempdir : string) (self : HDFSStore)
    (run_id : string) : (string → M os_state A) → M os_state A :=
  let temp_dir := _temp_dir self in
  with_local_run_path gettempdir temp_dir.

End Scratch.
Import Scratch.

(** ** The sync function of a run *)
Module Sync.

(** What [os.walk] finds below the scratch directory: a regular file with
    the modification time [os.path.getmtime] reports for it, a directory
    with its entries in listing order, or an entry that is listed among
    the files but that [os.path.getmtime] cannot reach (a dangling link,
    a file removed since it was listed). *)
#[warning="-register-all"] Inductive node :=
  | File (mtime : Q)
  | Dir (entries : list (string * node))
  | Unreachable.

Definition is_dir (n : node) : bool :=
  match n with Dir _ => true | _ => false end.

Definition dirnames (es : list (string * node)) : list string :=
  map fst (filter (λ e, is_dir (snd e) = true) es).

(** The non-directory entries, each with what [os.path.getmtime] will
    report for it: its modification time, or nothing where it raises. *)
Fixpoint filenames (es : list (string * node)) : list (string * option Q) :=
  match es with
  | [] => []
  | (name, File m) :: es' => (name, Some m) :: filenames es'
  | (name, Unreachable) :: es' => (name, None) :: filenames es'
  | (_, Dir _) :: es' => filenames es'
  end.

(** [os.walk(top)], top-down: the triple of [top], then the walk of each
    sub-directory [os.path.join(top, name)]; nothing is yielded for a
    [top] that is not a directory. *)
Fixpoint os_walk (top : string) (n : node)
    : list (string * list string * list (string * option Q)) :=
  match n with
  | Dir es =>
      (top, dirnames es, filenames es)
      :: concat (map (λ e, os_walk (os_path_join top (fst e)) (snd e)) es)
  | _ => []
  end.

(** [os.path.getmtime(path)], given what the directory holds for the
    path. *)
Definition os_path_getmtime (mtime : option Q) : result Q :=
  match mtime with
  | Some m => Ok m
  | None => Raise (OSError "No such file or directory")
  end.

(** [int(x)] for a float [x]: truncation towards zero. *)
Definition int_of_float (x : Q) : Z := Z.quot (Qnum x) (Z.pos (Qden x)).

Record SyncState := mkSyncState {
  fs : option handle;
  uploaded : gmap string Z
}.

(** What the closure mutates and what it causes. *)
Record world := World {
  state : SyncState;
  events : trace
}.

(** What the closure captures besides [state]. *)
Record sync_env := SyncEnv {
  get_filesystem_kw : hdfs_kwargs;
  hdfs_root_path : string
}.

(** An action on the backend, run from inside the closure. *)
Definition on_backend {A} (m : M trace A) : M world A :=
  λ w, match m (events w) with
       | (r, t') => (r, World (state w) t')
       end.

Definition set_fs (h : handle) : M world unit :=
  mmodify (λ w, World (mkSyncState (Some h) (uploaded (state w))) (events w)).

Definition set_uploaded (local_path : string) (ts : Z) : M world unit :=
  mmodify (λ w, World (mkSyncState (fs (state w))
                                   (<[local_path := ts]> (uploaded (state w))))
                      (events w)).

(** [True] when the file is skipped ([continue]). *)
Definition up_to_date (uploaded : gmap string Z) (local_path : string)
    (modified_ts : Z) : bool :=
  match uploaded !! local_path with
  | Some last_modified_ts => (modified_ts <=? last_modified_ts)%Z
  | None => false
  end.

Section WithBackend.
Variable B : backend.

(** [sync_fn(run_id)]: a fresh [SyncState] and the captured values. *)
Definition sync_fn (self : HDFSStore) (run_id : string)
    : M trace (sync_env * SyncState) :=
  let state := mkSyncState None ∅ in
  let get_filesystem := _hdfs_kwargs self in
  let hdfs_root_path := get_run_path self run_id in
  mret (SyncEnv get_filesystem hdfs_root_path, state).

(** The body of [for file in files]. *)
Definition sync_file (hdfs : handle) (hdfs_dir local_dir : string)
    (file : string * option Q) : M world unit :=
  let local_path := os_path_join local_dir (fst file) in
  do mtime <- lift_result (os_path_getmtime (snd file));
  let modified_ts := int_of_float mtime in
  do w <- mget;
  if up_to_date (uploaded (state w)) local_path modified_ts then mret tt
  else
    let hdfs_path := os_path_join hdfs_dir (fst file) in
    exec on_backend (hdfs_upload B hdfs hdfs_path local_path);
    set_uploaded local_path modified_ts.

(** The body of [for local_dir, dirs, files in os.walk(local_run_path)]. *)
Definition sync_dir (env : sync_env) (hdfs : handle) (prefix : nat)
    (item : string * list string * list (string * option Q)) : M world unit :=
  let '(local_dir, _, files) := item in
  let hdfs_dir := os_path_join (hdfs_root_path env) (drop_str prefix local_dir) in
  for_each files (sync_file hdfs hdfs_dir local_dir).

(** The closure [fn(local_run_path)], with [tree] what lies at
    [local_run_path] while it runs. *)
Definition fn (env : sync_env) (local_run_path : string) (tree : node)
    : M world unit :=
  do w <- mget;
  do hdfs <- match fs (state w) with
             | None =>
                 do h <- on_backend (_get_filesystem_fn B (get_filesystem_kw env));
                 exec set_fs h;
                 mret h
             | Some h => mret h
             end;
  let prefix := len local_run_path + 1 in
  for_each (os_walk local_run_path tree) (sync_dir env hdfs prefix).

(** A sync session: the calls made on one closure, each with the tree
    found at that time; a call that raises does not stop the session. *)
Fixpoint session (env : sync_env) (local_run_path : string)
    (trees : list node) (w : world) : list (result unit) * world :=
  match trees with
  | [] => ([], w)
  | tree :: trees' =>
      match fn env local_run_path tree w with
      | (r, w') =>
          match session env local_run_path trees' w' with
          | (rs, w'') => (r :: rs, w'')
          end
      end
  end.

End WithBackend.

(** The regular files below [top] in walk order: local path, integer
    modification time, and remote target under [root]. *)
Record visit := Visit {
  v_local : string;
  v_ts : Z;
  v_remote : string
}.

(** The listed files that [os.path.getmtime] reaches, with their time. *)
Definition reachable (files : list (string * option Q)) : list (string * Q) :=
  omap (λ f, match snd f with
             | Some m => Some (fst f, m)
             | None => None
             end) files.

Definition visits_of (root : string) (prefix : nat)
    (item : string * list string * list (string * option Q)) : list visit :=
  let '(local_dir, _, files) := item in
  map (λ f, Visit (os_path_join local_dir (fst f))
                  (int_of_float (snd f))
                  (os_path_join (os_path_join root (drop_str prefix local_dir))
                                (fst f)))
      (reachable files).

Definition visited (root local_run_path : string) (tree : node) : list visit :=
  concat (map (visits_of root (len local_run_path + 1))
              (os_walk local_run_path tree)).

End Sync.
Import Sync.


(** ** Vocabulary of the statements about [parse_url] *)
Module UrlSpec.

(** A character other than ["/"] and [":"]. *)
Definition not_slash_colon (c : ascii) : bool :=
  negb (Ascii.eqb c "/") && negb (Ascii.eqb c ":").

(** The maximal leading run of characters other than ["/"] and [":"]. *)
Definition host_run (url : string) : string := take_while not_slash_colon url.

Definition after_host_run (url : string) : string := drop_while not_slash_colon url.

(** The first character exists and is neither ["/"] nor [":"]. *)
Definition first_char_ok (url : string) : bool :=
  match url with
  | String c _ => not_slash_colon c
  | EmptyString => false
  end.

(** No line feed, except possibly as the last character. *)
Fixpoint lf_only_last (s : string) : bool :=
  match s with
  | EmptyString => true
  | String _ EmptyString => true
  | String c s' => negb (Ascii.eqb c LF) && lf_only_last s'
  end.

(** The state in which the engine starts on [url]. *)
Definition st0 (url : string) : mstate := MState 0 url ∅.

(** A location that ends in a line feed, and a relative one with a line
    feed inside what follows its first component. *)
Definition url_trailing_lf : string := "/a/b" +:+ String LF EmptyString.
Definition url_inner_lf : string := "a/b" +:+ String LF "c".

(** [c * n] *)
Fixpoint replicate_str (n : nat) (c : ascii) : string :=
  match n with
  | O => EmptyString
  | S n' => String c (replicate_str n' c)
  end.

(** A relative location whose port has one digit more than [int] takes. *)
Definition url_long_port : string := "a:" +:+ replicate_str 4301 "1" +:+ "/p".

End UrlSpec.
Import UrlSpec.

(** ** Vocabulary of the statements about the store and the sync function *)
Module StoreSpec.

(** The effective host and port as "the explicit argument when supplied,
    otherwise the parsed one, otherwise the default". *)
Definition claimed_host (host url_host : option string) : string :=
  match host, url_host with
  | Some h, _ => h
  | None, Some h => h
  | None, None => "default"
  end.

Definition claimed_port (port url_port : option Z) : Z :=
  match port, url_port with
  | Some n, _ => n
  | None, Some n => n
  | None, None => 0%Z
  end.

(** An argument counts as supplied when it is not [None], not the empty
    string and not [0]. *)
Definition supplied_str (o : option string) : option string :=
  match o with
  | Some EmptyString => None
  | _ => o
  end.

Definition supplied_int (o : option Z) : option Z :=
  match o with
  | Some 0%Z => None
  | _ => o
  end.

Definition amended_host (host url_host : option string) : string :=
  default (default "default" url_host) (supplied_str host).

Definition amended_port (port url_port : option Z) : Z :=
  default (default 0%Z url_port) (supplied_int port).

(** A backend on which every connection and every transfer goes through. *)
Definition backend_up : backend :=
  {| connect_ok := λ _ _, true; upload_ok := λ _ _ _, true |}.

End StoreSpec.
Import StoreSpec.

Module SyncSpec.

(** The decision rule in the words of the specification: the path is not
    yet in the ledger, or the timestamp is strictly greater than the one
    recorded for it. *)
Definition should_upload (ledger : gmap string Z) (v : visit) : Prop :=
  ledger !! v_local v = None ∨
  ∃ last, ledger !! v_local v = Some last ∧ (last < v_ts v)%Z.

#[global] Instance should_upload_dec ledger v : Decision (should_upload ledger v).
Proof.
  unfold should_upload. destruct (ledger !! v_local v) as [last|].
  - destruct (decide (last < v_ts v)%Z) as [Hlt|Hge].
    + left. right. by exists last.
    + right. intros [? | (l & [= <-] & ?)]; done.
  - left. by left.
Defined.

(** The ledger holds a timestamp for the path that is not older than the
    file's. *)
Definition covered (ledger : gmap string Z) (v : visit) : Prop :=
  ∃ last, ledger !! v_local v = Some last ∧ (v_ts v ≤ last)%Z.

(** The loop body on a visit. *)
Definition sync_visit (B : backend) (hdfs : handle) (v : visit) : M world unit :=
  do w <- mget;
  if up_to_date (uploaded (state w)) (v_local v) (v_ts v) then mret tt
  else
    exec on_backend (hdfs_upload B hdfs (v_remote v) (v_local v));
    set_uploaded (v_local v) (v_ts v).

(** The ledger after a visit that did not raise. *)
Definition record_visit (ledger : gmap string Z) (v : visit) : gmap string Z :=
  if up_to_date ledger (v_local v) (v_ts v) then ledger
  else <[v_local v := v_ts v]> ledger.

Definition ledger_after (ledger : gmap string Z) (vs : list visit) : gmap string Z :=
  foldl record_visit ledger vs.

(** The visits of [vs] that are not skipped when none raises. *)
Fixpoint pending (ledger : gmap string Z) (vs : list visit) : list visit :=
  match vs with
  | [] => []
  | v :: vs' =>
      if up_to_date ledger (v_local v) (v_ts v) then pending ledger vs'
      else v :: pending (<[v_local v := v_ts v]> ledger) vs'
  end.

Definition ok_event (h : handle) (v : visit) : event :=
  EUpload h (v_remote v) (v_local v) true.

Definition failed_event (h : handle) (v : visit) : event :=
  EUpload h (v_remote v) (v_local v) false.

(** The event is a transfer made through the handle [h]. *)
Definition uses_handle (h : handle) (e : event) : Prop :=
  match e with
  | EUpload h' _ _ _ => h' = h
  | EConnect _ _ => False
  end.

(** How often the path [p] occurs in [l]. *)
Definition occurrences (p : string) (l : list string) : nat :=
  length (filter (λ q, q = p) l).

(** The modification time of the regular file reached from [n] through
    the entry names [path]. *)
Fixpoint lookup_entry (name : string) (es : list (string * node)) : option node :=
  match es with
  | [] => None
  | (n, child) :: es' =>
      if bool_decide (n = name) then Some child else lookup_entry name es'
  end.

Fixpoint find_file (path : list string) (n : node) : option Q :=
  match path, n with
  | [], File m => Some m
  | name :: path', Dir es =>
      match lookup_entry name es with
      | Some child => find_file path' child
      | None => None
      end
  | _, _ => None
  end.

(** ["sub/dir/file.txt"] for [["sub"; "dir"; "file.txt"]]. *)
Fixpoint join_names (names : list string) : string :=
  match names with
  | [] => EmptyString
  | [n] => n
  | n :: names' => n +:+ String SEP (join_names names')
  end.

(** An entry name: not empty and without separator. *)
Definition valid_name (n : string) : bool :=
  negb (bool_decide (n = EmptyString)) &&
  negb (contains (String SEP EmptyString) n).

(** A path that can be extended by [os.path.join] with a separator. *)
Definition no_trailing_sep (p : string) : bool :=
  negb (bool_decide (p = EmptyString)) && negb (endswith SEP p).

(** A relative path: not empty, no separator at either end. *)
Definition rel_ok (p : string) : bool :=
  negb (startswith SEP p) && no_trailing_sep p.

(** Induction on trees, with the hypothesis for every entry of a directory. *)
Fixpoint node_ind' (P : node → Prop) (Hfile : ∀ m, P (File m))
    (Hdir : ∀ es, Forall (λ e, P (snd e)) es → P (Dir es))
    (Hun : P Unreachable) (n : node) : P n :=
  match n with
  | File m => Hfile m
  | Dir es =>
      Hdir es ((fix go (es : list (string * node)) : Forall (λ e, P (snd e)) es :=
                  match es with
                  | [] => List.Forall_nil _
                  | e :: es' =>
                      @List.Forall_cons _ _ e es'
                        (node_ind' P Hfile Hdir Hun (snd e)) (go es')
                  end) es)
  | Unreachable => Hun
  end.

(** A directory tree as a filesystem holds it: in every directory the entry
    names are valid and pairwise distinct. *)
Fixpoint wf_tree (n : node) : bool :=
  match n with
  | Dir es =>
      forallb valid_name (map fst es) &&
      bool_decide (NoDup (map fst es)) &&
      forallb (λ e, wf_tree (snd e)) es
  | _ => true
  end.

(** No entry of the tree is out of the reach of [os.path.getmtime]. *)
Fixpoint all_reachable (n : node) : bool :=
  match n with
  | File _ => true
  | Dir es => forallb (λ e, all_reachable (snd e)) es
  | Unreachable => false
  end.

(** What [os.path.join] puts in front of a valid entry name. *)
Definition base (top : string) : string :=
  if (match top with EmptyString => true | _ => false end) || endswith SEP top
  then top
  else top +:+ String SEP EmptyString.

(** The paths of the regular files of a tree, relative to its root, in walk
    order. *)
Fixpoint rel_paths (n : node) : list string :=
  match n with
  | Dir es =>
      map fst (reachable (filenames es))
      ++ concat (map (λ e, map (λ r, fst e +:+ String SEP r) (rel_paths (snd e))) es)
  | _ => []
  end.

(** The local paths of a walk that starts at [top]. *)
Definition local_paths (top : string) (n : node) : list string :=
  concat (map (λ item, map (λ f, os_path_join (fst (fst item)) (fst f))
                           (reachable (snd item)))
              (os_walk top n)).

(** The files of a walk as the loop meets them: a visit, or nothing for a
    file whose modification time cannot be read. *)
Definition steps_of (root : string) (prefix : nat)
    (item : string * list string * list (string * option Q)) : list (option visit) :=
  let '(local_dir, _, files) := item in
  map (λ f, match snd f with
            | Some m =>
                Some (Visit (os_path_join local_dir (fst f)) (int_of_float m)
                            (os_path_join
                               (os_path_join root (drop_str prefix local_dir)) (fst f)))
            | None => None
            end)
      files.

Definition steps (root local_run_path : string) (tree : node) : list (option visit) :=
  concat (map (steps_of root (len local_run_path + 1)) (os_walk local_run_path tree)).

(** The loop body on a step. *)
Definition sync_step (B : backend) (hdfs : handle) (o : option visit) : M world unit :=
  match o with
  | Some v => sync_visit B hdfs v
  | None => lift_result (Raise (OSError "No such file or directory"))
  end.

(** The calls of a session that raised because the connection failed. *)
Definition is_connect_error (r : result unit) : bool :=
  match r with
  | Raise ConnectError => true
  | _ => false
  end.

Definition failed_connects (rs : list (result unit)) : nat :=
  length (List.filter is_connect_error rs).

(** [1] when the closure holds a handle, [0] when the field is unset. *)
Definition handles (w : world) : nat :=
  match fs (state w) with
  | Some _ => 1
  | None => 0
  end.

(** The visits among the steps, the visits before the first file whose
    modification time cannot be read, and whether there is such a file. *)
Definition visits (os : list (option visit)) : list visit := omap id os.

Fixpoint readable (os : list (option visit)) : list visit :=
  match os with
  | Some v :: os' => v :: readable os'
  | _ => []
  end.

Fixpoint blocked (os : list (option visit)) : bool :=
  match os with
  | [] => false
  | Some _ :: os' => blocked os'
  | None :: _ => true
  end.

End SyncSpec.
Import SyncSpec.

(** ** Sample values *)
Module Samples.

Definition store_nn : HDFSStore :=
  mkHDFSStore None "hdfs://nn:8020" (HdfsKwargs "nn" 8020 None None None) 0
              "hdfs://nn:8020/user/test".

(** A scratch directory with two files and a nested one. *)
Definition tree_two : node :=
  Dir [("F1", File (100 # 1)); ("F2", File (200 # 1));
       ("sub", Dir [("dir", Dir [("file.txt", File (300 # 1))])])].



Definition env_run42 : sync_env :=
  SyncEnv (_hdfs_kwargs store_nn) (get_run_path store_nn "run42").

Definition scratch : string := "/tmp/tmpab".

(** A scratch directory with two files only. *)
Definition tree_pair : node :=
  Dir [("F1", File (100 # 1)); ("F2", File (200 # 1))].

(** The local filesystem before a run, and a block that writes a file
    into the scratch directory and then raises. *)
Definition os0 : os_state := OsState {["/tmp"]} ["ab"; "cd"] ∅.

Definition failing_block (dirpath : string) : M os_state unit :=
  λ s, (Raise (OSError "injected"),
        OsState ({[os_path_join dirpath "model.ckpt"]} ∪ paths s) (names s) (stuck s)).

Definition world0 : world := World (mkSyncState None ∅) [].

(** What the closure captures when the run identifier is an absolute
    path. *)
Definition env_abs : sync_env :=
  SyncEnv (_hdfs_kwargs store_nn) (get_run_path store_nn "/x").

(** A block that writes into the scratch directory a file that
    [shutil.rmtree] will not be able to delete. *)
Definition locking_block (dirpath : string) : M os_state unit :=
  λ s, (Ok tt,
        OsState ({[os_path_join dirpath "model.ckpt"]} ∪ paths s) (names s)
                (<[dirpath := {[os_path_join dirpath "model.ckpt"]}]> (stuck s))).

(** A backend on which the transfer to [F2] fails the first time it is
    tried, and everything else goes through. *)
Definition backend_f2_once : backend :=
  {| connect_ok := λ _ _, true;
     upload_ok := λ t _ hdfs_path,
       negb (bool_decide (hdfs_path = "hdfs://nn:8020/user/test/run42/F2")
             && bool_decide ("/tmp/tmpab/F2" ∉ upload_attempts t)) |}.

(** A backend that refuses the first connection it is asked for and
    accepts the later ones. *)
Definition backend_late : backend :=
  {| connect_ok := λ t _, bool_decide (0 < connect_calls t);
     upload_ok := λ _ _ _, true |}.

End Samples.
Import Samples.

(** ** The parts of a location *)
Module UrlParts.

(** What the four groups of the pattern consume, as text: the scheme name
    in front of ["://"], the host, the digits after [":"], the path, and
    the line feed [$] may leave at the end. *)
Record url_parts := UrlParts {
  up_scheme : option string;
  up_host : option string;
  up_digits : option string;
  up_path : option string;
  up_tail : string
}.

Definition is_digit (c : ascii) : bool :=
  (48 <=? nat_of_ascii c) && (nat_of_ascii c <=? 57).

Definition not_lf (c : ascii) : bool := negb (Ascii.eqb c LF).

Definition scheme_prefix (w : option string) : option string :=
  match w with
  | Some w => Some (w +:+ "://")
  | None => None
  end.

Definition colon_digits (d : option string) : string :=
  match d with
  | Some d => String ":" d
  | None => EmptyString
  end.

Definition prefix_text (u : url_parts) : option string :=
  scheme_prefix (up_scheme u).

Definition port_text (u : url_parts) : string := colon_digits (up_digits u).

(** The text in front of the path. *)
Definition authority_text (u : url_parts) : string :=
  default EmptyString (prefix_text u) +:+ default EmptyString (up_host u)
  +:+ port_text u.

(** The location the parts spell. *)
Definition unparse (u : url_parts) : string :=
  authority_text u +:+ default EmptyString (up_path u) +:+ up_tail u.

(** What [parse_url] returns for the parts. *)
Definition parsed_of (u : url_parts) : parsed :=
  Parsed (prefix_text u) (up_host u)
         (match up_digits u with
          | Some d => Some (int_digits 0 d)
          | None => None
          end)
         (up_path u)
         (match up_path u with
          | Some _ => Z.of_nat (len (authority_text u))
          | None => (-1)%Z
          end).

Definition nonempty_all (p : ascii → bool) (o : option string) : bool :=
  match o with
  | Some EmptyString => false
  | Some s => all_chars p s
  | None => true
  end.

(** Each part is what its group can consume. *)
Definition parts_ok (u : url_parts) : bool :=
  nonempty_all not_lf (up_scheme u) &&
  nonempty_all not_slash_colon (up_host u) &&
  nonempty_all is_digit (up_digits u) &&
  nonempty_all not_lf (up_path u) &&
  (bool_decide (up_tail u = EmptyString) ||
   bool_decide (up_tail u = String LF EmptyString)).

(** Parts that can be read off the location in one way only: a path that
    starts with ["/"], no ["://"] after the prefix, no line feed at the
    end. *)
Definition canonical (u : url_parts) : bool :=
  parts_ok u &&
  match up_path u with
  | Some p => startswith SEP p
  | None => true
  end &&
  bool_decide (up_tail u = EmptyString) &&
  negb (contains "://" (default EmptyString (up_host u) +:+ port_text u
                        +:+ default EmptyString (up_path u))).

(** The span a group records when its part is there. *)
Definition opt_cap (n : nat) (o : option string) (a b : nat)
    (caps : gmap nat (nat * nat)) : gmap nat (nat * nat) :=
  match o with
  | Some _ => <[n := (a, b)]> caps
  | None => caps
  end.

(** The spans the four groups record on the location the parts spell. *)
Definition caps_of (u : url_parts) : gmap nat (nat * nat) :=
  let p1 := len (default EmptyString (prefix_text u)) in
  let p2 := p1 + len (default EmptyString (up_host u)) in
  let p3 := p2 + len (port_text u) in
  let p4 := p3 + len (default EmptyString (up_path u)) in
  opt_cap 4 (up_path u) p3 p4
    (opt_cap 3 (up_digits u) (S p2) p3
       (opt_cap 2 (up_host u) p1 p2
          (opt_cap 1 (up_scheme u) 0 p1 ∅))).

(** What [parse_url] makes of a match object when [int] accepts the
    digits. *)
Definition parsed_of_match (m : match_obj) : parsed :=
  Parsed (group m 1) (group m 2)
         (match group m 3 with
          | Some p => Some (int_digits 0 p)
          | None => None
          end)
         (group m 4) (start m 4).

(** The digits are not too many for [int]. *)
Definition digits_fit (d : option string) : bool :=
  match d with
  | Some d => len d <=? INT_MAX_STR_DIGITS
  | None => true
  end.

(** What [parse_url] makes of the parts: the [ValueError] of [int] when
    the digits are too many, their reading otherwise. *)
Definition parsed_or_error (u : url_parts) : result parsed :=
  if digits_fit (up_digits u) then Ok (parsed_of u)
  else Raise (ValueError "Exceeds the limit (4300 digits) for integer string conversion").

(** The digits the port group takes after the host run: the run of digits
    behind a [":"] that follows it. *)
Definition port_run (url : string) : string :=
  match after_host_run url with
  | String c r => if Ascii.eqb c ":" then take_while is_digit r else EmptyString
  | EmptyString => EmptyString
  end.

End UrlParts.
Import UrlParts.

(** ** The store, beyond its construction *)
Module StoreMore.


End StoreMore.
Import StoreMore.

(** ** Trees and ledgers compared *)
Module SyncMore.

(** Every entry of the ledger [u] is in [u'], with a timestamp that is not
    smaller. *)
Definition never_older (u u' : gmap string Z) : Prop :=
  ∀ p ts, u !! p = Some ts → ∃ ts', u' !! p = Some ts' ∧ (ts ≤ ts')%Z.

Fixpoint forall2b {X Y} (f : X → Y → bool) (l1 : list X) (l2 : list Y) : bool :=
  match l1, l2 with
  | [], [] => true
  | x :: l1', y :: l2' => f x y && forall2b f l1' l2'
  | _, _ => false
  end.

(** [new] has the entries of [old], in the same order, and no regular file
    of it has a greater integer modification time: files rewritten within
    the second of their last modification, or set back in time. *)
Fixpoint not_newer (old new : node) {struct old} : bool :=
  match old, new with
  | File m1, File m2 => (int_of_float m2 <=? int_of_float m1)%Z
  | Dir es1, Dir es2 =>
      forall2b (λ e1 e2, bool_decide (fst e1 = fst e2) && not_newer (snd e1) (snd e2))
               es1 es2
  | _, _ => false
  end.

(** What relates the visits of two such trees. *)
Definition visit_not_newer (a b : visit) : Prop :=
  v_local b = v_local a ∧ v_remote b = v_remote a ∧ (v_ts b ≤ v_ts a)%Z.

Definition item_not_newer
    (i1 i2 : string * list string * list (string * option Q)) : Prop :=
  fst (fst i2) = fst (fst i1) ∧
  Forall2 (λ f1 f2, fst f2 = fst f1 ∧ (int_of_float (snd f2) ≤ int_of_float (snd f1))%Z)
          (reachable (snd i1)) (reachable (snd i2)).

End SyncMore.
Import SyncMore.

(** ** More sample values *)
Module MoreSamples.

(** [tree_two] after [F1] was rewritten half a second later. *)
Definition tree_same_second : node :=
  Dir [("F1", File (201 # 2)); ("F2", File (200 # 1));
       ("sub", Dir [("dir", Dir [("file.txt", File (300 # 1))])])].

(** A block that removes the scratch directory itself. *)
Definition removing_block (dirpath : string) : M os_state unit :=
  λ s, (Ok tt, OsState (paths s ∖ {[dirpath]}) (names s) (stuck s)).


(** A directory [a] that holds a file named like one next to it, and the
    scratch root written with a trailing separator. *)
Definition tree_shadow : node :=
  Dir [("x", File (1 # 1)); ("a", Dir [("x", File (2 # 1))])].

Definition scratch_sep : string := "/tmp/tmpab/".

(** A scratch directory in which a link that leads nowhere is listed
    between two files. *)
Definition tree_dangling : node :=
  Dir [("F1", File (100 # 1)); ("gone", Unreachable); ("F2", File (200 # 1))].

End MoreSamples.
Import MoreSamples.

(** ** Tuner lookup and the life cycle of [HyperHyperModel] *)
Module Hphp.

(** The classes registered in [NAS_TUNERS]. *)
Inductive tuner_class := Hyperband | GridSearch | RandomSearch.

#[global] Instance tuner_class_eq_dec : EqDecision tuner_class.
Proof. solve_decision. Defined.

(** [NAS_TUNERS], a dict with three string keys. *)
Definition NAS_TUNERS : gmap string tuner_class :=
  <["hyperband" := Hyperband]>
    (<["gridsearch" := GridSearch]>
       (<["randomsearch" := RandomSearch]> ∅)).

Inductive py_exn :=
  | PyAttributeError (name : string)   (* no such attribute on the instance *)
  | PyValueError (msg : string)
  | PyTypeError (msg : string)
  | PyOther (tag : nat).               (* whatever other modules raise *)

Inductive outcome (A : Type) :=
  | Returns (a : A)
  | Raises (e : py_exn).
Arguments Returns {A} a.
Arguments Raises {A} e.

(** The double quote, and a name between two of them. *)
Definition DQUOTE : string := String (ascii_of_nat 34) EmptyString.
Definition quoted (s : string) : string := DQUOTE +:+ s +:+ DQUOTE.

(** The names the error message of [get_tuner_class] lists. *)
Definition advertised : list string := ["greedy"; "random"; "hyperband"; "bayesian"].

(** ['Expected the tuner argument to be one of "greedy", "random",
    "hyperband", or "bayesian", but got {tuner}'.format(tuner=tuner)] *)
Definition tuner_error (text : string) : string :=
  "Expected the tuner argument to be one of " +:+ quoted "greedy" +:+ ", "
  +:+ quoted "random" +:+ ", " +:+ quoted "hyperband" +:+ ", or "
  +:+ quoted "bayesian" +:+ ", but got " +:+ text.

Section Model.
(** The objects handed around (nodes, graphs, estimators, tuners, ...) and
    the state of everything outside the instance. *)
Variable V : Type.
Variable E : Type.

(** An argument that is a [str], or some other object. *)
Inductive py_arg :=
  | ArgStr (s : string)
  | ArgObj (v : V).

(** What [format] makes of an object that is not a [str]. *)
Variable format_obj : V → string.

Definition format_arg (a : py_arg) : string :=
  match a with
  | ArgStr s => s
  | ArgObj v => format_obj v
  end.

(** [get_tuner_class(tuner)] *)
Definition get_tuner_class (tuner : py_arg) : outcome tuner_class :=
  match tuner with
  | ArgStr s =>
      match NAS_TUNERS !! s with
      | Some c => Returns c
      | None => Raises (PyValueError (tuner_error (format_arg tuner)))
      end
  | ArgObj _ => Raises (PyValueError (tuner_error (format_arg tuner)))
  end.

(** The instance, as its attribute dictionary, and the outside. *)
Record hstate := HState {
  inst : gmap string V;
  outside : E
}.

Definition PyM (A : Type) : Type := hstate → outcome A * hstate.

Definition pret {A} (a : A) : PyM A := λ s, (Returns a, s).
Definition praise {A} (e : py_exn) : PyM A := λ s, (Raises e, s).
Definition pbind {A B} (m : PyM A) (f : A → PyM B) : PyM B :=
  λ s, match m s with
       | (Returns a, s') => f a s'
       | (Raises e, s') => (Raises e, s')
       end.

(** [self.name] read and written; none of the names used below is an
    attribute of the class. *)
Definition getattr (name : string) : PyM V :=
  λ s, match inst s !! name with
       | Some v => (Returns v, s)
       | None => (Raises (PyAttributeError name), s)
       end.

Definition setattr (name : string) (v : V) : PyM unit :=
  λ s, (Returns tt, HState (<[name := v]> (inst s)) (outside s)).

(** What the methods ask of other modules. *)
Inductive callee :=
  | ModelSelection_ctor
  | Tuner_ctor (c : tuner_class)
  | Callable (f : V)
  | Attribute (obj : V) (name : string)
  | Method (obj : V) (name : string).

Variable ext : callee → list V → list (string * V) → E → outcome V * E.

Definition call (c : callee) (args : list V) (kwargs : list (string * V)) : PyM V :=
  λ s, match ext c args kwargs (outside s) with
       | (r, e') => (r, HState (inst s) e')
       end.

End Model.

Arguments ArgStr {V} s.
Arguments ArgObj {V} v.
Arguments HState {V E} inst outside.
Arguments inst {V E} h.
Arguments outside {V E} h.
Arguments pret {V E A} a.
Arguments praise {V E A} e.
Arguments pbind {V E A B} m f.
Arguments getattr {V E} name.
Arguments setattr {V E} name v.
Arguments ModelSelection_ctor {V}.
Arguments Tuner_ctor {V} c.
Arguments Callable {V} f.
Arguments Attribute {V} obj name.
Arguments Method {V} obj name.
Arguments call {V E} ext c args kwargs.
Arguments get_tuner_class {V} format_obj tuner.

Notation "'perform' x <- m ; k" := (pbind m (λ x, k))
  (at level 10, x name, m at level 100, k at level 200,
   format "'[v' 'perform'  x  <-  m ; '/' k ']'").
Notation "'perform_' m ; k" := (pbind m (λ _, k))
  (at level 10, m at level 100, k at level 200,
   format "'[v' 'perform_'  m ; '/' k ']'").

Section Methods.
Variable V : Type.
Variable E : Type.
Variable format_obj : V → string.
Variable ext : callee V → list V → list (string * V) → E → outcome V * E.

(** The function object [def est_gen_fun(params)] makes in
    [resource_bind]. *)
Variable est_gen_fun : V.

(** [resource_bind(backend, store, validation, evaluation_metric,
    label_columns, feature_columns, verbose)] *)
Definition resource_bind (backend store validation evaluation_metric
    label_columns feature_columns verbose : V) : PyM V E unit :=
  perform ms <- call ext ModelSelection_ctor
                  [backend; store; validation; est_gen_fun; evaluation_metric;
                   label_columns; feature_columns; verbose] [];
  setattr "model_selection" ms.

(** The keyword arguments [tuner_bind] names in its call of the tuner. *)
Definition tuner_keywords : list string :=
  ["hypermodel"; "hyperparameters"; "model_selection"; "overwrite"; "objective";
   "max_trials"; "directory"; "seed"; "project_name"; "max_model_size"].

(** The first keyword of [**kwargs] that the call names itself. *)
Fixpoint repeated_keyword (kwargs : list (string * V)) : option string :=
  match kwargs with
  | [] => None
  | (k, _) :: kwargs' =>
      if bool_decide (k ∈ tuner_keywords) then Some k else repeated_keyword kwargs'
  end.

(** [tuner_bind(tuner, project_name, max_trials, directory, objective,
    overwrite, max_model_size, hyperparameters, **kwargs)]: the keyword
    arguments of the call are evaluated from left to right, then
    [**kwargs] is merged into them, which fails on a repeated keyword. *)
Definition tuner_bind (tuner : py_arg V)
    (project_name max_trials directory objective overwrite max_model_size
       hyperparameters : V)
    (kwargs : list (string * V)) : PyM V E unit :=
  perform tuner <- match tuner with
                   | ArgStr s =>
                       match get_tuner_class format_obj (ArgStr s) with
                       | Returns c => pret (Tuner_ctor c)
                       | Raises e => praise e
                       end
                   | ArgObj v => pret (Callable v)
                   end;
  perform graph <- getattr "graph";
  perform model_selection <- getattr "model_selection";
  perform seed <- getattr "seed";
  perform_ match repeated_keyword kwargs with
           | Some k =>
               praise (PyTypeError ("got multiple values for keyword argument " +:+ k))
           | None => pret tt
           end;
  perform t <- call ext tuner []
                 ([("hypermodel", graph); ("hyperparameters", hyperparameters);
                   ("model_selection", model_selection); ("overwrite", overwrite);
                   ("objective", objective); ("max_trials", max_trials);
                   ("directory", directory); ("seed", seed);
                   ("project_name", project_name);
                   ("max_model_size", max_model_size)] ++ kwargs);
  setattr "tuner" t.

(** The properties [objective], [max_trials], [directory] and
    [project_name]: [return self.tuner.<name>]. *)
Definition tuner_property (name : string) : PyM V E V :=
  perform t <- getattr "tuner";
  call ext (Attribute t name) [] [].

Definition objective : PyM V E V := tuner_property "objective".
Definition max_trials : PyM V E V := tuner_property "max_trials".
Definition directory : PyM V E V := tuner_property "directory".
Definition project_name : PyM V E V := tuner_property "project_name".

(** [export_model()]: [return self.tuner.get_best_model()] *)
Definition export_model : PyM V E V :=
  perform t <- getattr "tuner";
  call ext (Method t "get_best_model") [] [].

(** What [fit] does after its first test of [self.verbose], given the
    backend and the verbosity it read. *)
Variable fit_rest : V → V → PyM V E unit.

(** [fit(df, ...)], up to that test:
<<
    backend = self.model_selection.backend
    if self.verbose >= 1: print(...)
>> *)
Definition fit : PyM V E unit :=
  perform model_selection <- getattr "model_selection";
  perform backend <- call ext (Attribute model_selection "backend") [] [];
  perform verbose <- getattr "verbose";
  fit_rest backend verbose.

(** Only the attribute [name] may differ between the two instances. *)
Definition only_attr (name : string) (s s' : hstate V E) : Prop :=
  ∀ n, n ≠ name → inst s' !! n = inst s !! n.

(** A call of one of the two binding methods, with its arguments. *)
Inductive bind_call :=
  | ResourceBind (backend store validation evaluation_metric label_columns
                    feature_columns verbose : V)
  | TunerBind (tuner : py_arg V)
              (project_name max_trials directory objective overwrite
                 max_model_size hyperparameters : V)
              (kwargs : list (string * V)).

Definition run_call (c : bind_call) : PyM V E unit :=
  match c with
  | ResourceBind b s v em lc fc vb => resource_bind b s v em lc fc vb
  | TunerBind t pn mt d o ow mms hp kw => tuner_bind t pn mt d o ow mms hp kw
  end.

(** The calls made one after the other, whatever their outcomes. *)
Fixpoint run_calls (cs : list bind_call) (s : hstate V E) : hstate V E :=
  match cs with
  | [] => s
  | c :: cs' => run_calls cs' (snd (run_call c s))
  end.

(** Whether one of the calls was a [tuner_bind] that returned. *)
Fixpoint tuner_bound (cs : list bind_call) (s : hstate V E) : bool :=
  match cs with
  | [] => false
  | c :: cs' =>
      match c, fst (run_call c s) with
      | TunerBind _ _ _ _ _ _ _ _ _, Returns _ => true
      | _, _ => tuner_bound cs' (snd (run_call c s))
      end
  end.

End Methods.

End Hphp.
Import Hphp.

Module HphpSamples.

(** Objects as numbers; every call outside returns a new one. *)
Definition ext_fresh (c : callee nat) (args : list nat) (kwargs : list (string * nat))
    (e : nat) : outcome nat * nat :=
  (Returns e, S e).

Definition format_nat (n : nat) : string := "<object>".

(** An instance on which [resource_bind] has returned. *)
Definition bound_instance : hstate nat nat :=
  HState (<["graph" := 1]> (<["seed" := 2]> (<["model_selection" := 3]> ∅))) 10.

Definition fit_none (backend verbose : nat) : PyM nat nat unit := pret tt.

End HphpSamples.
Import HphpSamples.
(** * Properties *)

(** ** Strings *)
Lemma app_cons (c : ascii) (a b : string) : String c a +:+ b = String c (a +:+ b).
Proof. reflexivity. Qed.

Lemma app_empty_l (b : string) : EmptyString +:+ b = b.
Proof. reflexivity. Qed.

Create Rewrite HintDb str.
#[global] Hint Rewrite app_cons app_empty_l : str.

Ltac str_simpl := autorewrite with str in *; simpl in *.

Section StringFacts.

Lemma app_empty_r (s : string) : s +:+ EmptyString = s.
Proof. induction s as [|c s IH]; str_simpl; [done | by rewrite IH]. Qed.

Lemma app_assoc_str (a b c : string) : (a +:+ b) +:+ c = a +:+ (b +:+ c).
Proof. induction a as [|x a IH]; str_simpl; [done | by rewrite IH]. Qed.

Lemma len_app (a b : string) : len (a +:+ b) = len a + len b.
Proof. induction a as [|x a IH]; str_simpl; [done | by rewrite IH]. Qed.

Lemma drop_str_app (a b : string) : drop_str (len a) (a +:+ b) = b.
Proof. induction a as [|x a IH]; str_simpl; [by destruct b | done]. Qed.

Lemma drop_str_empty (n : nat) : drop_str n EmptyString = EmptyString.
Proof. by destruct n. Qed.

Lemma drop_str_add (a b : nat) (s : string) :
  drop_str (a + b) s = drop_str b (drop_str a s).
Proof.
  revert s; induction a as [|a IH]; intros s; simpl; [done|].
  destruct s; [by rewrite drop_str_empty | apply IH].
Qed.

Lemma take_str_app (a b : string) : take_str (len a) (a +:+ b) = a.
Proof. induction a as [|x a IH]; str_simpl; [by destruct b | by rewrite IH]. Qed.

Lemma take_drop_str (n : nat) (s : string) : take_str n s +:+ drop_str n s = s.
Proof.
  revert s; induction n as [|n IH]; intros s; simpl; [done|].
  destruct s; str_simpl; [done | by rewrite IH].
Qed.

Lemma len_drop_str (n : nat) (s : string) : len (drop_str n s) = len s - n.
Proof.
  revert s; induction n as [|n IH]; intros s; simpl; [lia|].
  destruct s; simpl; [done | apply IH].
Qed.

Lemma len_take_str (n : nat) (s : string) : len (take_str n s) ≤ len s.
Proof.
  revert s; induction n as [|n IH]; intros s; simpl; [lia|].
  destruct s; simpl; [done | specialize (IH s); lia].
Qed.

Lemma app_inv_head_str (a b c : string) : a +:+ b = a +:+ c → b = c.
Proof. induction a as [|x a IH]; str_simpl; [done | intros [= H]; auto]. Qed.

Lemma has_prefix_spec (p s : string) :
  has_prefix p s = true ↔ ∃ r, s = p +:+ r.
Proof.
  revert s; induction p as [|a p IH]; intros s; simpl.
  - split; [intros _; by exists s | done].
  - destruct s as [|b s]; [split; [done | by intros [r ?]]|].
    rewrite andb_true_iff, IH. split.
    + intros [Hab [r ->]]. apply Ascii.eqb_eq in Hab as ->. by exists r.
    + intros [r [= -> ->]]. split; [apply Ascii.eqb_refl | by exists r].
Qed.

Lemma contains_spec (sub s : string) :
  contains sub s = true ↔ ∃ a b, s = a +:+ sub +:+ b.
Proof.
  induction s as [|c s IH]; simpl.
  - rewrite orb_false_r, has_prefix_spec. split.
    + intros [r ->]. by exists EmptyString, r.
    + intros [a [b H]]. destruct a; [by exists b | done].
  - rewrite orb_true_iff, has_prefix_spec, IH. split.
    + intros [[r ->] | (a & b & ->)]; [by exists EmptyString, r|].
      by exists (String c a), b.
    + intros ([|x a] & b & H); str_simpl; [left; by exists b|].
      injection H as -> ->. right. by exists a, b.
Qed.

Lemma endswith_app (c : ascii) (a : string) :
  endswith c (a +:+ String c EmptyString) = true.
Proof.
  induction a as [|x a IH]; str_simpl; [apply Ascii.eqb_refl|].
  destruct a; str_simpl; [apply Ascii.eqb_refl | done].
Qed.

Lemma endswith_suffix (c : ascii) (a b : string) :
  b ≠ EmptyString → endswith c (a +:+ b) = endswith c b.
Proof.
  intros Hb. induction a as [|x a IH]; str_simpl; [done|].
  rewrite <- IH. destruct (a +:+ b) eqn:E; [|done].
  destruct a; str_simpl; [done | discriminate].
Qed.

Lemma drop_str_ge (n : nat) (s : string) : len s ≤ n → drop_str n s = EmptyString.
Proof.
  revert s; induction n as [|n IH]; intros s Hn; simpl.
  - destruct s; [done | simpl in Hn; lia].
  - destruct s; [done|]. apply IH. simpl in Hn. lia.
Qed.

Lemma contains_sep_cons c s :
  contains (String SEP EmptyString) (String c s) = false →
  Ascii.eqb c SEP = false ∧ contains (String SEP EmptyString) s = false.
Proof.
  simpl. intros [H1 H2]%orb_false_iff. rewrite andb_true_r in H1.
  split; [|done]. by rewrite Ascii.eqb_sym.
Qed.

Lemma no_sep_endswith s :
  contains (String SEP EmptyString) s = false → endswith SEP s = false.
Proof.
  induction s as [|c s IH]; [done|].
  intros [Hc Hs]%contains_sep_cons. simpl. destruct s; [done|]. by apply IH.
Qed.

Lemma endswith_cons c x s :
  s ≠ EmptyString → endswith c (String x s) = endswith c s.
Proof. by destruct s. Qed.

Lemma take_while_all (p : ascii → bool) (s : string) :
  all_chars p (take_while p s) = true.
Proof.
  induction s as [|c s IH]; simpl; [done|].
  destruct (p c) eqn:E; simpl; [by rewrite E | done].
Qed.

Lemma take_drop_while (p : ascii → bool) (s : string) :
  take_while p s +:+ drop_while p s = s.
Proof.
  induction s as [|c s IH]; simpl; [done|].
  destruct (p c); str_simpl; [by rewrite IH | done].
Qed.

Lemma drop_while_head (p : ascii → bool) (s : string) :
  match drop_while p s with
  | EmptyString => True
  | String c _ => p c = false
  end.
Proof. induction s as [|c s IH]; simpl; [done|]. destruct (p c) eqn:E; [done | by simpl]. Qed.

End StringFacts.

(** ** The engine against the declarative reading *)
Section EngineFacts.
Context {A : Type}.
Implicit Types (k : mstate → option A) (st : mstate).

Lemma plus_loop_sound cs rest : ∀ pos caps k c,
  plus_loop cs pos rest caps k = Some c →
  ∃ w rest', w ≠ EmptyString ∧ all_chars (cs_mem cs) w = true ∧
             rest = w +:+ rest' ∧ k (MState (pos + len w) rest' caps) = Some c.
Proof.
  induction rest as [|x rest IH]; intros pos caps k c; simpl; [done|].
  destruct (cs_mem cs x) eqn:Hx; [|done].
  destruct (plus_loop cs (S pos) rest caps k) eqn:Hl.
  - intros [= ->]. destruct (IH _ _ _ _ Hl) as (w & rest' & Hw & Hall & -> & Hk).
    exists (String x w), rest'. str_simpl. rewrite Hx, Hall.
    repeat split; [done|]. by replace (pos + S (len w)) with (S pos + len w) by lia.
  - intros Hk. exists (String x EmptyString), rest. str_simpl. rewrite Hx.
    repeat split; [done|]. by replace (pos + 1) with (S pos) by lia.
Qed.

Lemma plus_loop_complete cs w : ∀ rest' pos caps k,
  w ≠ EmptyString → all_chars (cs_mem cs) w = true →
  is_Some (k (MState (pos + len w) rest' caps)) →
  is_Some (plus_loop cs pos (w +:+ rest') caps k).
Proof.
  induction w as [|x w IH]; intros rest' pos caps k Hw Hall Hk; [done|].
  str_simpl. apply andb_true_iff in Hall as [Hx Hall]. rewrite Hx.
  destruct (plus_loop cs (S pos) (w +:+ rest') caps k) eqn:Hl; [done|].
  destruct w as [|y w].
  - str_simpl. by replace (pos + 1) with (S pos) in Hk by lia.
  - assert (is_Some (plus_loop cs (S pos) (String y w +:+ rest') caps k)) as [? Hs].
    { apply IH; [done | done |].
      by replace (S pos + len (String y w)) with (pos + S (len (String y w))) by lia. }
    congruence.
Qed.

(** Greediness: when the run [w] cannot be extended and the continuation
    accepts it whole, the whole run is what [cs+] takes. *)
Lemma plus_loop_greedy cs w : ∀ rest' pos caps k,
  w ≠ EmptyString → all_chars (cs_mem cs) w = true →
  match rest' with EmptyString => True | String c _ => cs_mem cs c = false end →
  is_Some (k (MState (pos + len w) rest' caps)) →
  plus_loop cs pos (w +:+ rest') caps k = k (MState (pos + len w) rest' caps).
Proof.
  induction w as [|x w IH]; intros rest' pos caps k Hw Hall Hstop Hk; [done|].
  str_simpl. apply andb_true_iff in Hall as [Hx Hall]. rewrite Hx.
  destruct w as [|y w].
  - str_simpl. replace (pos + 1) with (S pos) in * by lia.
    destruct rest' as [|c rest']; simpl; [done|]. by rewrite Hstop.
  - replace (pos + S (len (String y w))) with (S pos + len (String y w)) in * by lia.
    rewrite IH by done. by destruct Hk as [? ->].
Qed.

Lemma mtch_sound r : ∀ st k c,
  mtch r st k = Some c → ∃ st', matches r st st' ∧ k st' = Some c.
Proof.
  induction r as [|cs|cs|r1 IH1 r2 IH2|r IH|n r IH| |]; intros st k c; simpl.
  - intros Hk. by exists st.
  - destruct (m_rest st) as [|x rest'] eqn:Hr; [done|].
    destruct (cs_mem cs x) eqn:Hx; [|done]. intros Hk.
    eexists; split; [|exact Hk]. by exists x.
  - intros Hl. apply plus_loop_sound in Hl as (w & rest' & Hw & Hall & Hr & Hk).
    eexists; split; [|exact Hk]. by exists w.
  - intros H. apply IH1 in H as (mid & H1 & H). apply IH2 in H as (st' & H2 & Hk).
    exists st'. split; [by exists mid | done].
  - destruct (mtch r st k) eqn:Hm.
    + intros [= ->]. apply IH in Hm as (st' & Hr & Hk). exists st'. by split; [left|].
    + intros Hk. exists st. by split; [right|].
  - intros H. apply IH in H as (st1 & Hr & Hk).
    eexists; split; [|exact Hk]. by exists st1.
  - destruct (m_pos st =? 0) eqn:Hp; [|done]. intros Hk.
    apply Nat.eqb_eq in Hp. by exists st.
  - destruct (m_rest st) as [|x [|y rest']] eqn:Hr; [| |done].
    + intros Hk. exists st. by repeat split; [left|].
    + destruct (Ascii.eqb x LF) eqn:Hx; [|done]. apply Ascii.eqb_eq in Hx as ->.
      intros Hk. exists st. by repeat split; [right|].
Qed.

Lemma mtch_complete r : ∀ st st' k,
  matches r st st' → is_Some (k st') → is_Some (mtch r st k).
Proof.
  induction r as [|cs|cs|r1 IH1 r2 IH2|r IH|n r IH| |]; intros st st' k; simpl.
  - by intros ->.
  - intros (x & Hr & Hx & Hp & Hc) Hk. rewrite Hr, Hx.
    destruct st' as [p' r' c']; unfold same_caps in *; simpl in *. by subst.
  - intros (w & Hw & Hall & Hr & Hp & Hc) Hk. rewrite Hr.
    apply plus_loop_complete; [done..|].
    destruct st' as [p' r' c']; unfold same_caps in *; simpl in *. by subst.
  - intros (mid & H1 & H2) Hk. eapply IH1; [exact H1|]. by eapply IH2.
  - intros [Hr | ->] Hk.
    + destruct (IH _ _ _ Hr Hk) as [c ->]. done.
    + by destruct (mtch r st k).
  - intros (st1 & Hr & ->) Hk. by eapply IH.
  - intros [-> ->] Hk. done.
  - intros [[-> | ->] ->] Hk; [done|]. by rewrite Ascii.eqb_refl.
Qed.

End EngineFacts.

(** ** Positions and captures along a declarative match *)
Section MatchFacts.
Implicit Types (st : mstate) (r : regex).

Lemma drop_str_step (n : nat) (s w rest : string) :
  drop_str n s = w +:+ rest → n ≤ len s →
  drop_str (n + len w) s = rest ∧ n + len w ≤ len s.
Proof.
  intros Hd Hn. split.
  - by rewrite drop_str_add, Hd, drop_str_app.
  - assert (len (drop_str n s) = len w + len rest) as Hl by (by rewrite Hd, len_app).
    rewrite len_drop_str in Hl. lia.
Qed.

Lemma matches_at_pos s r : ∀ st st',
  matches r st st' → at_pos s st → at_pos s st' ∧ m_pos st ≤ m_pos st'.
Proof.
  unfold at_pos.
  induction r as [|cs|cs|r1 IH1 r2 IH2|r IH|n r IH| |]; intros st st'; simpl.
  - by intros ->.
  - intros (x & Hr & _ & Hp & _) [Hs Hl]. rewrite Hp. rewrite Hs in Hr.
    destruct (drop_str_step (m_pos st) s (String x EmptyString) (m_rest st') Hr Hl)
      as [H1 H2].
    change (len (String x EmptyString)) with 1 in *.
    replace (S (m_pos st)) with (m_pos st + 1) by lia.
    repeat split; [done | done | lia].
  - intros (w & _ & _ & Hr & Hp & _) [Hs Hl]. rewrite Hp. rewrite Hs in Hr.
    destruct (drop_str_step (m_pos st) s w (m_rest st') Hr Hl) as [H1 H2].
    repeat split; [done | done | lia].
  - intros (mid & H1 & H2) Hst. apply IH1 in H1 as [Hmid ?]; [|done].
    apply IH2 in H2 as [? ?]; [|done]. split; [done | lia].
  - intros [Hr | ->] Hst; [by apply IH | done].
  - intros (st1 & Hr & ->) Hst. apply IH in Hr as [? ?]; done.
  - by intros [_ ->].
  - by intros [_ ->].
Qed.

Lemma matches_frame r : ∀ st st' n,
  matches r st st' → n ∉ groups r → m_caps st' !! n = m_caps st !! n.
Proof.
  induction r as [|cs|cs|r1 IH1 r2 IH2|r IH|g r IH| |]; intros st st' n; simpl.
  - by intros ->.
  - by intros (_ & _ & _ & _ & ->).
  - by intros (_ & _ & _ & _ & _ & ->).
  - intros (mid & H1 & H2) Hn. rewrite not_elem_of_app in Hn. destruct Hn.
    rewrite (IH2 mid st') by done. by apply IH1.
  - intros [Hr | ->] Hn; [by apply IH | done].
  - intros (st1 & Hr & ->) Hn. apply not_elem_of_cons in Hn as [Hne Hn].
    simpl. rewrite lookup_insert_ne by done. by apply IH.
  - by intros [_ ->].
  - by intros [_ ->].
Qed.

Lemma matches_RLit lit : ∀ st st',
  matches (RLit lit) st st' → m_rest st = lit +:+ m_rest st'.
Proof.
  induction lit as [|c lit IH]; intros st st'; simpl.
  - by intros ->.
  - intros (mid & (x & Hr & Hx & _) & H2). apply Ascii.eqb_eq in Hx as ->.
    apply IH in H2. rewrite Hr, H2. done.
Qed.

(** A pattern anchored by [^] can only match at the start of the subject. *)
Lemma search_from_bol r s rest : ∀ pos,
  search_from (RSeq RBol r) s (S pos) rest = None.
Proof. induction rest as [|c rest IH]; intros pos; simpl; [done | apply IH]. Qed.

Lemma search_bol r s :
  search (RSeq RBol r) s =
  mtch r (MState 0 s ∅) (λ st, Some (MatchObj s (m_caps st))).
Proof.
  unfold search. destruct s as [|c s]; simpl.
  - by destruct (mtch r _ _).
  - rewrite search_from_bol. by destruct (mtch r _ _).
Qed.

End MatchFacts.

(** ** Traces *)
Section TraceFacts.
Implicit Types t : trace.

Lemma connect_calls_app t1 t2 :
  connect_calls (t1 ++ t2) = connect_calls t1 + connect_calls t2.
Proof. induction t1 as [|[] t1 IH]; simpl; [done | by rewrite IH | done]. Qed.

Lemma connections_app t1 t2 :
  connections (t1 ++ t2) = connections t1 + connections t2.
Proof. induction t1 as [|[? []|] t1 IH]; simpl; [done | by rewrite IH | done | done]. Qed.

Lemma upload_attempts_app t1 t2 :
  upload_attempts (t1 ++ t2) = upload_attempts t1 ++ upload_attempts t2.
Proof. induction t1 as [|[] t1 IH]; simpl; [done | done | by rewrite IH]. Qed.

Lemma uploads_app t1 t2 : uploads (t1 ++ t2) = uploads t1 ++ uploads t2.
Proof.
  induction t1 as [|[|? ? ? []] t1 IH]; simpl; [done | done | by rewrite IH | done].
Qed.

Lemma upload_targets_app t1 t2 :
  upload_targets (t1 ++ t2) = upload_targets t1 ++ upload_targets t2.
Proof.
  induction t1 as [|[|? ? ? []] t1 IH]; simpl; [done | done | by rewrite IH | done].
Qed.

End TraceFacts.
(** ** [parse_url] *)
Ltac not_group := apply (bool_decide_unpack _); by vm_compute.

Section ParseUrl.

Lemma at_pos_st0 url : at_pos url (st0 url).
Proof. split; simpl; [done | lia]. Qed.

(** What a successful [re.search] of [URL_PATTERN] went through. *)
Lemma search_shape url m :
  search URL_PATTERN url = Some m →
  ∃ s1 s2 s3 s4,
    matches SCHEME (st0 url) s1 ∧ matches HOST s1 s2 ∧ matches PORT s2 s3 ∧
    matches PATH s3 s4 ∧
    (m_rest s4 = EmptyString ∨ m_rest s4 = String LF EmptyString) ∧
    m = MatchObj url (m_caps s4).
Proof.
  unfold URL_PATTERN. rewrite search_bol. intros H.
  apply mtch_sound in H as (st' & Hm & [= <-]).
  destruct Hm as (s1 & H1 & s2 & H2 & s3 & H3 & s4 & H4 & Hend & ->).
  by exists s1, s2, s3, s4.
Qed.

(** [parse_url] in terms of the match: the [AttributeError] of a failed
    search, the [ValueError] of [int] on too many digits, or the groups. *)
Lemma parse_url_unfold url :
  parse_url url =
  match search URL_PATTERN url with
  | None => Raise AttributeError
  | Some m =>
      if digits_fit (group m 3) then Ok (parsed_of_match m)
      else Raise (ValueError "Exceeds the limit (4300 digits) for integer string conversion")
  end.
Proof.
  unfold parse_url, parsed_of_match, digits_fit, int_of_str.
  destruct (search URL_PATTERN url) as [m|]; [|done].
  destruct (group m 3) as [d|]; [|done].
  rewrite Nat.leb_antisym. by destruct (INT_MAX_STR_DIGITS <? len d).
Qed.

Lemma parse_url_ok url p :
  parse_url url = Ok p →
  ∃ m, search URL_PATTERN url = Some m ∧ p = parsed_of_match m ∧
       digits_fit (group m 3) = true.
Proof.
  rewrite parse_url_unfold. destruct (search URL_PATTERN url) as [m|]; [|done].
  destruct (digits_fit (group m 3)) eqn:E; [|done]. intros [= <-]. by exists m.
Qed.

Lemma search_caps_4 url s1 s2 s3 :
  matches SCHEME (st0 url) s1 → matches HOST s1 s2 → matches PORT s2 s3 →
  m_caps s3 !! 4 = None.
Proof.
  intros H1 H2 H3.
  rewrite (matches_frame PORT s2 s3), (matches_frame HOST s1 s2),
    (matches_frame SCHEME (st0 url) s1); try done; not_group.
Qed.

(** The path group, when it took part in the match, is a line of the
    subject that starts at [path_offset] and runs to its end, or to the
    line feed that ends it. *)
Lemma parse_url_path url p path :
  parse_url url = Ok p → p_path p = Some path →
  ∃ a tl, p_path_offset p = Z.of_nat a ∧
          drop_str a url = path +:+ tl ∧
          (tl = EmptyString ∨ tl = String LF EmptyString).
Proof.
  intros (m & Hs & -> & _)%parse_url_ok; simpl.
  apply search_shape in Hs as (s1 & s2 & s3 & s4 & H1 & H2 & H3 & H4 & Hend & ->).
  pose proof (search_caps_4 _ _ _ _ H1 H2 H3) as Hnone.
  pose proof (at_pos_st0 url) as Hp0.
  apply (matches_at_pos url) in H1 as [Hp1 _]; [|done].
  apply (matches_at_pos url) in H2 as [Hp2 _]; [|done].
  apply (matches_at_pos url) in H3 as [Hp3 _]; [|done].
  unfold group, start; simpl.
  destruct H4 as [(st1 & (w & Hw & Hall & Hr & Hpos & Hc) & ->) | ->]; simpl in *.
  - rewrite lookup_insert_eq. intros [= <-].
    destruct Hp3 as [Hrest3 Hle3]. rewrite Hrest3 in Hr.
    exists (m_pos s3), (m_rest st1). split; [done|]. split; [|done].
    unfold slice. rewrite Hpos.
    replace (m_pos s3 + len w - m_pos s3) with (len w) by lia.
    by rewrite Hr, take_str_app.
  - by rewrite Hnone.
Qed.

(** The host group, when it took part in the match, is not empty. *)
Lemma parse_url_host url p : parse_url url = Ok p → p_host p ≠ Some EmptyString.
Proof.
  intros (m & Hs & -> & _)%parse_url_ok; simpl.
  apply search_shape in Hs as (s1 & s2 & s3 & s4 & H1 & H2 & H3 & H4 & _ & ->).
  pose proof (at_pos_st0 url) as Hp0.
  destruct (matches_at_pos url _ _ _ H1 Hp0) as [Hp1 _].
  unfold group; simpl.
  rewrite (matches_frame PATH s3 s4), (matches_frame PORT s2 s3) by (done || not_group).
  destruct H2 as [(st1 & (w & Hw & _ & Hr & Hpos & _) & ->) | ->]; simpl.
  - rewrite lookup_insert_eq. intros [= E]. apply Hw. rewrite <- E.
    destruct Hp1 as [Hrest1 _]. rewrite Hrest1 in Hr. unfold slice. rewrite Hpos.
    replace (m_pos s1 + len w - m_pos s1) with (len w) by lia.
    by rewrite Hr, take_str_app.
  - rewrite (matches_frame SCHEME (st0 url) s1) by (done || not_group). done.
Qed.

Lemma slice_from_nat (a : nat) (s : string) : slice_from (Z.of_nat a) s = drop_str a s.
Proof.
  unfold slice_from. destruct (0 <=? Z.of_nat a)%Z eqn:E; [by rewrite Nat2Z.id|].
  apply Z.leb_gt in E. lia.
Qed.

Lemma slice_to_nat (a : nat) (s : string) : slice_to (Z.of_nat a) s = take_str a s.
Proof.
  unfold slice_to. destruct (0 <=? Z.of_nat a)%Z eqn:E; [by rewrite Nat2Z.id|].
  apply Z.leb_gt in E. lia.
Qed.

End ParseUrl.

(** C4, as stated, fails: on ["/a/b\n"] the parser returns the path ["/a/b"]
    at offset 0, and the subject from offset 0 onward is not that path. *)
Lemma C4_path_offset_counterexample :
  ∃ p path,
    parse_url url_trailing_lf = Ok p ∧ p_path p = Some path ∧
    slice_from (p_path_offset p) url_trailing_lf ≠ path.
Proof.
  exists (Parsed None None None (Some "/a/b") 0), "/a/b".
  split; [by vm_compute|]. split; [done|]. by vm_compute.
Qed.

(** C4 (amended): for every location string that does not end in a line
    feed and for which [parse_url] returns a path, the string from
    [path_offset] onward is that path, and the part before [path_offset]
    followed by the path is the original string; the three sample locations
    parse as listed. *)
Theorem C4_path_offset_slices :
  (∀ (url : string) (p : parsed) (path : string),
     parse_url url = Ok p → p_path p = Some path → endswith LF url = false →
     (0 ≤ p_path_offset p)%Z ∧
     slice_from (p_path_offset p) url = path ∧
     slice_to (p_path_offset p) url +:+ path = url) ∧
  parse_url "hdfs://nn:8020/a/b"
    = Ok (Parsed (Some "hdfs://") (Some "nn") (Some 8020%Z) (Some "/a/b") 14) ∧
  parse_url "hdfs:///a/b" = Ok (Parsed (Some "hdfs://") None None (Some "/a/b") 7) ∧
  parse_url "/a/b" = Ok (Parsed None None None (Some "/a/b") 0).
Proof.
  split; [|by vm_compute].
  intros url p path Hp Hpath Hlf.
  destruct (parse_url_path url p path Hp Hpath) as (a & tl & -> & Hd & Htl).
  assert (tl = EmptyString) as ->.
  { destruct Htl as [-> | ->]; [done|]. exfalso.
    rewrite <- (take_drop_str a url), Hd, <- !app_assoc_str, endswith_app in Hlf.
    done. }
  rewrite app_empty_r in Hd.
  rewrite slice_from_nat, slice_to_nat, Hd.
  split; [lia|]. split; [done|]. by rewrite <- Hd at 1; apply take_drop_str.
Qed.

Lemma C4_path_offset_slices_witness :
  (0 ≤ 14)%Z ∧ slice_from 14 "hdfs://nn:8020/a/b" = "/a/b" ∧
  slice_to 14 "hdfs://nn:8020/a/b" +:+ "/a/b" = "hdfs://nn:8020/a/b".
Proof.
  apply (proj1 C4_path_offset_slices "hdfs://nn:8020/a/b"
           (Parsed (Some "hdfs://") (Some "nn") (Some 8020%Z) (Some "/a/b") 14)
           "/a/b").
  - vm_compute. reflexivity.
  - reflexivity.
  - reflexivity.
Defined.
(** ** What the groups of [URL_PATTERN] consume *)
Section GroupTexts.

Lemma at_pos_len s st : at_pos s st → len (m_rest st) = len s - m_pos st.
Proof. intros [-> _]. apply len_drop_str. Qed.

(** The text between two positions of a match is what was consumed. *)
Lemma consumed s st st' text :
  at_pos s st → at_pos s st' → m_rest st = text +:+ m_rest st' →
  m_pos st' = m_pos st + len text ∧ slice (m_pos st) (m_pos st') s = text.
Proof.
  intros Hst Hst' Hr.
  assert (m_pos st' = m_pos st + len text) as Hpos.
  { pose proof (at_pos_len _ _ Hst) as H1. pose proof (at_pos_len _ _ Hst') as H2.
    rewrite Hr, len_app in H1. destruct Hst as [_ ?], Hst' as [_ ?]. lia. }
  split; [done|]. unfold slice. destruct Hst as [Hd _]. rewrite <- Hd, Hr, Hpos.
  replace (m_pos st + len text - m_pos st) with (len text) by lia.
  apply take_str_app.
Qed.

Lemma cs_mem_not_slash_colon (c : ascii) :
  cs_mem NOT_SLASH_COLON c = not_slash_colon c.
Proof. by destruct c as [[] [] [] [] [] [] [] []]. Qed.

Lemma all_chars_ext (p q : ascii → bool) (s : string) :
  (∀ c, p c = q c) → all_chars p s = all_chars q s.
Proof. intros E. induction s as [|c s IH]; simpl; [done | by rewrite E, IH]. Qed.

Lemma cs_mem_dot c : cs_mem CsDot c = not_lf c.
Proof. reflexivity. Qed.

Lemma cs_mem_digit c : cs_mem DIGIT c = is_digit c.
Proof. unfold DIGIT, is_digit. simpl. unfold in_range. simpl. by rewrite orb_false_r. Qed.

Lemma cs_mem_colon c : cs_mem COLON c = Ascii.eqb c ":".
Proof. by destruct c as [[] [] [] [] [] [] [] []]. Qed.

Lemma nonempty_all_intro p w :
  w ≠ EmptyString → all_chars p w = true → nonempty_all p (Some w) = true.
Proof. by destruct w. Qed.

Lemma nonempty_all_inv p w :
  nonempty_all p (Some w) = true → w ≠ EmptyString ∧ all_chars p w = true.
Proof. by destruct w. Qed.

End GroupTexts.
Section PartsOfMatch.

Lemma scheme_part s0 s1 :
  matches SCHEME s0 s1 →
  ∃ o, nonempty_all not_lf o = true ∧
       m_rest s0 = default EmptyString (scheme_prefix o)
                   +:+ m_rest s1 ∧
       m_caps s1 = opt_cap 1 o (m_pos s0) (m_pos s1) (m_caps s0).
Proof.
  intros [(st & (mid & (w & Hw & Hall & Hr & Hp & Hc) & Hlit) & ->) | ->].
  - exists (Some w). split; [by apply nonempty_all_intro|].
    pose proof (matches_RLit _ _ _ Hlit) as Hl. simpl.
    rewrite Hr, Hl, app_assoc_str. split; [done|].
    unfold same_caps in Hc.
    assert (m_caps st = m_caps mid) as ->.
    { apply map_eq. intros n. apply (matches_frame (RLit "://")); [done|].
      apply (bool_decide_unpack _). by vm_compute. }
    by rewrite Hc.
  - exists None. by rewrite app_empty_l.
Qed.

Lemma host_part s0 s1 :
  matches HOST s0 s1 →
  ∃ o, nonempty_all not_slash_colon o = true ∧
       m_rest s0 = default EmptyString o +:+ m_rest s1 ∧
       m_caps s1 = opt_cap 2 o (m_pos s0) (m_pos s1) (m_caps s0).
Proof.
  intros [(st & (w & Hw & Hall & Hr & Hp & Hc) & ->) | ->].
  - exists (Some w). split.
    { apply nonempty_all_intro; [done|].
      by rewrite <- (all_chars_ext _ _ w cs_mem_not_slash_colon). }
    simpl. by rewrite Hc.
  - exists None. by rewrite app_empty_l.
Qed.

Lemma port_part s0 s1 :
  matches PORT s0 s1 →
  ∃ o, nonempty_all is_digit o = true ∧
       m_rest s0 = colon_digits o +:+ m_rest s1 ∧
       m_caps s1 = opt_cap 3 o (S (m_pos s0)) (m_pos s1) (m_caps s0).
Proof.
  intros [(mid & (c & Hr & Hc & Hp & Hcaps) & st & (w & Hw & Hall & Hr' & Hp' & Hc') & ->) | ->].
  - exists (Some w). split.
    { apply nonempty_all_intro; [done|].
      by rewrite <- (all_chars_ext _ _ w cs_mem_digit). }
    rewrite cs_mem_colon in Hc. apply Ascii.eqb_eq in Hc as ->.
    simpl. rewrite Hr, Hr', app_cons. split; [done|].
    by rewrite Hc', Hcaps, Hp.
  - exists None. by rewrite app_empty_l.
Qed.

Lemma path_part s0 s1 :
  matches PATH s0 s1 →
  ∃ o, nonempty_all not_lf o = true ∧
       m_rest s0 = default EmptyString o +:+ m_rest s1 ∧
       m_caps s1 = opt_cap 4 o (m_pos s0) (m_pos s1) (m_caps s0).
Proof.
  intros [(st & (w & Hw & Hall & Hr & Hp & Hc) & ->) | ->].
  - exists (Some w). split; [by apply nonempty_all_intro|].
    simpl. by rewrite Hc.
  - exists None. by rewrite app_empty_l.
Qed.

End PartsOfMatch.
Section ParseSound.

Lemma slice_app (a w b : string) :
  slice (len a) (len a + len w) (a +:+ w +:+ b) = w.
Proof.
  unfold slice. rewrite drop_str_app.
  replace (len a + len w - len a) with (len w) by lia. apply take_str_app.
Qed.

Lemma slice_mid (s a w b : string) (p q : nat) :
  s = a +:+ w +:+ b → p = len a → q = p + len w → slice p q s = w.
Proof. intros -> -> ->. apply slice_app. Qed.

Lemma slice_app_0 (w b : string) : slice 0 (len w) (w +:+ b) = w.
Proof. apply (slice_app EmptyString). Qed.

Lemma lookup_opt_cap_ne n o a b caps k :
  k ≠ n → opt_cap n o a b caps !! k = caps !! k.
Proof. intros. destruct o; simpl; [by rewrite lookup_insert_ne | done]. Qed.

Lemma lookup_opt_cap n o a b caps :
  caps !! n = None →
  opt_cap n o a b caps !! n = match o with Some _ => Some (a, b) | None => None end.
Proof. intros. destruct o; simpl; [by rewrite lookup_insert_eq | done]. Qed.

Lemma lookup_caps4 o1 o2 o3 o4 a1 b1 a2 b2 a3 b3 a4 b4 :
  let caps := opt_cap 4 o4 a4 b4 (opt_cap 3 o3 a3 b3 (opt_cap 2 o2 a2 b2
                (opt_cap 1 o1 a1 b1 ∅))) in
  caps !! 1 = match o1 with Some _ => Some (a1, b1) | None => None end ∧
  caps !! 2 = match o2 with Some _ => Some (a2, b2) | None => None end ∧
  caps !! 3 = match o3 with Some _ => Some (a3, b3) | None => None end ∧
  caps !! 4 = match o4 with Some _ => Some (a4, b4) | None => None end.
Proof.
  simpl. rewrite !lookup_opt_cap_ne by done.
  rewrite (lookup_opt_cap_ne 4 _ _ _ _ 2), (lookup_opt_cap_ne 3 _ _ _ _ 2) by done.
  rewrite (lookup_opt_cap_ne 4 _ _ _ _ 3) by done.
  rewrite !lookup_opt_cap; [done|..]; by rewrite ?lookup_opt_cap_ne.
Qed.

(** Reading the groups off the spans of the parts gives the parts back. *)
Lemma read_groups u :
  parsed_of_match (MatchObj (unparse u) (caps_of u)) = parsed_of u.
Proof.
  destruct u as [o1 o2 o3 o4 tl].
  set (u := UrlParts o1 o2 o3 o4 tl).
  unfold parsed_of_match, parsed_of, group, start, caps_of. cbv zeta.
  cbn [mo_caps mo_string].
  change (up_scheme u) with o1. change (up_host u) with o2.
  change (up_digits u) with o3. change (up_path u) with o4.
  set (pre := default EmptyString (prefix_text u)).
  set (hst := default EmptyString o2).
  set (prt := port_text u).
  set (pth := default EmptyString o4).
  destruct (lookup_caps4 o1 o2 o3 o4 0 (len pre) (len pre) (len pre + len hst)
              (S (len pre + len hst)) (len pre + len hst + len prt)
              (len pre + len hst + len prt)
              (len pre + len hst + len prt + len pth))
    as (-> & -> & -> & ->).
  assert (unparse u = pre +:+ hst +:+ prt +:+ pth +:+ tl) as Hurl.
  { unfold unparse, authority_text. by rewrite !app_assoc_str. }
  assert (len (authority_text u) = len pre + len hst + len prt) as Hauth.
  { unfold authority_text. simpl. fold pre hst prt. rewrite !len_app. lia. }
  f_equal.
  - destruct o1 as [w|]; [|done].
    change (Some (slice 0 (len pre) (unparse u)) = Some pre). f_equal.
    apply (slice_mid _ EmptyString _ (hst +:+ prt +:+ pth +:+ tl));
      [by rewrite app_empty_l | done | done].
  - destruct o2 as [w|]; [|done]. f_equal.
    apply (slice_mid _ pre _ (prt +:+ pth +:+ tl)); done.
  - destruct o3 as [d|]; [|done]. do 2 f_equal.
    apply (slice_mid _ (pre +:+ hst +:+ ":") _ (pth +:+ tl)).
    + rewrite Hurl. unfold prt, port_text; simpl.
      by rewrite !app_assoc_str, !app_cons, app_empty_l.
    + rewrite !len_app. simpl. lia.
    + unfold prt, port_text; simpl. lia.
  - destruct o4 as [w|]; [|done]. f_equal.
    apply (slice_mid _ (pre +:+ hst +:+ prt) _ tl).
    + rewrite Hurl. by rewrite !app_assoc_str.
    + rewrite !len_app. lia.
    + done.
  - destruct o4; [|done]. by rewrite Hauth.
Qed.

(** The digits group on the spans of the parts. *)
Lemma read_digits u :
  group (MatchObj (unparse u) (caps_of u)) 3 = up_digits u.
Proof.
  destruct u as [o1 o2 o3 o4 tl].
  set (u := UrlParts o1 o2 o3 o4 tl).
  unfold group, caps_of. cbv zeta. cbn [mo_caps mo_string].
  change (up_scheme u) with o1. change (up_host u) with o2.
  change (up_digits u) with o3. change (up_path u) with o4.
  set (pre := default EmptyString (prefix_text u)).
  set (hst := default EmptyString o2).
  set (prt := port_text u).
  set (pth := default EmptyString o4).
  destruct (lookup_caps4 o1 o2 o3 o4 0 (len pre) (len pre) (len pre + len hst)
              (S (len pre + len hst)) (len pre + len hst + len prt)
              (len pre + len hst + len prt)
              (len pre + len hst + len prt + len pth))
    as (_ & _ & -> & _).
  destruct o3 as [d|]; [|done]. f_equal.
  apply (slice_mid _ (pre +:+ hst +:+ ":") _ (pth +:+ tl)).
  - unfold unparse, authority_text. fold pre hst prt. unfold prt, port_text; simpl.
    by rewrite !app_assoc_str, !app_cons, app_empty_l.
  - rewrite !len_app. simpl. lia.
  - unfold prt, port_text; simpl. lia.
Qed.

(** Every match of the pattern is the reading of some parts: the subject
    is their concatenation and the groups span them. *)
Lemma search_parts url m :
  search URL_PATTERN url = Some m →
  ∃ u, parts_ok u = true ∧ unparse u = url ∧ m = MatchObj url (caps_of u).
Proof.
  intros Hs.
  apply search_shape in Hs as (s1 & s2 & s3 & s4 & H1 & H2 & H3 & H4 & Hend & ->).
  pose proof (at_pos_st0 url) as Hp0.
  destruct (matches_at_pos url _ _ _ H1 Hp0) as [Hp1 _].
  destruct (matches_at_pos url _ _ _ H2 Hp1) as [Hp2 _].
  destruct (matches_at_pos url _ _ _ H3 Hp2) as [Hp3 _].
  destruct (matches_at_pos url _ _ _ H4 Hp3) as [Hp4 _].
  apply scheme_part in H1 as (o1 & Hok1 & Hr1 & Hc1).
  apply host_part in H2 as (o2 & Hok2 & Hr2 & Hc2).
  apply port_part in H3 as (o3 & Hok3 & Hr3 & Hc3).
  apply path_part in H4 as (o4 & Hok4 & Hr4 & Hc4).
  destruct (consumed url _ _ _ Hp0 Hp1 Hr1) as [Hq1 _].
  destruct (consumed url _ _ _ Hp1 Hp2 Hr2) as [Hq2 _].
  destruct (consumed url _ _ _ Hp2 Hp3 Hr3) as [Hq3 _].
  destruct (consumed url _ _ _ Hp3 Hp4 Hr4) as [Hq4 _].
  set (u := UrlParts o1 o2 o3 o4 (m_rest s4)).
  assert (unparse u = url) as Hu.
  { transitivity (m_rest (st0 url)); [|done]. rewrite Hr1, Hr2, Hr3, Hr4.
    unfold unparse, authority_text, prefix_text, port_text; simpl.
    by rewrite !app_assoc_str. }
  exists u. split; [|split; [done|]].
  { unfold parts_ok; simpl. rewrite Hok1, Hok2, Hok3, Hok4; simpl.
    destruct Hend as [-> | ->]; by vm_compute. }
  f_equal.
  rewrite Hc4, Hc3, Hc2, Hc1. unfold caps_of. simpl in Hq1. simpl.
  change (scheme_prefix o1) with (prefix_text u) in *.
  change (colon_digits o3) with (port_text u) in *.
  by rewrite Hq4, Hq3, Hq2, Hq1.
Qed.

(** What [parse_url] does on a match, in terms of the parts it spans. *)
Lemma parse_url_cut url m :
  search URL_PATTERN url = Some m →
  ∃ u, parts_ok u = true ∧ unparse u = url ∧ parse_url url = parsed_or_error u.
Proof.
  intros Hs. destruct (search_parts url m Hs) as (u & Hu & Hurl & ->).
  exists u. split; [done|]. split; [done|].
  rewrite parse_url_unfold, Hs. unfold parsed_or_error.
  by rewrite <- Hurl, read_digits, read_groups.
Qed.

(** Every successful parse is the reading of some parts: the location is
    their concatenation and the result is what they spell. *)
Lemma parse_url_parts url p :
  parse_url url = Ok p →
  ∃ u, parts_ok u = true ∧ unparse u = url ∧ p = parsed_of u.
Proof.
  intros (m & Hs & -> & _)%parse_url_ok.
  destruct (search_parts url m Hs) as (u & Hu & Hurl & ->).
  exists u. split; [done|]. split; [done|]. by rewrite <- Hurl, read_groups.
Qed.

End ParseSound.
(** ** A location without scheme that does not start with a separator *)
Section RelativePath.

Lemma lf_only_last_split (s : string) :
  lf_only_last s = true →
  drop_while (cs_mem CsDot) s = EmptyString ∨
  drop_while (cs_mem CsDot) s = String LF EmptyString.
Proof.
  induction s as [|c s IH]; simpl; [by left|].
  destruct (Ascii.eqb c LF) eqn:Hc; simpl.
  - apply Ascii.eqb_eq in Hc as ->. destruct s; [by right | done].
  - destruct s as [|d s]; [by left|]. intros H. by apply IH.
Qed.

(** Without ["://"] in the subject, the scheme group cannot match. *)
Lemma scheme_group_fails {A} url (k : mstate → option A) :
  contains "://" url = false →
  mtch (RGroup 1 (RSeq (RPlus CsDot) (RLit "://"))) (st0 url) k = None.
Proof.
  intros Hc. destruct (mtch _ _ _) eqn:E; [|done]. exfalso.
  apply mtch_sound in E as (st' & (st1 & (mid & Hplus & Hlit) & _) & _).
  destruct Hplus as (w & _ & _ & Hr & _). apply matches_RLit in Hlit.
  simpl in Hr. rewrite Hlit in Hr.
  assert (contains "://" url = true) as Ht; [|congruence].
  apply contains_spec. by exists w, (m_rest st1).
Qed.

(** The rest of the pattern accepts what follows the host run when its
    only line feed, if any, is its last character. *)
Lemma tail_matches (pos : nat) (r : string) (caps : gmap nat (nat * nat)) :
  match r with EmptyString => True | String c _ => not_slash_colon c = false end →
  lf_only_last r = true →
  ∃ st', matches (RSeq PORT (RSeq PATH REol)) (MState pos r caps) st'.
Proof.
  intros Hhead Hlf. destruct r as [|c r].
  - exists (MState pos EmptyString caps), (MState pos EmptyString caps).
    split; [by right|]. exists (MState pos EmptyString caps).
    split; [by right|]. split; [by left | done].
  - set (s := String c r) in *.
    set (body := take_while (cs_mem CsDot) s).
    set (tl := drop_while (cs_mem CsDot) s).
    assert (body ≠ EmptyString) as Hbody.
    { unfold body, s; simpl. unfold not_slash_colon in Hhead.
      destruct (Ascii.eqb c LF) eqn:Hc; [|done].
      apply Ascii.eqb_eq in Hc as ->. done. }
    eexists. exists (MState pos s caps). split; [by right|].
    exists (set_cap 4 pos (MState (pos + len body) tl caps)). split.
    + left. eexists. split; [|reflexivity]. exists body.
      repeat split; [done | apply take_while_all |]. simpl.
      symmetry. apply take_drop_while.
    + split; [|reflexivity]. simpl. by apply lf_only_last_split.
Qed.

Lemma take_while_len (p : ascii → bool) (d x : string) :
  all_chars p d = true → len d ≤ len (take_while p (d +:+ x)).
Proof.
  induction d as [|c d IH]; str_simpl; [lia|].
  intros [Hc Hd]%andb_true_iff. rewrite Hc. simpl. specialize (IH Hd). lia.
Qed.

Lemma parse_relative url :
  contains "://" url = false → first_char_ok url = true →
  lf_only_last (after_host_run url) = true →
  len (port_run url) ≤ INT_MAX_STR_DIGITS →
  ∃ p, parse_url url = Ok p ∧ p_prefix p = None ∧
       p_host p = Some (host_run url) ∧ p_path p ≠ Some url.
Proof.
  intros Hc Hfirst Hlf Hport. unfold port_run in Hport.
  assert (host_run url ≠ EmptyString) as Hh.
  { unfold host_run. destruct url as [|c url]; [done|]. simpl in *. by rewrite Hfirst. }
  assert (all_chars (cs_mem NOT_SLASH_COLON) (host_run url) = true) as Hall.
  { rewrite (all_chars_ext _ not_slash_colon) by apply cs_mem_not_slash_colon.
    apply take_while_all. }
  pose proof (drop_while_head not_slash_colon url) as Hstop.
  pose proof (take_drop_while not_slash_colon url) as Hurl.
  fold (host_run url) (after_host_run url) in Hstop, Hurl.
  generalize dependent (host_run url). generalize dependent (after_host_run url).
  intros r Hlf Hport Hstop h Hh Hall Hurl. subst url. clear Hfirst.
  set (url := h +:+ r) in *.
  set (K := λ st : mstate, Some (MatchObj url (m_caps st))).
  set (s2 := set_cap 2 0 (MState (0 + len h) r ∅)).
  destruct (tail_matches (0 + len h) r (m_caps s2) Hstop Hlf) as [st' Hm].
  assert (is_Some (mtch (RSeq PORT (RSeq PATH REol)) s2 K)) as [m Hres].
  { eapply mtch_complete; [exact Hm | done]. }
  assert (search URL_PATTERN url = Some m) as Hsearch.
  { unfold URL_PATTERN. rewrite search_bol. fold (st0 url). fold K.
    change (mtch (RSeq SCHEME ?b) ?st ?k) with
      (match mtch (RGroup 1 (RSeq (RPlus CsDot) (RLit "://"))) st (λ x, mtch b x k) with
       | Some c => Some c
       | None => mtch b st k
       end).
    rewrite scheme_group_fails by done.
    change (mtch (RSeq HOST ?b) ?st ?k) with
      (match plus_loop NOT_SLASH_COLON (m_pos st) (m_rest st) (m_caps st)
               (λ x, mtch b (set_cap 2 (m_pos st) x) k) with
       | Some c => Some c
       | None => mtch b st k
       end).
    simpl m_pos; simpl m_rest; simpl m_caps. unfold url at 1.
    rewrite plus_loop_greedy; fold s2.
    - by rewrite Hres.
    - done.
    - done.
    - destruct r; [done|]. by rewrite cs_mem_not_slash_colon.
    - by rewrite Hres. }
  clear Hm st'.
  destruct (search_parts url m Hsearch) as (u & Hok & Hu & ->).
  apply mtch_sound in Hres as (st' & (s3 & H3 & s4 & H4 & _ & ->) & [= Hcaps]).
  assert (m_caps s4 !! 1 = None ∧ m_caps s4 !! 2 = Some (0, 0 + len h)) as [Hd1 Hd2].
  { rewrite !(matches_frame PATH s3 s4), !(matches_frame PORT s2 s3)
      by (done || not_group). by simpl. }
  rewrite Hcaps in Hd1, Hd2.
  pose proof (read_groups u) as Hgroups. rewrite Hu in Hgroups.
  assert (prefix_text u = None) as Hpre.
  { apply (f_equal p_prefix) in Hgroups. simpl in Hgroups. rewrite <- Hgroups.
    unfold group; simpl. by rewrite Hd1. }
  assert (up_host u = Some h) as Hhost.
  { apply (f_equal p_host) in Hgroups. simpl in Hgroups. rewrite <- Hgroups.
    unfold group; simpl. rewrite Hd2. f_equal.
    unfold slice; simpl. rewrite Nat.sub_0_r. apply take_str_app. }
  assert (r = port_text u +:+ default EmptyString (up_path u) +:+ up_tail u) as Hr.
  { apply (app_inv_head_str h). fold url. rewrite <- Hu.
    unfold unparse, authority_text. rewrite Hpre, Hhost. simpl.
    by rewrite app_empty_l, !app_assoc_str. }
  assert (digits_fit (up_digits u) = true) as Hfit.
  { unfold port_text, colon_digits in Hr. destruct (up_digits u) as [d|] eqn:Hd; [|done].
    rewrite Hr, app_cons in Hport. simpl in Hport. simpl. apply Nat.leb_le.
    etransitivity; [|exact Hport]. apply take_while_len.
    unfold parts_ok in Hok. rewrite !andb_true_iff, Hd in Hok.
    destruct Hok as [[[[_ _] Hdig] _] _]. by apply nonempty_all_inv in Hdig as [_ ?]. }
  exists (parsed_of u). split.
  { rewrite parse_url_unfold, Hsearch, <- Hu, read_digits, Hfit, read_groups. done. }
  simpl. split; [done|]. split; [done|].
  intros Hpath. assert (len url = len (default EmptyString (up_path u))) as Hlen.
  { by rewrite Hpath. }
  unfold url in Hlen at 1. rewrite Hr, !len_app in Hlen.
  assert (0 < len h) by (destruct h; [done | simpl; lia]). rewrite Hpath in Hlen.
  simpl in Hlen. unfold url in Hlen. rewrite Hr, !len_app in Hlen. rewrite Hpath in Hlen.
  simpl in Hlen. lia.
Qed.

End RelativePath.

(** C10, as stated, fails: ["a/b\nc"] contains no ["://"] and starts with
    neither ["/"] nor [":"], yet the pattern does not match it and
    [parse_url] raises instead of assigning a host; and on ["a:"], 4301
    digits and ["/p"], which meets the same two conditions, [parse_url]
    raises the [ValueError] of [int]. *)
Lemma C10_relative_path_counterexample :
  (contains "://" url_inner_lf = false ∧ first_char_ok url_inner_lf = true ∧
   parse_url url_inner_lf = Raise AttributeError) ∧
  (contains "://" url_long_port = false ∧ first_char_ok url_long_port = true ∧
   ∃ msg, parse_url url_long_port = Raise (ValueError msg)).
Proof. split; [by vm_compute|]. split; [by vm_compute|]. split; [by vm_compute|].
  eexists. by vm_compute. Qed.

(** C10 (amended): for every input string that contains no ["://"], whose
    first character is neither ["/"] nor [":"], in which what follows the
    leading run of characters other than ["/"] and [":"] has no line feed
    except possibly as its last character, and in which the digits behind
    a [":"] that follows that run, if any, are at most 4300, [parse_url]
    returns with the prefix absent and that maximal leading run as the
    host, so the path it returns is never the whole input;
    ["user/test/Cerebro"] parses to host ["user"] and path
    ["/test/Cerebro"]. *)
Theorem C10_relative_path_host :
  (∀ url : string,
     contains "://" url = false → first_char_ok url = true →
     lf_only_last (after_host_run url) = true →
     len (port_run url) ≤ INT_MAX_STR_DIGITS →
     ∃ p, parse_url url = Ok p ∧ p_prefix p = None ∧
          p_host p = Some (host_run url) ∧ p_path p ≠ Some url) ∧
  parse_url "user/test/Cerebro"
    = Ok (Parsed None (Some "user") None (Some "/test/Cerebro") 4).
Proof. split; [exact parse_relative | by vm_compute]. Qed.

Lemma C10_relative_path_host_witness :
  ∃ p, parse_url "user/test/Cerebro" = Ok p ∧ p_prefix p = None ∧
       p_host p = Some (host_run "user/test/Cerebro") ∧
       p_path p ≠ Some "user/test/Cerebro".
Proof.
  apply (proj1 C10_relative_path_host "user/test/Cerebro").
  - vm_compute. reflexivity.
  - vm_compute. reflexivity.
  - vm_compute. reflexivity.
  - vm_compute. lia.
Defined.
Section ParseTotal.

(** The path group and [$] accept any text whose only line feed, if any,
    is its last character. *)
Lemma line_matches (pos : nat) (r : string) (caps : gmap nat (nat * nat)) :
  lf_only_last r = true →
  ∃ st', matches (RSeq PATH REol) (MState pos r caps) st'.
Proof.
  intros Hlf.
  set (body := take_while (cs_mem CsDot) r).
  set (tl := drop_while (cs_mem CsDot) r).
  pose proof (lf_only_last_split r Hlf) as Htl. fold tl in Htl.
  pose proof (take_drop_while (cs_mem CsDot) r) as Hr. fold body tl in Hr.
  destruct body as [|c body'] eqn:Hb.
  - rewrite app_empty_l in Hr.
    exists (MState pos r caps), (MState pos r caps). split; [by right|].
    split; [|done]. simpl. by rewrite <- Hr.
  - rewrite <- Hb in Hr.
    eexists. exists (set_cap 4 pos (MState (pos + len body) tl caps)). split.
    + left. eexists. split; [|reflexivity]. exists body.
      repeat split; [by rewrite Hb | apply take_while_all | by simpl].
    + split; [|reflexivity]. done.
Qed.

Lemma single_line_search url :
  lf_only_last url = true → is_Some (search URL_PATTERN url).
Proof.
  intros Hlf. unfold URL_PATTERN. rewrite search_bol.
  destruct (line_matches 0 url ∅ Hlf) as [st' Hm].
  eapply (mtch_complete _ _ st'); [|done].
  exists (st0 url). split; [by right|].
  exists (st0 url). split; [by right|].
  exists (st0 url). split; [by right | done].
Qed.

End ParseTotal.

(** X2 ([parse_url]): on a location with no line feed, or with a single one
    as its last character, the [AttributeError] of a failed [re.search]
    cannot occur: [parse_url] returns the reading of a cut of the location
    into its parts, unless the digits of the port are more than 4300, when
    it raises the [ValueError] of [int]; it returns on every such location
    of at most 4300 characters. *)
Theorem X2_parse_url_single_line (url : string) :
  lf_only_last url = true →
  parse_url url ≠ Raise AttributeError ∧
  (∃ u, parts_ok u = true ∧ unparse u = url ∧ parse_url url = parsed_or_error u) ∧
  (len url ≤ INT_MAX_STR_DIGITS → ∃ p, parse_url url = Ok p).
Proof.
  intros Hlf. destruct (single_line_search url Hlf) as [m Hm].
  destruct (parse_url_cut url m Hm) as (u & Hok & Hu & Hp).
  split; [|split].
  - rewrite Hp. unfold parsed_or_error. by destruct (digits_fit _).
  - by exists u.
  - intros Hlen. rewrite Hp. unfold parsed_or_error.
    assert (digits_fit (up_digits u) = true) as ->; [|by eexists].
    destruct (up_digits u) as [d|] eqn:Hd; [|done]. simpl. apply Nat.leb_le.
    etransitivity; [|exact Hlen]. rewrite <- Hu.
    unfold unparse, authority_text, port_text. rewrite Hd. simpl.
    rewrite !len_app. simpl. lia.
Qed.

Lemma X2_parse_url_single_line_witness :
  parse_url "hdfs://namenode01:8020/user/test/output" ≠ Raise AttributeError ∧
  (∃ u, parts_ok u = true ∧ unparse u = "hdfs://namenode01:8020/user/test/output" ∧
        parse_url "hdfs://namenode01:8020/user/test/output" = parsed_or_error u) ∧
  (len "hdfs://namenode01:8020/user/test/output" ≤ INT_MAX_STR_DIGITS →
   ∃ p, parse_url "hdfs://namenode01:8020/user/test/output" = Ok p).
Proof. apply X2_parse_url_single_line. reflexivity. Defined.
(** ** The engine on a location spelt from canonical parts *)
Section EngineSteps.
Context {A : Type}.
Implicit Types (k : mstate → option A).

(** [cs+] fails when the continuation rejects every run it can take. *)
Lemma plus_loop_none cs rest pos caps k :
  (∀ x y, x ≠ EmptyString → rest = x +:+ y →
          k (MState (pos + len x) y caps) = None) →
  plus_loop cs pos rest caps k = None.
Proof.
  intros Hk. destruct (plus_loop cs pos rest caps k) eqn:E; [|done].
  apply plus_loop_sound in E as (w & rest' & Hw & _ & Hr & Hs).
  by rewrite (Hk w rest' Hw Hr) in Hs.
Qed.

(** When no longer run is accepted and the run [w] is, [cs+] takes [w]. *)
Lemma plus_loop_longest cs w : ∀ rest' pos caps k c,
  w ≠ EmptyString → all_chars (cs_mem cs) w = true →
  plus_loop cs (pos + len w) rest' caps k = None →
  k (MState (pos + len w) rest' caps) = Some c →
  plus_loop cs pos (w +:+ rest') caps k = Some c.
Proof.
  induction w as [|x w IH]; intros rest' pos caps k c Hw Hall Hnone Hk; [done|].
  str_simpl. apply andb_true_iff in Hall as [Hx Hall]. rewrite Hx.
  destruct w as [|y w].
  - str_simpl. replace (pos + 1) with (S pos) in * by lia. by rewrite Hnone.
  - replace (pos + S (len (String y w))) with (S pos + len (String y w)) in * by lia.
    by rewrite (IH rest' (S pos) caps k c).
Qed.

Lemma mtch_RLit lit : ∀ rest pos caps k,
  mtch (RLit lit) (MState pos (lit +:+ rest) caps) k =
  k (MState (pos + len lit) rest caps).
Proof.
  induction lit as [|x lit IH]; intros rest pos caps k; str_simpl.
  - by replace (pos + 0) with pos by lia.
  - rewrite Ascii.eqb_refl, IH. by replace (S pos + len lit) with (pos + S (len lit)) by lia.
Qed.

Lemma mtch_RLit_inv lit st k c :
  mtch (RLit lit) st k = Some c → ∃ y, m_rest st = lit +:+ y.
Proof.
  intros H. apply mtch_sound in H as (st' & Hm & _).
  apply matches_RLit in Hm. by eexists.
Qed.

End EngineSteps.

Section CanonicalSteps.
Context {A : Type}.
Implicit Types (k : mstate → option A).

(** ["://"] found after a nonempty run in ["://" ++ R] lies inside [R]. *)
Lemma separator_again (x y R : string) :
  x ≠ EmptyString → "://" +:+ R = x +:+ ("://" +:+ y) →
  contains "://" R = true.
Proof.
  intros Hx H. destruct x as [|a [|b [|c x]]]; [done|..]; str_simpl.
  - by injection H.
  - by injection H.
  - injection H as _ _ _ ->. apply contains_spec. by exists x, y.
Qed.

Lemma scheme_step (o : option string) (R : string) pos caps k c :
  nonempty_all not_lf o = true → contains "://" R = false →
  k (MState (pos + len (default EmptyString (scheme_prefix o))) R
       (opt_cap 1 o pos (pos + len (default EmptyString (scheme_prefix o))) caps))
    = Some c →
  mtch SCHEME (MState pos (default EmptyString (scheme_prefix o) +:+ R) caps) k
    = Some c.
Proof.
  intros Hok HR Hk. unfold SCHEME.
  change (mtch (ROpt (RGroup 1 (RSeq (RPlus CsDot) (RLit "://")))) ?st k) with
    (match plus_loop CsDot (m_pos st) (m_rest st) (m_caps st)
             (λ x, mtch (RLit "://") x (λ y, k (set_cap 1 (m_pos st) y))) with
     | Some c => Some c
     | None => k st
     end).
  cbn [m_pos m_rest m_caps].
  destruct o as [w|]; cbn [default scheme_prefix opt_cap] in *.
  - apply nonempty_all_inv in Hok as [Hw Hall].
    unfold id in *. rewrite app_assoc_str. rewrite len_app in Hk. simpl in Hk.
    rewrite (plus_loop_longest CsDot w _ pos caps _ c); try done.
    + apply plus_loop_none. intros x y Hx Hxy.
      match goal with |- ?t = None => destruct t eqn:E end; [|done]. exfalso.
      apply mtch_RLit_inv in E as [z Hz]. simpl in Hz. subst y.
      by rewrite (separator_again x z R) in HR.
    + rewrite mtch_RLit. unfold set_cap; simpl.
      by replace (pos + len w + 3) with (pos + (len w + 3)) by lia.
  - rewrite app_empty_l. simpl in Hk. replace (pos + 0) with pos in Hk by lia.
    rewrite plus_loop_none; [done|]. intros x y Hx ->.
    match goal with |- ?t = None => destruct t eqn:E end; [|done]. exfalso.
    apply mtch_RLit_inv in E as [z Hz]. simpl in Hz. subst y.
    assert (contains "://" (x +:+ "://" +:+ z) = true) as Ht; [|congruence].
    apply contains_spec. by exists x, z.
Qed.

Lemma host_step (o : option string) (R : string) pos caps k c :
  nonempty_all not_slash_colon o = true →
  match R with EmptyString => True | String x _ => not_slash_colon x = false end →
  k (MState (pos + len (default EmptyString o)) R
       (opt_cap 2 o pos (pos + len (default EmptyString o)) caps)) = Some c →
  mtch HOST (MState pos (default EmptyString o +:+ R) caps) k = Some c.
Proof.
  intros Hok HR Hk. unfold HOST.
  change (mtch (ROpt (RGroup 2 (RPlus NOT_SLASH_COLON))) ?st k) with
    (match plus_loop NOT_SLASH_COLON (m_pos st) (m_rest st) (m_caps st)
             (λ x, k (set_cap 2 (m_pos st) x)) with
     | Some c => Some c
     | None => k st
     end).
  cbn [m_pos m_rest m_caps].
  destruct o as [h|]; cbn [default from_option opt_cap] in *; unfold id in *.
  - apply nonempty_all_inv in Hok as [Hh Hall].
    rewrite plus_loop_greedy; unfold set_cap; cbn [m_pos m_rest m_caps];
      rewrite ?Hk; try done.
    + by rewrite (all_chars_ext _ _ h cs_mem_not_slash_colon).
    + destruct R; [done|]. by rewrite cs_mem_not_slash_colon.
  - rewrite app_empty_l. cbn [len] in Hk. replace (pos + 0) with pos in Hk by lia.
    destruct R as [|x R]; cbn [plus_loop]; [done|].
    by rewrite cs_mem_not_slash_colon, HR.
Qed.

Lemma port_step (o : option string) (R : string) pos caps k c :
  nonempty_all is_digit o = true →
  match R with EmptyString => True | String x _ => x = SEP end →
  k (MState (pos + len (colon_digits o)) R
       (opt_cap 3 o (S pos) (pos + len (colon_digits o)) caps)) = Some c →
  mtch PORT (MState pos (colon_digits o +:+ R) caps) k = Some c.
Proof.
  intros Hok HR Hk. unfold PORT.
  change (mtch (ROpt (RSeq (RChar COLON) (RGroup 3 (RPlus DIGIT)))) ?st k) with
    (match
       match m_rest st with
       | String x rest' =>
           if cs_mem COLON x
           then plus_loop DIGIT (S (m_pos st)) rest' (m_caps st)
                  (λ y, k (set_cap 3 (S (m_pos st)) y))
           else None
       | EmptyString => None
       end
     with
     | Some c => Some c
     | None => k st
     end).
  cbn [m_pos m_rest m_caps].
  destruct o as [d|]; cbn [colon_digits opt_cap] in *.
  - apply nonempty_all_inv in Hok as [Hd Hall].
    rewrite app_cons, cs_mem_colon, Ascii.eqb_refl.
    cbn [len] in Hk. replace (pos + S (len d)) with (S pos + len d) in Hk by lia.
    rewrite plus_loop_greedy; unfold set_cap; cbn [m_pos m_rest m_caps];
      rewrite ?Hk; try done.
    + by rewrite (all_chars_ext _ _ d cs_mem_digit).
    + destruct R; [done|]. subst. by rewrite cs_mem_digit.
  - rewrite app_empty_l. cbn [len] in Hk. replace (pos + 0) with pos in Hk by lia.
    destruct R as [|x R]; [done|]. subst. by rewrite cs_mem_colon.
Qed.

Lemma path_step (o : option string) pos caps k c :
  nonempty_all not_lf o = true →
  k (MState (pos + len (default EmptyString o)) EmptyString
       (opt_cap 4 o pos (pos + len (default EmptyString o)) caps)) = Some c →
  mtch (RSeq PATH REol) (MState pos (default EmptyString o) caps) k = Some c.
Proof.
  intros Hok Hk. unfold PATH.
  change (mtch (RSeq (ROpt (RGroup 4 (RPlus CsDot))) REol) ?st k) with
    (match plus_loop CsDot (m_pos st) (m_rest st) (m_caps st)
             (λ x, mtch REol (set_cap 4 (m_pos st) x) k) with
     | Some c => Some c
     | None => mtch REol st k
     end).
  cbn [m_pos m_rest m_caps].
  destruct o as [p|]; cbn [default from_option opt_cap] in *; unfold id in *.
  - apply nonempty_all_inv in Hok as [Hp Hall].
    rewrite <- (app_empty_r p) at 1.
    rewrite plus_loop_greedy; unfold set_cap; cbn [m_pos m_rest m_caps mtch];
      rewrite ?Hk; done.
  - cbn [len] in Hk. by replace (pos + 0) with pos in Hk by lia.
Qed.

End CanonicalSteps.
Section CanonicalParse.

Lemma canonical_inv u :
  canonical u = true →
  nonempty_all not_lf (up_scheme u) = true ∧
  nonempty_all not_slash_colon (up_host u) = true ∧
  nonempty_all is_digit (up_digits u) = true ∧
  nonempty_all not_lf (up_path u) = true ∧
  match up_path u with Some p => startswith SEP p = true | None => True end ∧
  up_tail u = EmptyString ∧
  contains "://" (default EmptyString (up_host u) +:+ port_text u
                  +:+ default EmptyString (up_path u)) = false.
Proof.
  unfold canonical, parts_ok. rewrite !andb_true_iff, negb_true_iff.
  intros [[[[[[[H1 H2] H3] H4] _] H5] H6] H7].
  apply bool_decide_eq_true in H6.
  repeat split; try done. by destruct (up_path u).
Qed.

Lemma search_canonical u :
  canonical u = true →
  search URL_PATTERN (unparse u) = Some (MatchObj (unparse u) (caps_of u)).
Proof.
  intros (H1 & H2 & H3 & H4 & H5 & H6 & H7)%canonical_inv.
  unfold URL_PATTERN. rewrite search_bol.
  set (K := λ st : mstate, Some (MatchObj (unparse u) (m_caps st))).
  change (mtch (RSeq SCHEME (RSeq HOST (RSeq PORT (RSeq PATH REol)))) ?st K) with
    (mtch SCHEME st (λ s1, mtch HOST s1 (λ s2, mtch PORT s2 (λ s3,
       mtch (RSeq PATH REol) s3 K)))).
  destruct u as [o1 o2 o3 o4 tl]. simpl in H1, H2, H3, H4, H5, H6. subst tl.
  unfold port_text in H7. simpl in H7.
  assert (unparse (UrlParts o1 o2 o3 o4 EmptyString) =
          default EmptyString (scheme_prefix o1) +:+
          (default EmptyString o2 +:+ (colon_digits o3 +:+ default EmptyString o4)))
    as Hurl.
  { unfold unparse, authority_text, prefix_text, port_text; simpl.
    by rewrite !app_assoc_str, app_empty_r. }
  rewrite Hurl at 1.
  apply scheme_step; [done | done |].
  apply host_step; [done | |].
  { destruct o3; simpl; [done|]. rewrite app_empty_l.
    destruct o4 as [[|x p]|]; simpl in *; [done | | done].
    apply Ascii.eqb_eq in H5 as ->. done. }
  apply port_step; [done | |].
  { destruct o4 as [[|x p]|]; simpl in *; [done | | done].
    by apply Ascii.eqb_eq in H5 as ->. }
  apply path_step; [done|]. reflexivity.
Qed.

Lemma matches_RLit_intro lit : ∀ pos rest caps,
  matches (RLit lit) (MState pos (lit +:+ rest) caps)
          (MState (pos + len lit) rest caps).
Proof.
  induction lit as [|c lit IH]; intros pos rest caps; simpl.
  - by replace (pos + 0) with pos by lia.
  - exists (MState (S pos) (lit +:+ rest) caps). split.
    + exists c. repeat split; try done. simpl. by rewrite Ascii.eqb_refl.
    + replace (pos + S (len lit)) with (S pos + len lit) by lia. apply IH.
Qed.

(** Parts that are what the groups can consume spell a location the
    pattern accepts. *)
Lemma parts_search u : parts_ok u = true → is_Some (search URL_PATTERN (unparse u)).
Proof.
  unfold parts_ok. rewrite !andb_true_iff, orb_true_iff, !bool_decide_eq_true.
  intros [[[[H1 H2] H3] H4] Htl].
  destruct u as [o1 o2 o3 o4 tl]. simpl in *.
  unfold URL_PATTERN. rewrite search_bol.
  set (url := unparse _).
  assert (url = default EmptyString (scheme_prefix o1) +:+
          (default EmptyString o2 +:+ (colon_digits o3 +:+
             (default EmptyString o4 +:+ tl)))) as Hurl.
  { unfold url, unparse, authority_text, prefix_text, port_text; simpl.
    by rewrite !app_assoc_str. }
  set (r1 := default EmptyString o2 +:+ (colon_digits o3 +:+
               (default EmptyString o4 +:+ tl))) in *.
  set (r2 := colon_digits o3 +:+ (default EmptyString o4 +:+ tl)) in *.
  set (r3 := default EmptyString o4 +:+ tl) in *.
  assert (∃ s1, matches SCHEME (MState 0 url ∅) s1 ∧ m_rest s1 = r1) as (s1 & M1 & R1).
  { destruct o1 as [w|]; simpl in Hurl.
    - apply nonempty_all_inv in H1 as [Hw Hall].
      eexists (set_cap 1 0 (MState (0 + len w + 3) r1 ∅)). split; [|done].
      left. eexists. split; [|reflexivity].
      exists (MState (0 + len w) ("://" +:+ r1) ∅). split.
      + exists w. repeat split; try done. simpl. by rewrite Hurl, app_assoc_str.
      + replace (0 + len w + 3) with (0 + len w + len "://") by done.
        apply matches_RLit_intro.
    - exists (MState 0 url ∅). split; [by right|]. simpl. by rewrite Hurl, app_empty_l. }
  assert (∃ s2, matches HOST s1 s2 ∧ m_rest s2 = r2) as (s2 & M2 & R2).
  { destruct o2 as [h|].
    - apply nonempty_all_inv in H2 as [Hh Hall].
      eexists (set_cap 2 (m_pos s1) (MState (m_pos s1 + len h) r2 (m_caps s1))).
      split; [|done]. left. eexists. split; [|reflexivity].
      exists h. repeat split; try done.
      by rewrite (all_chars_ext _ _ h cs_mem_not_slash_colon).
    - exists s1. split; [by right|]. rewrite R1. unfold r1. simpl.
      by rewrite app_empty_l. }
  assert (∃ s3, matches PORT s2 s3 ∧ m_rest s3 = r3) as (s3 & M3 & R3).
  { destruct o3 as [d|].
    - apply nonempty_all_inv in H3 as [Hd Hall].
      eexists (set_cap 3 (S (m_pos s2)) (MState (S (m_pos s2) + len d) r3 (m_caps s2))).
      split; [|done]. left.
      exists (MState (S (m_pos s2)) (d +:+ r3) (m_caps s2)). split.
      + exists ":"%char. repeat split; try done.
      + eexists. split; [|reflexivity]. exists d. repeat split; try done.
        by rewrite (all_chars_ext _ _ d cs_mem_digit).
    - exists s2. split; [by right|]. rewrite R2. unfold r2. simpl.
      by rewrite app_empty_l. }
  assert (∃ s4, matches PATH s3 s4 ∧ m_rest s4 = tl) as (s4 & M4 & R4).
  { destruct o4 as [p|].
    - apply nonempty_all_inv in H4 as [Hp Hall].
      eexists (set_cap 4 (m_pos s3) (MState (m_pos s3 + len p) tl (m_caps s3))).
      split; [|done]. left. eexists. split; [|reflexivity].
      exists p. repeat split; done.
    - exists s3. split; [by right|]. rewrite R3. unfold r3. simpl.
      by rewrite app_empty_l. }
  apply (mtch_complete _ _ s4); [|done].
  exists s1. split; [done|]. exists s2. split; [done|].
  exists s3. split; [done|]. exists s4. split; [done|].
  split; [|done]. rewrite R4. done.
Qed.

Lemma parse_unparse u :
  canonical u = true → parse_url (unparse u) = parsed_or_error u.
Proof.
  intros Hu. rewrite parse_url_unfold, (search_canonical u Hu).
  by rewrite read_digits, read_groups.
Qed.

End CanonicalParse.

(** X1 ([parse_url]): whenever [parse_url] returns, the location is the
    concatenation of a prefix ending in ["://"], a host, [":"] and digits,
    a path, and possibly a final line feed, each of them optional; the
    returned prefix, host and path are these parts, the port is the value
    of the digits and [path_offset] is the length of what precedes the
    path, or [-1] without a path. *)
Theorem X1_parse_url_parts (url : string) (p : parsed) :
  parse_url url = Ok p →
  ∃ u, parts_ok u = true ∧ unparse u = url ∧ p = parsed_of u.
Proof. apply parse_url_parts. Qed.

Lemma X1_parse_url_parts_witness :
  ∃ u, parts_ok u = true ∧ unparse u = "hdfs://namenode01:8020/user/test" ∧
       Parsed (Some "hdfs://") (Some "namenode01") (Some 8020%Z)
              (Some "/user/test") 22 = parsed_of u.
Proof. apply X1_parse_url_parts. reflexivity. Defined.

(** X3 ([parse_url]): a location written as a scheme and ["://"], a host
    without ["/"] and [":"], [":"] and digits, and a path on one line that
    starts with ["/"], each of them optional, with no further ["://"], is
    parsed back into exactly these parts when the digits are at most 4300;
    when they are more, [parse_url] raises the [ValueError] of [int]. *)
Theorem X3_parse_unparse (u : url_parts) :
  canonical u = true →
  parse_url (unparse u) =
  if digits_fit (up_digits u) then Ok (parsed_of u)
  else Raise (ValueError "Exceeds the limit (4300 digits) for integer string conversion").
Proof. apply parse_unparse. Qed.

Lemma X3_parse_unparse_witness :
  parse_url "hdfs://namenode01:8020/user/test/output" =
  Ok (Parsed (Some "hdfs://") (Some "namenode01") (Some 8020%Z)
             (Some "/user/test/output") 22).
Proof.
  apply (X3_parse_unparse
           (UrlParts (Some "hdfs") (Some "namenode01") (Some "8020")
                     (Some "/user/test/output") EmptyString)).
  reflexivity.
Defined.

(** X4 ([parse_url]): [parse_url] raises [AttributeError] exactly on the
    strings that cannot be cut into a prefix ending in ["://"] after a
    line of text, a host without ["/"] and [":"], [":"] and digits, a line
    of text as path, and a final line feed, each of them optional; on
    every string that can, it returns the reading of such a cut, or raises
    the [ValueError] of [int] when the digits of that cut are more than
    4300. *)
Theorem X4_parse_url_domain (url : string) :
  (parse_url url = Raise AttributeError ↔
   ¬ ∃ u, parts_ok u = true ∧ unparse u = url) ∧
  ((∃ u, parts_ok u = true ∧ unparse u = url) →
   ∃ u, parts_ok u = true ∧ unparse u = url ∧ parse_url url = parsed_or_error u).
Proof.
  assert ((∃ u, parts_ok u = true ∧ unparse u = url) →
          ∃ u, parts_ok u = true ∧ unparse u = url ∧
               parse_url url = parsed_or_error u) as Hcut.
  { intros (u & Hu & <-). destruct (parts_search u Hu) as [m Hm].
    by apply (parse_url_cut _ m). }
  split; [|done]. split.
  - intros Hp (u & Hu & Hurl)%Hcut. destruct Hurl as (_ & Hq). rewrite Hq in Hp.
    unfold parsed_or_error in Hp. by destruct (digits_fit _).
  - intros Hno. rewrite parse_url_unfold.
    destruct (search URL_PATTERN url) as [m|] eqn:Hs; [|done].
    exfalso. apply Hno. destruct (search_parts url m Hs) as (u & ? & ? & _).
    by exists u.
Qed.

Lemma X4_parse_url_domain_witness :
  ¬ ∃ u, parts_ok u = true ∧ unparse u = url_inner_lf.
Proof. apply (proj1 (X4_parse_url_domain url_inner_lf)). reflexivity. Defined.
(** ** Validation of the location *)

(** C5: [_check_url] fails, with a [ValueError], exactly when a prefix is
    present and differs from the canonical prefix ["hdfs://"], or no
    non-empty path was extracted; store construction then fails with that
    error before it connects; ["s3://bucket/key"] is rejected, a non-empty
    path with the ["hdfs://"] prefix or without prefix passes. *)
Theorem C5_check_url_rejects :
  FS_PREFIX = "hdfs://" ∧
  (∀ url prefix path,
     is_ok (_check_url url prefix path) = false ↔
     (∃ p, prefix = Some p ∧ p ≠ FS_PREFIX) ∨ path = None ∨ path = Some EmptyString) ∧
  (∀ url prefix path e,
     _check_url url prefix path = Raise e → ∃ msg, e = ValueError msg) ∧
  (∀ B url host port user kerb_ticket extra_conf temp_dir t p e,
     parse_url url = Ok p → _check_url url (p_prefix p) (p_path p) = Raise e →
     __init__ B url host port user kerb_ticket extra_conf temp_dir t = (Raise e, t)) ∧
  (∃ p msg, parse_url "s3://bucket/key" = Ok p ∧ p_prefix p = Some "s3://" ∧
            _check_url "s3://bucket/key" (p_prefix p) (p_path p)
            = Raise (ValueError msg)) ∧
  (∀ url path, path ≠ EmptyString →
     _check_url url (Some FS_PREFIX) (Some path) = Ok tt ∧
     _check_url url None (Some path) = Ok tt).
Proof.
  split; [done|]. split; [|split; [|split; [|split]]].
  - intros url prefix path. unfold _check_url.
    destruct prefix as [p|]; [destruct (decide (p = FS_PREFIX)) as [->|Hne]|].
    + rewrite bool_decide_eq_false_2 by (by intros H; apply H).
      destruct path as [[|c s]|]; simpl; split; intros H; try done;
        try (by right; eauto);
        destruct H as [(q & [= <-] & Hq) | [H | H]]; done.
    + rewrite bool_decide_eq_true_2 by done. simpl. split; [|done].
      intros _. left. by exists p.
    + destruct path as [[|c s]|]; simpl; split; intros H; try done;
        try (by right; eauto);
        destruct H as [(q & [= ] & Hq) | [H | H]]; done.
  - intros url prefix path e. unfold _check_url.
    repeat case_match; intros [= <-]; eauto.
  - intros B url host port user kerb extra temp t p e Hp Hc.
    unfold __init__, mbind, lift_result. by rewrite Hp, Hc.
  - eexists _, _. split; [by vm_compute|]. split; [done|]. by vm_compute.
  - by intros url [|c s] Hne.
Qed.

Lemma C5_check_url_rejects_witness :
  _check_url "hdfs://nn:8020/a/b" (Some FS_PREFIX) (Some "/a/b") = Ok tt ∧
  _check_url "/a/b" None (Some "/a/b") = Ok tt.
Proof.
  destruct C5_check_url_rejects as (_ & _ & _ & _ & _ & Hpass). split.
  - apply (Hpass "hdfs://nn:8020/a/b" "/a/b"). discriminate.
  - apply (Hpass "/a/b" "/a/b"). discriminate.
Defined.

(** ** Construction of the store *)
Section Construction.
Variable B : backend.

Lemma effective_host_amended host url_host :
  url_host ≠ Some EmptyString →
  effective_host host url_host = amended_host host url_host.
Proof. by destruct host as [[|]|], url_host as [[|]|]. Qed.

Lemma effective_port_amended port url_port :
  effective_port port url_port = amended_port port url_port.
Proof.
  unfold effective_port, amended_port, or_int, or_int_lit, truthy_int.
  destruct port as [[| |]|], url_port as [[| |]|]; done.
Qed.

(** The steps of [__init__] when it returns. *)
Lemma init_ok prefix_path host port user kerb_ticket extra_conf temp_dir t st t' :
  __init__ B prefix_path host port user kerb_ticket extra_conf temp_dir t = (Ok st, t') →
  ∃ p, parse_url prefix_path = Ok p ∧
       _check_url prefix_path (p_prefix p) (p_path p) = Ok tt ∧
       _hdfs_kwargs st = HdfsKwargs (effective_host host (p_host p))
                                    (effective_port port (p_port p))
                                    user kerb_ticket extra_conf ∧
       connect_ok B t (_hdfs_kwargs st) = true ∧
       _hdfs st = length t ∧
       _temp_dir st = temp_dir ∧
       t' = t ++ [EConnect (_hdfs_kwargs st) (Some (_hdfs st))].
Proof.
  unfold __init__, mbind, lift_result, _get_filesystem_fn, pa_hdfs_connect, mret.
  destruct (parse_url prefix_path) as [p|] eqn:Hp; [|done].
  destruct (_check_url prefix_path (p_prefix p) (p_path p)) as [[]|] eqn:Hc; [|done].
  destruct (connect_ok B t _) eqn:Hok; [|done].
  intros [= <- <-]. exists p. by repeat split.
Qed.

End Construction.

(** C6, as stated, fails: built from ["hdfs://nn:8020/a/b"] with the explicit
    argument [port=0], the store connects to port 8020 and not to the
    port that was supplied. *)
Lemma C6_explicit_port_counterexample :
  ∃ st t p,
    __init__ backend_up "hdfs://nn:8020/a/b" None (Some 0%Z) None None None None []
      = (Ok st, t) ∧
    parse_url "hdfs://nn:8020/a/b" = Ok p ∧
    kw_port (_hdfs_kwargs st) = 8020%Z ∧
    kw_port (_hdfs_kwargs st) ≠ claimed_port (Some 0%Z) (p_port p).
Proof.
  eexists _, _, _. split; [by vm_compute|]. split; [by vm_compute|]. by vm_compute.
Qed.

(** C6 (amended): for every construction that returns, the effective host is
    the explicit [host] argument when it is supplied and not empty,
    otherwise the host parsed from the URL, otherwise ["default"]; the
    effective port is the explicit [port] argument when it is supplied and
    not [0], otherwise the port parsed from the URL, otherwise [0]. For such
    arguments this is the precedence of the explicit argument. *)
Theorem C6_effective_host_port
    (B : backend) (prefix_path : string) (host : option string) (port : option Z)
    (user kerb_ticket : option string) (extra_conf : option (list (string * string)))
    (temp_dir : option string) (t t' : trace) (st : HDFSStore) :
  __init__ B prefix_path host port user kerb_ticket extra_conf temp_dir t = (Ok st, t') →
  ∃ p, parse_url prefix_path = Ok p ∧
       kw_host (_hdfs_kwargs st) = amended_host host (p_host p) ∧
       kw_port (_hdfs_kwargs st) = amended_port port (p_port p) ∧
       (host ≠ Some EmptyString →
        kw_host (_hdfs_kwargs st) = claimed_host host (p_host p)) ∧
       (port ≠ Some 0%Z →
        kw_port (_hdfs_kwargs st) = claimed_port port (p_port p)).
Proof.
  intros Hinit. apply init_ok in Hinit as (p & Hp & _ & Hkw & _).
  pose proof (parse_url_host _ _ Hp) as Hhost.
  exists p. rewrite Hkw; simpl.
  rewrite effective_host_amended, effective_port_amended by done.
  repeat split; [done|..].
  - intros Hh. by destruct host as [[|]|], (p_host p) as [[|]|].
  - intros Hn. by destruct port as [[| |]|], (p_port p) as [[| |]|].
Qed.

Lemma C6_effective_host_port_witness :
  ∃ p, parse_url "hdfs://nn:8020/a/b" = Ok p ∧
       "nn1" = amended_host (Some "nn1") (p_host p) ∧
       9000%Z = amended_port (Some 9000%Z) (p_port p) ∧
       (Some "nn1" ≠ Some EmptyString →
        "nn1" = claimed_host (Some "nn1") (p_host p)) ∧
       (Some 9000%Z ≠ Some 0%Z → 9000%Z = claimed_port (Some 9000%Z) (p_port p)).
Proof.
  apply (C6_effective_host_port backend_up "hdfs://nn:8020/a/b" (Some "nn1")
           (Some 9000%Z) None None None None []
           [EConnect (HdfsKwargs "nn1" 9000 None None None) (Some 0)]
           (mkHDFSStore None "hdfs://nn:8020"
              (HdfsKwargs "nn1" 9000 None None None) 0 "hdfs://nn:8020/a/b")).
  vm_compute. reflexivity.
Defined.

(** C9: a construction that returns has called the connection factory
    exactly once, as its last step; [get_filesystem] returns the handle made
    then and causes no event, in any later state; and when the backend
    cannot be reached the construction itself raises. *)
Theorem C9_eager_connection
    (B : backend) (prefix_path : string) (host : option string) (port : option Z)
    (user kerb_ticket : option string) (extra_conf : option (list (string * string)))
    (temp_dir : option string) (t : trace) :
  (∀ st t',
     __init__ B prefix_path host port user kerb_ticket extra_conf temp_dir t
       = (Ok st, t') →
     t' = t ++ [EConnect (_hdfs_kwargs st) (Some (_hdfs st))] ∧
     connect_calls t' = connect_calls t + 1 ∧
     ∀ t'', get_filesystem st t'' = (Ok (_hdfs st), t'')) ∧
  (∀ p, parse_url prefix_path = Ok p →
        _check_url prefix_path (p_prefix p) (p_path p) = Ok tt →
        let kw := HdfsKwargs (effective_host host (p_host p))
                             (effective_port port (p_port p))
                             user kerb_ticket extra_conf in
        connect_ok B t kw = false →
        __init__ B prefix_path host port user kerb_ticket extra_conf temp_dir t
          = (Raise ConnectError, t ++ [EConnect kw None])).
Proof.
  split.
  - intros st t' Hinit. apply init_ok in Hinit as (p & _ & _ & _ & _ & _ & _ & ->).
    split; [done|]. split; [|done].
    rewrite connect_calls_app. done.
  - intros p Hp Hc kw Hdown.
    unfold __init__, mbind, lift_result, _get_filesystem_fn, pa_hdfs_connect.
    rewrite Hp, Hc. fold kw. by rewrite Hdown.
Qed.

Lemma C9_eager_connection_witness :
  ∃ st t',
    __init__ backend_up "hdfs://nn:8020/a/b" None None None None None None []
      = (Ok st, t') ∧
    t' = [] ++ [EConnect (_hdfs_kwargs st) (Some (_hdfs st))] ∧
    connect_calls t' = connect_calls [] + 1 ∧
    ∀ t'', get_filesystem st t'' = (Ok (_hdfs st), t'').
Proof.
  eexists _, _. split; [vm_compute; reflexivity|].
  apply (proj1 (C9_eager_connection backend_up "hdfs://nn:8020/a/b"
                  None None None None None None [])).
  vm_compute. reflexivity.
Defined.
(** ** Loops *)
Section ForEach.
Context {S A : Type}.
Implicit Types (f g : A → M S unit) (l : list A).

Lemma for_each_cons f x l s :
  for_each (x :: l) f s =
  match f x s with
  | (Ok _, s') => for_each l f s'
  | (Raise e, s') => (Raise e, s')
  end.
Proof. reflexivity. Qed.

Lemma for_each_ext f g l :
  (∀ x s, f x s = g x s) → ∀ s, for_each l f s = for_each l g s.
Proof.
  intros E. induction l as [|x l IH]; intros s; [done|].
  rewrite !for_each_cons, E. by destruct (g x s) as [[[]|e] s']; [apply IH|].
Qed.

Lemma for_each_app f l1 l2 s :
  for_each (l1 ++ l2) f s =
  match for_each l1 f s with
  | (Ok _, s') => for_each l2 f s'
  | (Raise e, s') => (Raise e, s')
  end.
Proof.
  revert s. induction l1 as [|x l1 IH]; intros s; [done|].
  simpl app. rewrite !for_each_cons. by destruct (f x s) as [[[]|e] s']; [apply IH|].
Qed.

End ForEach.

Lemma for_each_map {S A A'} (h : A' → A) (f : A → M S unit) (l : list A') s :
  for_each (map h l) f s = for_each l (λ x, f (h x)) s.
Proof.
  revert s. induction l as [|x l IH]; intros s; [done|].
  simpl map. rewrite !for_each_cons. by destruct (f (h x) s) as [[[]|e] s']; [apply IH|].
Qed.

Lemma for_each_concat {S A} (f : A → M S unit) (ls : list (list A)) s :
  for_each (concat ls) f s = for_each ls (λ l, for_each l f) s.
Proof.
  revert s. induction ls as [|l ls IH]; intros s; [done|].
  simpl concat. rewrite for_each_app, for_each_cons.
  by destruct (for_each l f s) as [[[]|e] s']; [apply IH|].
Qed.

(** ** The ledger *)
Section Ledger.
Implicit Types (u : gmap string Z) (v : visit) (vs : list visit).

Lemma up_to_date_false u v :
  up_to_date u (v_local v) (v_ts v) = false ↔ should_upload u v.
Proof.
  unfold up_to_date, should_upload. destruct (u !! v_local v) as [last|].
  - rewrite Z.leb_gt. split; [intros ?; right; by exists last|].
    by intros [? | (l & [= <-] & ?)].
  - split; [by left | done].
Qed.

Lemma up_to_date_true u v :
  up_to_date u (v_local v) (v_ts v) = true ↔ covered u v.
Proof.
  unfold up_to_date, covered. destruct (u !! v_local v) as [last|].
  - rewrite Z.leb_le. split; [intros ?; by exists last | by intros (l & [= <-] & ?)].
  - split; [done | by intros (l & ? & ?)].
Qed.

Lemma covered_not_should u v : covered u v → ¬ should_upload u v.
Proof.
  intros Hc Hs. apply up_to_date_true in Hc. apply up_to_date_false in Hs. congruence.
Qed.

Lemma ledger_after_cons u v vs :
  ledger_after u (v :: vs) = ledger_after (record_visit u v) vs.
Proof. reflexivity. Qed.

Lemma ledger_after_app u vs1 vs2 :
  ledger_after u (vs1 ++ vs2) = ledger_after (ledger_after u vs1) vs2.
Proof. apply foldl_app. Qed.

(** The ledger never goes back: an entry that covers a file keeps
    covering it. *)
Lemma covered_record u v x : covered u x → covered (record_visit u v) x.
Proof.
  intros (last & Hl & Hle). unfold record_visit, covered.
  destruct (up_to_date u (v_local v) (v_ts v)) eqn:Hup; [by exists last|].
  destruct (decide (v_local v = v_local x)) as [E|E].
  - rewrite E, lookup_insert_eq. exists (v_ts v). split; [done|].
    unfold up_to_date in Hup. rewrite E, Hl in Hup. apply Z.leb_gt in Hup. lia.
  - rewrite lookup_insert_ne by done. by exists last.
Qed.

Lemma covered_ledger_after u vs x : covered u x → covered (ledger_after u vs) x.
Proof.
  revert u. induction vs as [|v vs IH]; intros u Hc; [done|].
  rewrite ledger_after_cons. by apply IH, covered_record.
Qed.

Lemma record_visit_covered u v : covered (record_visit u v) v.
Proof.
  unfold record_visit. destruct (up_to_date u (v_local v) (v_ts v)) eqn:Hup.
  - by apply up_to_date_true.
  - exists (v_ts v). by rewrite lookup_insert_eq.
Qed.

(** Every file of a walk that went through is covered afterwards. *)
Lemma visited_covered u vs x : x ∈ vs → covered (ledger_after u vs) x.
Proof.
  revert u. induction vs as [|v vs IH]; intros u Hin; [by apply elem_of_nil in Hin|].
  rewrite ledger_after_cons. apply elem_of_cons in Hin as [->|Hin].
  - apply covered_ledger_after, record_visit_covered.
  - by apply IH.
Qed.

Lemma pending_covered u vs :
  (∀ x, x ∈ vs → covered u x) → pending u vs = [] ∧ ledger_after u vs = u.
Proof.
  induction vs as [|v vs IH]; intros Hall; [done|].
  assert (up_to_date u (v_local v) (v_ts v) = true) as Hup.
  { apply up_to_date_true, Hall. by left. }
  rewrite ledger_after_cons. unfold record_visit. simpl. rewrite Hup.
  apply IH. intros x Hx. apply Hall. by right.
Qed.

(** Whatever is still pending was not covered to begin with. *)
Lemma pending_not_covered u vs x : x ∈ pending u vs → ¬ covered u x.
Proof.
  revert u. induction vs as [|v vs IH]; intros u Hin Hc; simpl in Hin.
  { by apply elem_of_nil in Hin. }
  destruct (up_to_date u (v_local v) (v_ts v)) eqn:Hup; [by eapply IH|].
  apply elem_of_cons in Hin as [->|Hin].
  - apply up_to_date_true in Hc. congruence.
  - eapply IH; [exact Hin|]. pose proof (covered_record u v x Hc) as Hc'.
    unfold record_visit in Hc'. by rewrite Hup in Hc'.
Qed.

Lemma ledger_after_other u vs p :
  p ∉ map v_local vs → ledger_after u vs !! p = u !! p.
Proof.
  revert u. induction vs as [|v vs IH]; intros u Hp; [done|].
  simpl in Hp. apply not_elem_of_cons in Hp as [Hne Hp].
  rewrite ledger_after_cons, IH by done. unfold record_visit.
  destruct (up_to_date _ _ _); [done|]. by rewrite lookup_insert_ne.
Qed.

Lemma filter_ext_elem {X} (P Q : X → Prop) `{∀ x, Decision (P x)}
    `{∀ x, Decision (Q x)} (l : list X) :
  (∀ x, x ∈ l → (P x ↔ Q x)) → filter P l = filter Q l.
Proof.
  induction l as [|x l IH]; intros E; [done|].
  rewrite !filter_cons. rewrite IH by (intros y Hy; apply E; by right).
  destruct (decide (P x)) as [Hp|Hp], (decide (Q x)) as [Hq|Hq]; try done;
    exfalso; apply (E x) in Hp || apply (E x) in Hq; done || by left.
Qed.

(** When the paths of a walk are pairwise distinct, what is pending is
    decided by the ledger the walk starts from. *)
Lemma pending_filter u vs :
  NoDup (map v_local vs) → pending u vs = filter (should_upload u) vs.
Proof.
  revert u. induction vs as [|v vs IH]; intros u Hnd; [done|].
  simpl in Hnd. apply NoDup_cons in Hnd as [Hv Hnd]. simpl. rewrite filter_cons.
  destruct (up_to_date u (v_local v) (v_ts v)) eqn:Hup.
  - rewrite decide_False by (apply covered_not_should; by apply up_to_date_true).
    by apply IH.
  - rewrite decide_True by (by apply up_to_date_false).
    f_equal. rewrite IH by done. apply filter_ext_elem. intros x Hx.
    unfold should_upload. rewrite lookup_insert_ne; [done|].
    intros E. apply Hv. rewrite E. apply list_elem_of_fmap. by exists x.
Qed.

(** After a walk over distinct paths that starts from a ledger not ahead
    of the file, the recorded timestamp is the file's. *)
Lemma ledger_after_exact u vs1 v vs2 :
  NoDup (map v_local (vs1 ++ v :: vs2)) →
  (∀ last, u !! v_local v = Some last → (last ≤ v_ts v)%Z) →
  ledger_after u (vs1 ++ v :: vs2) !! v_local v = Some (v_ts v).
Proof.
  intros Hnd Hle. rewrite map_app in Hnd. simpl in Hnd.
  apply NoDup_app in Hnd as (_ & Hdisj & Hnd2). apply NoDup_cons in Hnd2 as [Hv2 _].
  rewrite ledger_after_app, ledger_after_cons, ledger_after_other by done.
  assert (ledger_after u vs1 !! v_local v = u !! v_local v) as Hsame.
  { apply ledger_after_other. intros Hin. apply (Hdisj _ Hin). by left. }
  unfold record_visit, up_to_date. rewrite Hsame.
  destruct (u !! v_local v) as [last|] eqn:Hu.
  - destruct (v_ts v <=? last)%Z eqn:Hcmp.
    + rewrite Hsame, ?Hu. apply Z.leb_le in Hcmp. specialize (Hle _ eq_refl).
      f_equal. lia.
    + by rewrite lookup_insert_eq.
  - by rewrite lookup_insert_eq.
Qed.

End Ledger.
(** ** One call of the sync function *)
Section Call.
Variable B : backend.
Implicit Types (w : world) (v : visit) (vs : list visit) (h : handle).

Lemma sync_visit_unfold h v w :
  sync_visit B h v w =
  if up_to_date (uploaded (state w)) (v_local v) (v_ts v) then (Ok tt, w)
  else if upload_ok B (events w) h (v_remote v)
  then (Ok tt, World (mkSyncState (fs (state w))
                                  (<[v_local v := v_ts v]> (uploaded (state w))))
                     (events w ++ [ok_event h v]))
  else (Raise UploadError, World (state w) (events w ++ [failed_event h v])).
Proof.
  unfold sync_visit, mbind, mget, mret, on_backend, hdfs_upload, set_uploaded, mmodify.
  destruct (up_to_date _ _ _); [done|]. simpl.
  by destruct (upload_ok B (events w) h (v_remote v)).
Qed.

(** The loop over the visits: it handles a prefix [done_] of them, stops
    at the first transfer that fails, and leaves the ledger as the
    handled prefix made it. *)
Lemma loop_outcome h vs : ∀ w r w',
  for_each vs (sync_visit B h) w = (r, w') →
  fs (state w') = fs (state w) ∧
  ∃ done_ rest_,
    vs = done_ ++ rest_ ∧
    uploaded (state w') = ledger_after (uploaded (state w)) done_ ∧
    match r with
    | Ok _ =>
        rest_ = [] ∧
        events w' = events w ++ map (ok_event h) (pending (uploaded (state w)) done_)
    | Raise e =>
        e = UploadError ∧
        ∃ v rest', rest_ = v :: rest' ∧
          should_upload (ledger_after (uploaded (state w)) done_) v ∧
          events w' = events w
                      ++ map (ok_event h) (pending (uploaded (state w)) done_)
                      ++ [failed_event h v]
    end.
Proof.
  induction vs as [|v vs IH]; intros w r w'.
  - intros [= <- <-]. split; [done|]. exists [], []. simpl. by rewrite app_nil_r.
  - rewrite for_each_cons, sync_visit_unfold.
    destruct (up_to_date (uploaded (state w)) (v_local v) (v_ts v)) eqn:Hup.
    + intros Hloop. apply IH in Hloop as (Hfs & done_ & rest_ & -> & Hled & Hr).
      split; [done|]. exists (v :: done_), rest_.
      rewrite ledger_after_cons. unfold record_visit. simpl. rewrite Hup. done.
    + destruct (upload_ok B (events w) h (v_remote v)) eqn:Hok.
      * intros Hloop. apply IH in Hloop as (Hfs & done_ & rest_ & -> & Hled & Hr).
        simpl in *. split; [done|]. exists (v :: done_), rest_.
        rewrite ledger_after_cons. unfold record_visit. simpl. rewrite Hup.
        split; [done|]. split; [done|].
        destruct r as [[]|e].
        -- destruct Hr as [-> ->]. by rewrite <- app_assoc.
        -- destruct Hr as (-> & v' & rest' & -> & Hs & ->).
           split; [done|]. exists v', rest'. by rewrite <- !app_assoc.
      * intros [= <- <-]. simpl. split; [done|]. exists [], (v :: vs).
        split; [done|]. split; [done|]. split; [done|]. exists v, vs.
        split; [done|]. split; [by apply up_to_date_false | done].
Qed.

Lemma sync_file_step h root prefix local_dir dirs file w :
  sync_file B h (os_path_join root (drop_str prefix local_dir)) local_dir file w =
  match steps_of root prefix (local_dir, dirs, [file]) with
  | o :: _ => sync_step B h o w
  | [] => (Ok tt, w)
  end.
Proof.
  destruct file as [name [m|]]; simpl; [|done].
  unfold sync_file, sync_visit, lift_result, mbind. simpl. done.
Qed.

Lemma sync_dir_steps env h prefix item w :
  sync_dir B env h prefix item w =
  for_each (steps_of (hdfs_root_path env) prefix item) (sync_step B h) w.
Proof.
  destruct item as [[local_dir dirs] files]. unfold sync_dir, steps_of.
  rewrite for_each_map. apply for_each_ext. intros file s.
  by rewrite (sync_file_step h _ prefix local_dir dirs).
Qed.

(** The two nested loops of the closure are one loop over [steps]. *)
Lemma walk_loop env h local_run_path tree w :
  for_each (os_walk local_run_path tree)
           (sync_dir B env h (len local_run_path + 1)) w =
  for_each (steps (hdfs_root_path env) local_run_path tree) (sync_step B h) w.
Proof.
  unfold steps. rewrite for_each_concat, for_each_map.
  apply for_each_ext. intros item s. apply sync_dir_steps.
Qed.

Lemma visits_app os1 os2 : visits (os1 ++ os2) = visits os1 ++ visits os2.
Proof. apply omap_app. Qed.

Lemma visits_of_steps root prefix item :
  visits_of root prefix item = visits (steps_of root prefix item).
Proof.
  destruct item as [[local_dir dirs] files]. unfold visits_of, steps_of, visits, reachable.
  induction files as [|[name [m|]] files IH]; simpl; [done | by f_equal | done].
Qed.

(** The visits of a walk are the steps whose modification time is read. *)
Lemma visited_steps root lrp tree :
  visited root lrp tree = visits (steps root lrp tree).
Proof.
  unfold visited, steps.
  induction (os_walk lrp tree) as [|item items IH]; [done|].
  simpl. by rewrite visits_app, IH, visits_of_steps.
Qed.

Lemma readable_visits os :
  ∃ rest, visits os = readable os ++ rest ∧ (blocked os = false → rest = []).
Proof.
  induction os as [|[v|] os IH].
  - by exists [].
  - destruct IH as (rest & E & Hr). exists rest.
    change (visits (Some v :: os)) with (v :: visits os). by rewrite E.
  - by exists (visits os).
Qed.

Lemma blocked_app os1 os2 :
  blocked (os1 ++ os2) = blocked os1 || blocked os2.
Proof. induction os1 as [|[v|] os1 IH]; simpl; done. Qed.

Lemma blocked_false os : blocked os = false → os = map Some (visits os).
Proof.
  induction os as [|[v|] os IH]; simpl; [done| |done].
  intros H. change (visits (Some v :: os)) with (v :: visits os).
  simpl. f_equal. by apply IH.
Qed.

(** The loop over the steps is the loop over the visits that come before
    the first file whose modification time cannot be read, followed by the
    error of [os.path.getmtime] if there is such a file. *)
Lemma steps_readable h os : ∀ w,
  for_each os (sync_step B h) w =
  match for_each (readable os) (sync_visit B h) w with
  | (Ok _, w') =>
      if blocked os then (Raise (OSError "No such file or directory"), w')
      else (Ok tt, w')
  | (Raise e, w') => (Raise e, w')
  end.
Proof.
  induction os as [|[v|] os IH]; intros w; [done| |done].
  simpl readable. rewrite !for_each_cons. simpl sync_step.
  destruct (sync_visit B h v w) as [[[]|e] w1]; [|done]. apply IH.
Qed.

(** The loop over the steps of a walk: it handles a prefix [done_] of the
    visits and stops at the first transfer that fails or at the first file
    whose modification time cannot be read. *)
Lemma walk_outcome h os w r w' :
  for_each os (sync_step B h) w = (r, w') →
  fs (state w') = fs (state w) ∧
  ∃ done_ rest_,
    visits os = done_ ++ rest_ ∧
    uploaded (state w') = ledger_after (uploaded (state w)) done_ ∧
    match r with
    | Ok _ =>
        rest_ = [] ∧
        events w' = events w ++ map (ok_event h) (pending (uploaded (state w)) done_)
    | Raise UploadError =>
        ∃ v rest', rest_ = v :: rest' ∧
          should_upload (ledger_after (uploaded (state w)) done_) v ∧
          events w' = events w
                      ++ map (ok_event h) (pending (uploaded (state w)) done_)
                      ++ [failed_event h v]
    | Raise (OSError _) =>
        blocked os = true ∧ done_ = readable os ∧
        events w' = events w ++ map (ok_event h) (pending (uploaded (state w)) done_)
    | Raise _ => False
    end.
Proof.
  rewrite steps_readable. destruct (readable_visits os) as (tl & Hvis & Htl).
  destruct (for_each (readable os) (sync_visit B h) w) as [r0 w0] eqn:Hl.
  apply loop_outcome in Hl as (Hfs & done_ & rest_ & Hsplit & Hled & Hr).
  destruct r0 as [[]|e].
  - destruct Hr as [-> Hev]. rewrite app_nil_r in Hsplit. subst done_.
    destruct (blocked os) eqn:Hb; intros [= <- <-]; (split; [done|]).
    + exists (readable os), tl. done.
    + exists (readable os), []. rewrite Hvis, (Htl eq_refl). done.
  - intros [= <- <-]. split; [done|]. destruct Hr as (-> & v & rest' & -> & Hs & Hev).
    exists done_, (v :: rest' ++ tl). rewrite Hvis, Hsplit, <- app_assoc.
    split; [done|]. split; [done|]. by exists v, (rest' ++ tl).
Qed.


Lemma fn_unfold env local_run_path tree w :
  fn B env local_run_path tree w =
  let os := steps (hdfs_root_path env) local_run_path tree in
  match fs (state w) with
  | Some h => for_each os (sync_step B h) w
  | None =>
      let h := length (events w) in
      let kw := get_filesystem_kw env in
      if connect_ok B (events w) kw
      then for_each os (sync_step B h)
             (World (mkSyncState (Some h) (uploaded (state w)))
                    (events w ++ [EConnect kw (Some h)]))
      else (Raise ConnectError, World (state w) (events w ++ [EConnect kw None]))
  end.
Proof.
  unfold fn, mbind, mget. simpl. destruct (fs (state w)) as [h|]; simpl.
  - apply walk_loop.
  - unfold on_backend, _get_filesystem_fn, pa_hdfs_connect, set_fs, mmodify, mret.
    destruct (connect_ok B (events w) (get_filesystem_kw env)); [|done].
    simpl. apply walk_loop.
Qed.


Lemma upload_attempts_ok h vs :
  upload_attempts (map (ok_event h) vs) = map v_local vs.
Proof. induction vs as [|v vs IH]; simpl; [done | by rewrite IH]. Qed.

Lemma uploads_ok h vs : uploads (map (ok_event h) vs) = map v_local vs.
Proof. induction vs as [|v vs IH]; simpl; [done | by rewrite IH]. Qed.

Lemma upload_targets_ok h vs :
  upload_targets (map (ok_event h) vs) = map (λ v, (v_local v, v_remote v)) vs.
Proof. induction vs as [|v vs IH]; simpl; [done | by rewrite IH]. Qed.

Lemma connect_calls_ok h vs : connect_calls (map (ok_event h) vs) = 0.
Proof. induction vs as [|v vs IH]; simpl; [done | by rewrite IH]. Qed.

Lemma connections_ok h vs : connections (map (ok_event h) vs) = 0.
Proof. induction vs as [|v vs IH]; simpl; [done | by rewrite IH]. Qed.

(** What one call does to the ledger and to the transfers. *)
Lemma fn_summary env local_run_path tree w r w' :
  fn B env local_run_path tree w = (r, w') →
  let vis := visited (hdfs_root_path env) local_run_path tree in
  let u := uploaded (state w) in
  ∃ done_ rest_,
    vis = done_ ++ rest_ ∧
    uploaded (state w') = ledger_after u done_ ∧
    uploads (events w') = uploads (events w) ++ map v_local (pending u done_) ∧
    upload_targets (events w')
      = upload_targets (events w)
        ++ map (λ v, (v_local v, v_remote v)) (pending u done_) ∧
    match r with
    | Ok _ =>
        rest_ = [] ∧ is_Some (fs (state w')) ∧
        upload_attempts (events w')
          = upload_attempts (events w) ++ map v_local (pending u done_)
    | Raise UploadError =>
        is_Some (fs (state w')) ∧
        ∃ v rest', rest_ = v :: rest' ∧ should_upload (ledger_after u done_) v ∧
          upload_attempts (events w')
            = upload_attempts (events w) ++ map v_local (pending u done_)
              ++ [v_local v]
    | Raise (OSError _) =>
        is_Some (fs (state w')) ∧
        blocked (steps (hdfs_root_path env) local_run_path tree) = true ∧
        done_ = readable (steps (hdfs_root_path env) local_run_path tree) ∧
        upload_attempts (events w')
          = upload_attempts (events w) ++ map v_local (pending u done_)
    | Raise _ =>
        fs (state w) = None ∧ done_ = [] ∧
        upload_attempts (events w') = upload_attempts (events w)
    end.
Proof.
  rewrite fn_unfold. intros Hfn vis u. simpl in Hfn.
  set (os := steps (hdfs_root_path env) local_run_path tree) in *.
  assert (vis = visits os) as Hvo by apply visited_steps.
  assert (∀ h w0, uploaded (state w0) = u → is_Some (fs (state w0)) →
            uploads (events w0) = uploads (events w) →
            upload_attempts (events w0) = upload_attempts (events w) →
            upload_targets (events w0) = upload_targets (events w) →
            for_each os (sync_step B h) w0 = (r, w') →
            ∃ done_ rest_,
              vis = done_ ++ rest_ ∧
              uploaded (state w') = ledger_after u done_ ∧
              uploads (events w') = uploads (events w) ++ map v_local (pending u done_) ∧
              upload_targets (events w')
                = upload_targets (events w)
                  ++ map (λ v, (v_local v, v_remote v)) (pending u done_) ∧
              match r with
              | Ok _ =>
                  rest_ = [] ∧ is_Some (fs (state w')) ∧
                  upload_attempts (events w')
                    = upload_attempts (events w) ++ map v_local (pending u done_)
              | Raise UploadError =>
                  is_Some (fs (state w')) ∧
                  ∃ v rest', rest_ = v :: rest' ∧
                    should_upload (ledger_after u done_) v ∧
                    upload_attempts (events w')
                      = upload_attempts (events w) ++ map v_local (pending u done_)
                        ++ [v_local v]
              | Raise (OSError _) =>
                  is_Some (fs (state w')) ∧ blocked os = true ∧ done_ = readable os ∧
                  upload_attempts (events w')
                    = upload_attempts (events w) ++ map v_local (pending u done_)
              | Raise _ =>
                  fs (state w) = None ∧ done_ = [] ∧
                  upload_attempts (events w') = upload_attempts (events w)
              end) as Hloop.
  { intros h w0 Hu Hfs0 Hup Hatt Htg Hl.
    apply walk_outcome in Hl as (Hfs & done_ & rest_ & Hvis & Hled & Hr).
    rewrite Hu in *. exists done_, rest_. split; [by rewrite Hvo|]. split; [done|].
    destruct r as [[]|e].
    - destruct Hr as [-> Hev]. rewrite Hev.
      rewrite uploads_app, upload_attempts_app, upload_targets_app,
        uploads_ok, upload_attempts_ok, upload_targets_ok, Hup, Hatt, Htg, Hfs.
      done.
    - destruct e as [|msg| | |msg]; try done.
      + destruct Hr as (v & rest' & -> & Hs & Hev). rewrite Hev.
        rewrite !uploads_app, !upload_attempts_app, !upload_targets_app,
          uploads_ok, upload_attempts_ok, upload_targets_ok, Hup, Hatt, Htg, Hfs.
        simpl. rewrite !app_nil_r. split; [done|]. split; [done|].
        split; [done|]. by exists v, rest'.
      + destruct Hr as (Hb & Hd & Hev). rewrite Hev.
        rewrite uploads_app, upload_attempts_app, upload_targets_app,
          uploads_ok, upload_attempts_ok, upload_targets_ok, Hup, Hatt, Htg, Hfs.
        done. }
  destruct (fs (state w)) as [h|] eqn:Hfsw.
  - apply (Hloop h w); by rewrite ?Hfsw.
  - destruct (connect_ok B (events w) (get_filesystem_kw env)).
    + eapply Hloop; [| | | | |exact Hfn]; simpl; try done.
      * by rewrite uploads_app, app_nil_r.
      * by rewrite upload_attempts_app, app_nil_r.
      * by rewrite upload_targets_app, app_nil_r.
    + injection Hfn as <- <-. exists [], vis. simpl.
      rewrite uploads_app, upload_attempts_app, upload_targets_app. simpl.
      by rewrite !app_nil_r.
Qed.

(** What one call does to the cached handle and to the connections. *)
Lemma fn_connection env local_run_path tree w r w' :
  fn B env local_run_path tree w = (r, w') →
  match fs (state w) with
  | Some h =>
      fs (state w') = Some h ∧
      connect_calls (events w') = connect_calls (events w) ∧
      connections (events w') = connections (events w) ∧
      ∃ delta, events w' = events w ++ delta ∧ Forall (uses_handle h) delta
  | None =>
      connect_calls (events w') = connect_calls (events w) + 1 ∧
      ((fs (state w') = None ∧ r = Raise ConnectError ∧
        connections (events w') = connections (events w)) ∨
       (fs (state w') = Some (length (events w)) ∧
        connections (events w') = connections (events w) + 1))
  end.
Proof.
  rewrite fn_unfold. simpl.
  assert (∀ h w0, for_each (steps (hdfs_root_path env) local_run_path tree)
                           (sync_step B h) w0 = (r, w') →
            fs (state w') = fs (state w0) ∧
            connect_calls (events w') = connect_calls (events w0) ∧
            connections (events w') = connections (events w0) ∧
            ∃ delta, events w' = events w0 ++ delta ∧ Forall (uses_handle h) delta)
    as Hloop.
  { intros h w0 Hl.
    apply walk_outcome in Hl as (Hfs & done_ & rest_ & _ & _ & Hr).
    split; [done|]. destruct r as [[]|e].
    - destruct Hr as [_ ->].
      rewrite connect_calls_app, connections_app, connect_calls_ok,
        connections_ok, !Nat.add_0_r.
      split; [done|]. split; [done|]. eexists; split; [done|].
      apply Forall_fmap, Forall_true. by intros x.
    - destruct e as [|msg| | |msg]; try done.
      + destruct Hr as (v & rest' & _ & _ & ->).
        rewrite !connect_calls_app, !connections_app, connect_calls_ok, connections_ok.
        simpl. split; [lia|]. split; [lia|]. eexists; split; [done|].
        apply Forall_app. split; [|by apply Forall_singleton].
        apply Forall_fmap, Forall_true. by intros x.
      + destruct Hr as (_ & _ & ->).
        rewrite connect_calls_app, connections_app, connect_calls_ok,
          connections_ok, !Nat.add_0_r.
        split; [done|]. split; [done|]. eexists; split; [done|].
        apply Forall_fmap, Forall_true. by intros x. }
  destruct (fs (state w)) as [h|] eqn:Hfsw.
  - intros Hl. apply Hloop in Hl as (-> & -> & -> & Hd). done.
  - destruct (connect_ok B (events w) (get_filesystem_kw env)).
    + intros Hl. apply Hloop in Hl as (Hfs & -> & -> & _). simpl in *.
      rewrite connect_calls_app, connections_app. simpl. split; [done|]. by right.
    + intros [= <- <-]. simpl. rewrite connect_calls_app, connections_app. simpl.
      split; [done|]. left. rewrite Nat.add_0_r. done.
Qed.

End Call.
(** ** Lists of paths *)
Section PathLists.

Lemma NoDup_map_inj_elem {X Y} (f : X → Y) (l : list X) x y :
  NoDup (map f l) → x ∈ l → y ∈ l → f x = f y → x = y.
Proof.
  induction l as [|a l IH]; intros Hnd Hx Hy E; [by apply elem_of_nil in Hx|].
  simpl in Hnd. apply NoDup_cons in Hnd as [Ha Hnd].
  apply elem_of_cons in Hx as [->|Hx]; apply elem_of_cons in Hy as [->|Hy].
  - done.
  - exfalso. apply Ha. rewrite E. apply list_elem_of_fmap. by exists y.
  - exfalso. apply Ha. rewrite <- E. apply list_elem_of_fmap. by exists x.
  - by apply IH.
Qed.

Lemma filter_none {X} (P : X → Prop) `{∀ x, Decision (P x)} (l : list X) :
  (∀ x, x ∈ l → ¬ P x) → filter P l = [].
Proof.
  induction l as [|a l IH]; intros Hn; [done|].
  rewrite filter_cons, decide_False by (apply Hn; by left).
  apply IH. intros x Hx. apply Hn. by right.
Qed.

Lemma occurrences_app p l1 l2 :
  occurrences p (l1 ++ l2) = occurrences p l1 + occurrences p l2.
Proof. unfold occurrences. by rewrite filter_app, length_app. Qed.

Lemma occurrences_absent p l : p ∉ l → occurrences p l = 0.
Proof.
  intros Hp. unfold occurrences. rewrite filter_none; [done|].
  intros q Hq ->. done.
Qed.

Lemma occurrences_once p l : NoDup l → p ∈ l → occurrences p l = 1.
Proof.
  induction l as [|a l IH]; intros Hnd Hp; [by apply elem_of_nil in Hp|].
  apply NoDup_cons in Hnd as [Ha Hnd]. unfold occurrences in *.
  rewrite filter_cons. apply elem_of_cons in Hp as [->|Hp].
  - rewrite decide_True by done. simpl. f_equal.
    by apply (occurrences_absent a l).
  - rewrite decide_False by (intros ->; done). by apply IH.
Qed.

Lemma pending_elem u vs x : x ∈ pending u vs → x ∈ vs.
Proof.
  revert u. induction vs as [|v vs IH]; intros u; simpl; [done|].
  destruct (up_to_date _ _ _).
  - intros Hx. right. by eapply IH.
  - intros [->|Hx]%elem_of_cons; [by left|]. right. by eapply IH.
Qed.

End PathLists.
(** ** Well-formed trees have pairwise distinct paths *)
Section Trees.

Lemma wf_tree_dir es :
  wf_tree (Dir es) = true →
  Forall (λ n, valid_name n = true) (map fst es) ∧ NoDup (map fst es) ∧
  Forall (λ e, wf_tree (snd e) = true) es.
Proof.
  simpl. intros [[H1 H2]%andb_true_iff H3]%andb_true_iff.
  apply bool_decide_eq_true in H2. split; [|split; [done|]].
  - apply Forall_forall. intros n Hn. apply list_elem_of_In in Hn.
    by apply (proj1 (forallb_forall _ _) H1).
  - apply Forall_forall. intros e He. apply list_elem_of_In in He.
    by apply (proj1 (forallb_forall _ _) H3).
Qed.

Lemma visited_paths root lrp tree :
  map v_local (visited root lrp tree) = local_paths lrp tree.
Proof.
  unfold visited, local_paths.
  induction (os_walk lrp tree) as [|[[local_dir dirs] files] items IH]; [done|].
  simpl. rewrite map_app, IH. f_equal. unfold visits_of. by rewrite map_map.
Qed.

Lemma concat_map_concat {X Y Z} (F : Y → list Z) (G : X → list Y) (l : list X) :
  concat (map F (concat (map G l))) = concat (map (λ x, concat (map F (G x))) l).
Proof.
  induction l as [|x l IH]; [done|].
  simpl. by rewrite map_app, concat_app, IH.
Qed.

Lemma local_paths_dir top es :
  local_paths top (Dir es)
  = map (λ f, os_path_join top (fst f)) (reachable (filenames es))
    ++ concat (map (λ e, local_paths (os_path_join top (fst e)) (snd e)) es).
Proof.
  unfold local_paths. simpl. f_equal. apply concat_map_concat.
Qed.

Lemma valid_name_inv n :
  valid_name n = true →
  n ≠ EmptyString ∧ contains (String SEP EmptyString) n = false.
Proof.
  unfold valid_name. intros [H1 H2]%andb_true_iff.
  apply negb_true_iff in H1, H2. by apply bool_decide_eq_false in H1.
Qed.

Lemma no_sep_head c s :
  contains (String SEP EmptyString) (String c s) = false →
  c ≠ SEP ∧ contains (String SEP EmptyString) s = false.
Proof.
  intros [H1 H2]%contains_sep_cons. split; [|done]. by apply Ascii.eqb_neq.
Qed.

(** [os.path.join] in front of a valid entry name. *)
Lemma join_base top n :
  valid_name n = true → os_path_join top n = base top +:+ n.
Proof.
  intros [Hne Hc]%valid_name_inv. unfold os_path_join, base.
  destruct n as [|c n]; [done|]. apply no_sep_head in Hc as [Hc _].
  simpl startswith. rewrite (proj2 (Ascii.eqb_neq _ _) Hc).
  destruct (_ || _); [done|]. by rewrite app_assoc_str.
Qed.

Lemma base_join top n :
  valid_name n = true →
  base (base top +:+ n) = base top +:+ (n +:+ String SEP EmptyString).
Proof.
  intros [Hne Hc]%valid_name_inv. unfold base at 1.
  rewrite endswith_suffix, (no_sep_endswith n Hc) by done.
  rewrite orb_false_r.
  destruct (base top +:+ n) eqn:E; [|by rewrite <- E, app_assoc_str].
  exfalso. destruct (base top); [by destruct n | discriminate].
Qed.

Lemma filenames_names f es : f ∈ filenames es → fst f ∈ map fst es.
Proof.
  induction es as [|[n c] es IH]; simpl; [by intros ?%elem_of_nil|].
  destruct c as [m|sub|].
  - intros [->|Hin]%elem_of_cons; [by left | right; by apply IH].
  - intros Hin. right. by apply IH.
  - intros [->|Hin]%elem_of_cons; [by left | right; by apply IH].
Qed.

Lemma reachable_elem f files :
  f ∈ reachable files ↔ (fst f, Some (snd f)) ∈ files.
Proof.
  unfold reachable. rewrite list_elem_of_omap. split.
  - intros ([name [m|]] & Hin & E); simpl in E; [|done]. by injection E as <-.
  - intros Hin. exists (fst f, Some (snd f)). split; [done|]. by destruct f.
Qed.

Lemma reachable_names f es : f ∈ reachable (filenames es) → fst f ∈ map fst es.
Proof. intros Hf%reachable_elem. by apply filenames_names in Hf. Qed.

Lemma local_paths_rel tree :
  wf_tree tree = true →
  ∀ top, local_paths top tree = map (λ r, base top +:+ r) (rel_paths tree).
Proof.
  induction tree as [m|es IH|] using node_ind'; intros Hwf top; [done| |done].
  apply wf_tree_dir in Hwf as (Hvalid & _ & Hsub).
  rewrite local_paths_dir. simpl rel_paths. rewrite map_app. f_equal.
  - rewrite map_map. apply map_ext_in. intros f Hf. apply join_base.
    apply list_elem_of_In, reachable_names in Hf.
    by apply (proj1 (Forall_forall _ _) Hvalid).
  - clear -IH Hvalid Hsub. induction es as [|[d child] es IHes]; [done|].
    apply Forall_cons in IH as [IHd IH]. apply Forall_cons in Hsub as [Hd Hsub].
    simpl in Hvalid. apply Forall_cons in Hvalid as [Hvd Hvalid].
    simpl. rewrite map_app, IHes by done. f_equal.
    simpl in IHd, Hd. rewrite IHd, map_map by done. apply map_ext. intros r.
    rewrite join_base, base_join by done.
    by rewrite !app_assoc_str, app_cons, app_empty_l.
Qed.

Lemma sep_split d1 : ∀ d2 r1 r2,
  contains (String SEP EmptyString) d1 = false →
  contains (String SEP EmptyString) d2 = false →
  d1 +:+ String SEP r1 = d2 +:+ String SEP r2 → d1 = d2 ∧ r1 = r2.
Proof.
  induction d1 as [|c d1 IH]; intros [|c' d2] r1 r2 H1 H2; rewrite ?app_cons, ?app_empty_l.
  - by intros [= ->].
  - intros [= <- _]. by apply no_sep_head in H2 as [? _].
  - intros [= -> _]. by apply no_sep_head in H1 as [? _].
  - intros [= -> E]. apply no_sep_head in H1 as [_ H1]. apply no_sep_head in H2 as [_ H2].
    destruct (IH d2 r1 r2 H1 H2 E) as [-> ->]. done.
Qed.

Lemma NoDup_map_injective {X Y} (f : X → Y) (l : list X) :
  (∀ x y, f x = f y → x = y) → NoDup l → NoDup (map f l).
Proof.
  intros Hinj. induction l as [|x l IH]; simpl; [constructor|].
  intros [Hx Hl]%NoDup_cons. apply NoDup_cons. split; [|by apply IH].
  intros (y & E & Hy)%list_elem_of_fmap. apply Hinj in E as ->. done.
Qed.

Lemma NoDup_filenames es :
  NoDup (map fst es) → NoDup (map fst (reachable (filenames es))).
Proof.
  induction es as [|[n c] es IH]; simpl; [done|].
  intros [Hn Hnd]%NoDup_cons. destruct c as [m|sub|]; [|by apply IH..].
  change (reachable ((n, Some m) :: filenames es))
    with ((n, m) :: reachable (filenames es)).
  simpl. apply NoDup_cons. split; [|by apply IH].
  intros (f & E & Hf)%list_elem_of_fmap. apply Hn. rewrite E.
  by apply reachable_names.
Qed.

Lemma rel_paths_NoDup tree : wf_tree tree = true → NoDup (rel_paths tree).
Proof.
  induction tree as [m|es IH|] using node_ind'; intros Hwf; [constructor| |constructor].
  apply wf_tree_dir in Hwf as (Hvalid & Hnd & Hsub). simpl rel_paths.
  assert (∀ es' p,
            p ∈ concat (map (λ e, map (λ r, fst e +:+ String SEP r)
                                      (rel_paths (snd e))) es') →
            ∃ d r, d ∈ map fst es' ∧ p = d +:+ String SEP r) as Hshape.
  { intros es' p Hp. apply list_elem_of_In, in_concat in Hp as (l & Hl & Hp).
    apply in_map_iff in Hl as (e & <- & He).
    apply in_map_iff in Hp as (r & <- & _). exists (fst e), r. split; [|done].
    apply list_elem_of_fmap. exists e. split; [done | by apply list_elem_of_In]. }
  apply NoDup_app. split; [by apply NoDup_filenames|]. split.
  - intros p (f & -> & Hf)%list_elem_of_fmap Hp.
    apply Hshape in Hp as (d & r & _ & E).
    apply reachable_names in Hf.
    apply (proj1 (Forall_forall _ _) Hvalid), valid_name_inv in Hf as [_ Hf].
    assert (contains (String SEP EmptyString) (fst f) = true) as Ht; [|congruence].
    apply contains_spec. exists d, r. by rewrite E.
  - clear Hshape. induction es as [|[d child] es IHes]; [constructor|].
    apply Forall_cons in IH as [IHd IH]. apply Forall_cons in Hsub as [Hd Hsub].
    simpl in Hvalid, Hnd. apply Forall_cons in Hvalid as [Hvd Hvalid].
    apply NoDup_cons in Hnd as [Hfresh Hnd].
    simpl. apply NoDup_app.
    split.
    { apply NoDup_map_injective; [|by apply IHd].
      intros x y E. apply app_inv_head_str in E. by injection E. }
    split; [|by apply IHes].
    intros p (r & -> & Hr)%list_elem_of_fmap Hp.
    apply list_elem_of_In, in_concat in Hp as (l & Hl & Hp).
    apply in_map_iff in Hl as (e & <- & He).
    apply in_map_iff in Hp as (r' & E & _).
    apply valid_name_inv in Hvd as [_ Hvd].
    assert (fst e ∈ map fst es) as Hin.
    { apply list_elem_of_fmap. exists e. split; [done | by apply list_elem_of_In]. }
    pose proof (proj1 (Forall_forall _ _) Hvalid _ Hin) as [_ Hve]%valid_name_inv.
    apply sep_split in E as [E _]; [|done|done]. apply Hfresh. by rewrite <- E.
Qed.

(** The local paths visited in a well-formed tree are pairwise distinct. *)
Lemma wf_tree_NoDup root lrp tree :
  wf_tree tree = true → NoDup (map v_local (visited root lrp tree)).
Proof.
  intros Hwf. rewrite visited_paths, local_paths_rel by done.
  apply NoDup_map_injective; [|by apply rel_paths_NoDup].
  intros x y E. by apply app_inv_head_str in E.
Qed.

End Trees.
(** ** The cached handle over a session *)
Section Session.
Variable B : backend.

Lemma session_cons env lrp tree trees w :
  session B env lrp (tree :: trees) w =
  match fn B env lrp tree w with
  | (r, w') =>
      match session B env lrp trees w' with
      | (rs, w'') => (r :: rs, w'')
      end
  end.
Proof. reflexivity. Qed.

(** Once the field holds a handle, no call replaces it or connects, and
    every transfer goes through it. *)
Lemma session_cached env lrp trees : ∀ w h rs w',
  fs (state w) = Some h → session B env lrp trees w = (rs, w') →
  fs (state w') = Some h ∧
  connect_calls (events w') = connect_calls (events w) ∧
  connections (events w') = connections (events w) ∧
  ∃ delta, events w' = events w ++ delta ∧ Forall (uses_handle h) delta.
Proof.
  induction trees as [|tree trees IH]; intros w h rs w' Hfs.
  - intros [= <- <-]. repeat split; [done|]. exists []. by rewrite app_nil_r.
  - rewrite session_cons.
    destruct (fn B env lrp tree w) as [r w1] eqn:Hfn.
    destruct (session B env lrp trees w1) as [rs' w2] eqn:Hs. intros [= <- <-].
    apply fn_connection in Hfn. rewrite Hfs in Hfn.
    destruct Hfn as (Hfs1 & Hc1 & Hn1 & d1 & Hd1 & Hall1).
    destruct (IH _ _ _ _ Hfs1 Hs) as (Hfs2 & Hc2 & Hn2 & d2 & Hd2 & Hall2).
    split; [done|]. split; [congruence|]. split; [congruence|].
    exists (d1 ++ d2). rewrite Hd2, Hd1, <- app_assoc. split; [done|].
    by apply Forall_app.
Qed.

Lemma session_connections env lrp trees : ∀ w rs w',
  fs (state w) = None → session B env lrp trees w = (rs, w') →
  connections (events w') ≤ connections (events w) + 1.
Proof.
  induction trees as [|tree trees IH]; intros w rs w' Hfs.
  - intros [= <- <-]. lia.
  - rewrite session_cons.
    destruct (fn B env lrp tree w) as [r w1] eqn:Hfn.
    destruct (session B env lrp trees w1) as [rs' w2] eqn:Hs. intros [= <- <-].
    apply fn_connection in Hfn. rewrite Hfs in Hfn.
    destruct Hfn as (_ & [(Hfs1 & _ & Hn1) | (Hfs1 & Hn1)]).
    + pose proof (IH _ _ _ Hfs1 Hs). lia.
    + destruct (session_cached _ _ _ _ _ _ _ Hfs1 Hs) as (_ & _ & Hn2 & _). lia.
Qed.

(** A call raises the error of the connection exactly when it leaves the
    field unset. *)
Lemma fn_connect_error env lrp tree w r w' :
  fn B env lrp tree w = (r, w') →
  is_connect_error r = true ↔ fs (state w') = None.
Proof.
  rewrite fn_unfold. simpl.
  assert (∀ h w0, is_Some (fs (state w0)) →
            for_each (steps (hdfs_root_path env) lrp tree) (sync_step B h) w0 = (r, w') →
            is_connect_error r = true ↔ fs (state w') = None) as Hloop.
  { intros h w0 [h0 Hh0] Hl. apply walk_outcome in Hl as (Hfs & done_ & rest_ & _ & _ & Hr).
    rewrite Hfs, Hh0. split; [|done].
    destruct r as [[]|[]]; done. }
  destruct (fs (state w)) as [h|] eqn:Hfsw.
  - apply Hloop. by rewrite Hfsw.
  - destruct (connect_ok B (events w) (get_filesystem_kw env)).
    + apply Hloop. by eexists.
    + by intros [= <- <-].
Qed.

(** The factory calls of a session: one for each call whose connection
    failed, and one more when a handle is cached. *)
Lemma session_connect_calls env lrp trees : ∀ w rs w',
  session B env lrp trees w = (rs, w') →
  connect_calls (events w') + handles w
  = connect_calls (events w) + failed_connects rs + handles w'.
Proof.
  induction trees as [|tree trees IH]; intros w rs w'.
  - intros [= <- <-]. unfold failed_connects. simpl. lia.
  - rewrite session_cons.
    destruct (fn B env lrp tree w) as [r w1] eqn:Hfn.
    destruct (session B env lrp trees w1) as [rs' w2] eqn:Hs. intros [= <- <-].
    apply IH in Hs. pose proof (fn_connect_error _ _ _ _ _ _ Hfn) as Hce.
    apply fn_connection in Hfn. unfold handles in *.
    assert (failed_connects (r :: rs')
            = (if is_connect_error r then 1 else 0) + failed_connects rs') as ->.
    { unfold failed_connects. simpl. by destruct (is_connect_error r). }
    destruct (fs (state w)) as [h|].
    + destruct Hfn as (Hfs1 & Hc1 & _). rewrite Hfs1 in Hs, Hce.
      destruct (is_connect_error r); [by pose proof (proj1 Hce eq_refl)|]. lia.
    + destruct Hfn as (Hc1 & [(Hfs1 & -> & _) | (Hfs1 & _)]); rewrite Hfs1 in Hs, Hce.
      * simpl. lia.
      * destruct (is_connect_error r); [by pose proof (proj1 Hce eq_refl)|]. lia.
Qed.

End Session.

(** C7: building the sync function connects to nothing and leaves the
    cached-handle field unset; a call that finds the field unset calls the
    connection factory exactly once, and the field stays unset only if that
    connection raised; once the field holds a handle, no later call of the
    session replaces it or calls the factory, and every transfer goes
    through that handle; so a session makes at most one connection however
    many calls it has, and it has called the factory once for each call
    that raised the error of a failed connection, and once more when it
    ends with a handle. *)
Theorem C7_lazy_connection (B : backend) (self : HDFSStore) (run_id : string)
    (t : trace) :
  (∃ env, sync_fn self run_id t = (Ok (env, mkSyncState None ∅), t) ∧
          get_filesystem_kw env = _hdfs_kwargs self) ∧
  (∀ env lrp tree w r w',
     fs (state w) = None → fn B env lrp tree w = (r, w') →
     connect_calls (events w') = connect_calls (events w) + 1 ∧
     (fs (state w') = None → r = Raise ConnectError) ∧
     (r ≠ Raise ConnectError → fs (state w') = Some (length (events w)))) ∧
  (∀ env lrp trees w h rs w',
     fs (state w) = Some h → session B env lrp trees w = (rs, w') →
     fs (state w') = Some h ∧
     connect_calls (events w') = connect_calls (events w) ∧
     ∃ delta, events w' = events w ++ delta ∧ Forall (uses_handle h) delta) ∧
  (∀ env lrp trees ledger rs w',
     session B env lrp trees (World (mkSyncState None ledger) t) = (rs, w') →
     connections (events w') ≤ connections t + 1 ∧
     connect_calls (events w')
     = connect_calls t + failed_connects rs + handles w').
Proof.
  split; [by eexists|]. split; [|split].
  - intros env lrp tree w r w' Hfs Hfn. apply fn_connection in Hfn.
    rewrite Hfs in Hfn. destruct Hfn as (Hc & [(Hn & -> & _) | (Hs & _)]).
    + done.
    + split; [done|]. split; [|done]. intros Hn. congruence.
  - intros env lrp trees w h rs w' Hfs Hs.
    destruct (session_cached B _ _ _ _ _ _ _ Hfs Hs) as (? & ? & _ & ?). done.
  - intros env lrp trees ledger rs w' Hs. split.
    + by apply (session_connections B) in Hs.
    + apply (session_connect_calls B) in Hs. unfold handles at 1 in Hs.
      simpl in Hs. lia.
Qed.

Lemma C7_lazy_connection_witness :
  ∃ w1 rs w2,
    fn backend_up env_run42 scratch tree_two world0 = (Ok tt, w1) ∧
    fs (state w1) = Some 0 ∧
    session backend_up env_run42 scratch [tree_two; tree_two] w1 = (rs, w2) ∧
    fs (state w2) = Some 0 ∧
    connect_calls (events w2) = connect_calls (events w1) ∧
    ∃ delta, events w2 = events w1 ++ delta ∧ Forall (uses_handle 0) delta.
Proof.
  destruct (fn backend_up env_run42 scratch tree_two world0) as [r w1] eqn:Hfn.
  destruct (session backend_up env_run42 scratch [tree_two; tree_two] w1)
    as [rs w2] eqn:Hs.
  assert (r = Ok tt ∧ fs (state w1) = Some 0) as [-> Hfs].
  { vm_compute in Hfn. by injection Hfn as <- <-. }
  exists w1, rs, w2. split; [done|]. split; [done|]. split; [done|].
  exact (proj1 (proj2 (proj2 (C7_lazy_connection backend_up store_nn "run42" [])))
           env_run42 scratch [tree_two; tree_two] w1 0 rs w2 Hfs Hs).
Defined.

Lemma C7_lazy_connection_counterexample :
  ∃ w1 w2,
    fn backend_late env_run42 scratch tree_two world0 = (Raise ConnectError, w1) ∧
    fn backend_late env_run42 scratch tree_two w1 = (Ok tt, w2) ∧
    connect_calls (events w1) = 1 ∧ connect_calls (events w2) = 2 ∧
    session backend_late env_run42 scratch [tree_two; tree_two] world0
    = ([Raise ConnectError; Ok tt], w2).
Proof.
  eexists _, _. split; [vm_compute; reflexivity|].
  split; [vm_compute; reflexivity|]. split; [reflexivity|]. split; [reflexivity|].
  vm_compute. reflexivity.
Qed.
(** ** The decision rule, idempotence and monotonicity *)
Section Decision.
Variable B : backend.
Implicit Types (w : world) (v : visit) (vs : list visit).

Lemma NoDup_map_app_l {X Y} (f : X → Y) (l1 l2 : list X) :
  NoDup (map f (l1 ++ l2)) → NoDup (map f l1).
Proof. rewrite map_app. by intros (? & _ & _)%NoDup_app. Qed.

Lemma blocked_concat (ls : list (list (option visit))) :
  Forall (λ l, blocked l = false) ls → blocked (concat ls) = false.
Proof.
  induction 1 as [|l ls Hl _ IH]; [done|].
  simpl. by rewrite blocked_app, Hl, IH.
Qed.

Lemma all_reachable_walk tree : ∀ top,
  all_reachable tree = true →
  Forall (λ item, Forall (λ f, is_Some (snd f)) (snd item)) (os_walk top tree).
Proof.
  induction tree as [m|es IH|] using node_ind'; intros top Hall; [constructor| |constructor].
  simpl os_walk. simpl in Hall. constructor.
  - simpl. clear IH. induction es as [|[n c] es IHes]; [constructor|].
    simpl in Hall. apply andb_true_iff in Hall as [Hc Hall].
    destruct c as [m|sub|]; simpl; [constructor; [by eexists|] | |done]; by apply IHes.
  - induction es as [|[n c] es IHes]; [constructor|].
    simpl in Hall. apply andb_true_iff in Hall as [Hc Hall].
    apply Forall_cons in IH as [IHc IH]. simpl. apply Forall_app. split.
    + by apply IHc.
    + by apply IHes.
Qed.

(** In a tree without unreadable entries the walk reads every
    modification time. *)
Lemma all_reachable_clear root lrp tree :
  all_reachable tree = true → blocked (steps root lrp tree) = false.
Proof.
  intros Hall. unfold steps. apply blocked_concat, Forall_fmap.
  eapply Forall_impl; [by apply all_reachable_walk|].
  intros [[local_dir dirs] files] Hf. simpl in *.
  induction Hf as [|[name [m|]] files [m' Hm] _ IH]; simpl; try done.
Qed.

(** The second of two calls on trees whose visits are all covered by the
    ledger transfers nothing and returns. *)
Lemma fn_all_covered env lrp tree w r w' :
  is_Some (fs (state w)) →
  blocked (steps (hdfs_root_path env) lrp tree) = false →
  (∀ x, x ∈ visited (hdfs_root_path env) lrp tree → covered (uploaded (state w)) x) →
  fn B env lrp tree w = (r, w') →
  r = Ok tt ∧ uploaded (state w') = uploaded (state w) ∧
  upload_attempts (events w') = upload_attempts (events w) ∧
  uploads (events w') = uploads (events w).
Proof.
  intros Hfs Hclear Hcov Hfn.
  apply fn_summary in Hfn as (done_ & rest_ & Hvis & Hled & Hup & _ & Hr).
  destruct (pending_covered (uploaded (state w)) done_) as [Hp Hl].
  { intros x Hx. apply Hcov. rewrite Hvis. apply elem_of_app. by left. }
  rewrite Hp, app_nil_r in Hup. rewrite Hl in Hled.
  destruct r as [[]|e].
  - destruct Hr as (_ & _ & Hatt). by rewrite Hp, app_nil_r in Hatt.
  - exfalso. destruct e as [|msg| | |msg];
      try (destruct Hr as [Hnone _]; rewrite Hnone in Hfs; by destruct Hfs).
    + destruct Hr as (_ & v & rest' & -> & Hs & _). rewrite Hl in Hs.
      eapply covered_not_should; [|exact Hs]. apply Hcov. rewrite Hvis.
      apply elem_of_app. right. by left.
    + destruct Hr as (_ & Hb & _). congruence.
Qed.

End Decision.



(** ** A transfer that fails *)
Section Failure.

Lemma NoDup_map_filter {X Y} (f : X → Y) (P : X → Prop) `{∀ x, Decision (P x)}
    (l : list X) :
  NoDup (map f l) → NoDup (map f (filter P l)).
Proof.
  induction l as [|a l IH]; simpl; [done|].
  intros [Ha Hnd]%NoDup_cons. rewrite filter_cons.
  destruct (decide (P a)); [|by apply IH]. simpl. apply NoDup_cons.
  split; [|by apply IH]. intros (x & E & Hx)%list_elem_of_fmap.
  apply list_elem_of_filter in Hx as [_ Hx].
  apply Ha, list_elem_of_fmap. by exists x.
Qed.

End Failure.

(** C2: when a call raises because a transfer failed, on a well-formed
    scratch directory, the ledger entry of the file whose transfer
    failed is what it was before the call, nothing after that file was
    tried, and the files handled before it are covered by the ledger with
    the timestamps of their transfers; a retry on the unchanged tree tries
    none of the files handled before the failure, and, when it returns, has
    transferred the failed file and what the aborted walk had left; a file
    transferred before the failure is transferred exactly once over both
    calls. *)
Theorem C2_failed_upload (B : backend) (env : sync_env) (lrp : string)
    (tree : node) (w w1 : world) :
  let vis := visited (hdfs_root_path env) lrp tree in
  let u := uploaded (state w) in
  wf_tree tree = true →
  fn B env lrp tree w = (Raise UploadError, w1) →
  ∃ done_ v rest_,
    vis = done_ ++ v :: rest_ ∧ should_upload u v ∧
    uploaded (state w1) !! v_local v = u !! v_local v ∧
    uploads (events w1)
      = uploads (events w) ++ map v_local (filter (should_upload u) done_) ∧
    upload_attempts (events w1)
      = upload_attempts (events w) ++ map v_local (filter (should_upload u) done_)
        ++ [v_local v] ∧
    (∀ x, x ∈ done_ →
          covered (uploaded (state w1)) x ∧
          (should_upload u x → uploaded (state w1) !! v_local x = Some (v_ts x))) ∧
    (∀ r2 w2, fn B env lrp tree w1 = (r2, w2) →
       ∃ att2 up2,
         upload_attempts (events w2) = upload_attempts (events w1) ++ att2 ∧
         uploads (events w2) = uploads (events w1) ++ up2 ∧
         (∀ x, x ∈ done_ → v_local x ∉ att2) ∧
         (r2 = Ok tt →
          att2 = v_local v :: map v_local (filter (should_upload u) rest_) ∧
          up2 = att2) ∧
         (∀ x, x ∈ done_ → should_upload u x →
               occurrences (v_local x)
                 (map v_local (filter (should_upload u) done_) ++ up2) = 1)).
Proof.
  intros vis u Hwf Hfn.
  pose proof (wf_tree_NoDup (hdfs_root_path env) lrp tree Hwf) as Hnd. fold vis in Hnd.
  apply fn_summary in Hfn as (done_ & rest0 & Hvis & Hled & Hup & _ & Hr).
  fold vis u in Hvis, Hled, Hup, Hr.
  destruct Hr as (Hfs1 & v & rest_ & -> & Hsv & Hatt).
  assert (NoDup (map v_local done_)) as Hnd_done.
  { apply (NoDup_map_app_l v_local done_ (v :: rest_)). by rewrite <- Hvis. }
  pose proof Hnd as Hnd'. rewrite Hvis, map_app in Hnd'. simpl in Hnd'.
  apply NoDup_app in Hnd' as (_ & Hdisj & Hnd_rest).
  apply NoDup_cons in Hnd_rest as [Hv_rest _].
  assert (∀ x, x ∈ v :: rest_ →
            ledger_after u done_ !! v_local x = u !! v_local x) as Hsame.
  { intros x Hx. apply ledger_after_other. intros Hin. apply (Hdisj _ Hin).
    change (v_local x ∈ map v_local (v :: rest_)).
    apply list_elem_of_fmap. by exists x. }
  assert (should_upload u v) as Hsv0.
  { unfold should_upload in *. rewrite Hsame in Hsv by (by left). done. }
  rewrite pending_filter in Hup, Hatt by done.
  set (u1 := uploaded (state w1)) in *.
  assert (∀ x, x ∈ done_ → covered u1 x) as Hcov.
  { intros x Hx. rewrite Hled. by apply visited_covered. }
  assert (∀ x y, x ∈ done_ → y ∈ vis → ¬ covered u1 y → v_local x ≠ v_local y) as Hsep.
  { intros x y Hx Hy Hn E. apply Hn.
    rewrite <- (NoDup_map_inj_elem v_local vis x y Hnd); [by apply Hcov| |done|done].
    rewrite Hvis. apply elem_of_app. by left. }
  exists done_, v, rest_. split; [done|]. split; [done|].
  split; [by rewrite Hled, Hsame by (by left)|]. split; [done|]. split; [done|].
  split.
  { intros x Hx. split; [by apply Hcov|]. intros Hsx.
    apply list_elem_of_split in Hx as (l1 & l2 & ->). rewrite Hled.
    apply ledger_after_exact; [done|]. intros last Hl.
    destruct Hsx as [Hnone | (last' & Hl' & Hlt)]; [congruence|].
    assert (last = last') by congruence. lia. }
  intros r2 w2 Hfn2.
  apply fn_summary in Hfn2 as (done2 & rest2 & Hvis2 & _ & Hup2 & _ & Hr2).
  fold vis u1 in Hvis2, Hup2, Hr2.
  assert (∀ y, y ∈ pending u1 done2 → y ∈ vis ∧ ¬ covered u1 y) as Hpend.
  { intros y Hy. split; [|by eapply pending_not_covered].
    rewrite Hvis2. apply elem_of_app. left. by eapply pending_elem. }
  assert (∀ x, x ∈ done_ → v_local x ∉ map v_local (pending u1 done2)) as Hfresh.
  { intros x Hx (y & E & Hy)%list_elem_of_fmap. destruct (Hpend y Hy) as [Hyv Hyn].
    by apply (Hsep x y). }
  assert (∀ x, x ∈ done_ → should_upload u x →
            occurrences (v_local x)
              (map v_local (filter (should_upload u) done_)
               ++ map v_local (pending u1 done2)) = 1) as Honce.
  { intros x Hx Hsx. rewrite occurrences_app, (occurrences_absent _ (map _ (pending _ _)))
      by (by apply Hfresh).
    rewrite occurrences_once; [done | by apply NoDup_map_filter |].
    apply list_elem_of_fmap. exists x. split; [done|]. by apply list_elem_of_filter. }
  destruct r2 as [[]|e].
  - destruct Hr2 as (-> & _ & Hatt2). rewrite app_nil_r in Hvis2. subst done2.
    exists (map v_local (pending u1 vis)), (map v_local (pending u1 vis)).
    split; [done|]. split; [done|]. split; [done|]. split; [|done].
    intros _. split; [|done]. rewrite pending_filter by done.
    rewrite Hvis, filter_app, filter_cons.
    rewrite filter_none by (intros x Hx; by apply covered_not_should, Hcov).
    rewrite decide_True.
    2:{ unfold should_upload. rewrite Hled, Hsame by (by left). done. }
    simpl. f_equal. f_equal. apply filter_ext_elem. intros x Hx.
    unfold should_upload. rewrite Hled, Hsame by (by right). done.
  - destruct e as [|msg| | |msg];
      try (destruct Hr2 as [Hnone _]; rewrite Hnone in Hfs1; by destruct Hfs1).
    2:{ destruct Hr2 as (_ & _ & _ & Hatt2).
        exists (map v_local (pending u1 done2)), (map v_local (pending u1 done2)).
        split; [done|]. split; [done|]. split; [done|]. split; [done|done]. }
    destruct Hr2 as (_ & v2 & rest2' & -> & Hs2 & Hatt2).
    exists (map v_local (pending u1 done2) ++ [v_local v2]),
           (map v_local (pending u1 done2)).
    split; [done|]. split; [done|]. split; [|split; [done|done]].
    intros x Hx [Hin|Hin]%elem_of_app; [by apply (Hfresh x)|].
    apply list_elem_of_singleton in Hin. apply (Hsep x v2 Hx); [| |done].
    + rewrite Hvis2. apply elem_of_app. right. by left.
    + intros Hc. eapply covered_not_should; [|exact Hs2].
      by apply covered_ledger_after.
Qed.

Lemma C2_failed_upload_witness :
  ∃ w1 w2,
    fn backend_f2_once env_run42 scratch tree_pair world0 = (Raise UploadError, w1) ∧
    upload_attempts (events w1) = ["/tmp/tmpab/F1"; "/tmp/tmpab/F2"] ∧
    uploads (events w1) = ["/tmp/tmpab/F1"] ∧
    fn backend_f2_once env_run42 scratch tree_pair w1 = (Ok tt, w2) ∧
    upload_attempts (events w2) = upload_attempts (events w1) ++ ["/tmp/tmpab/F2"] ∧
    uploads (events w2) = ["/tmp/tmpab/F1"; "/tmp/tmpab/F2"] ∧
    ∃ done_ v rest_,
      visited (hdfs_root_path env_run42) scratch tree_pair = done_ ++ v :: rest_ ∧
      uploaded (state w1) !! v_local v = uploaded (state world0) !! v_local v.
Proof.
  destruct (fn backend_f2_once env_run42 scratch tree_pair world0) as [r1 w1] eqn:Hfn1.
  destruct (fn backend_f2_once env_run42 scratch tree_pair w1) as [r2 w2] eqn:Hfn2.
  assert (r1 = Raise UploadError ∧
          upload_attempts (events w1) = ["/tmp/tmpab/F1"; "/tmp/tmpab/F2"] ∧
          uploads (events w1) = ["/tmp/tmpab/F1"]) as (-> & Ha1 & Hu1).
  { vm_compute in Hfn1. by injection Hfn1 as <- <-. }
  assert (r2 = Ok tt ∧
          upload_attempts (events w2)
          = upload_attempts (events w1) ++ ["/tmp/tmpab/F2"] ∧
          uploads (events w2) = ["/tmp/tmpab/F1"; "/tmp/tmpab/F2"])
    as (-> & Ha2 & Hu2).
  { clear -Hfn1 Hfn2. vm_compute in Hfn1. injection Hfn1 as <-.
    vm_compute in Hfn2. by injection Hfn2 as <- <-. }
  assert (wf_tree tree_pair = true) as Hwf by (by vm_compute).
  destruct (C2_failed_upload backend_f2_once env_run42 scratch tree_pair world0 w1
              Hwf Hfn1) as (done_ & v & rest_ & Hvis & _ & Hkeep & _).
  exists w1, w2. repeat split; try done. by exists done_, v, rest_.
Defined.
(** ** Local and remote paths of a file *)
Section Paths.

Lemma valid_name_rel_ok n : valid_name n = true → rel_ok n = true.
Proof.
  unfold valid_name, rel_ok, no_trailing_sep.
  intros [Hne Hc]%andb_true_iff. apply negb_true_iff in Hc.
  rewrite Hne, (no_sep_endswith n Hc). destruct n as [|c n]; [done|].
  apply contains_sep_cons in Hc as [Hc _]. simpl. by rewrite Hc.
Qed.

Lemma no_trailing_sep_inv p :
  no_trailing_sep p = true → p ≠ EmptyString ∧ endswith SEP p = false.
Proof.
  unfold no_trailing_sep. intros [H1 H2]%andb_true_iff.
  apply negb_true_iff in H1, H2. by apply bool_decide_eq_false in H1.
Qed.

Lemma rel_ok_inv p :
  rel_ok p = true →
  startswith SEP p = false ∧ p ≠ EmptyString ∧ endswith SEP p = false.
Proof.
  unfold rel_ok. intros [H1 H2]%andb_true_iff. apply negb_true_iff in H1.
  by apply no_trailing_sep_inv in H2.
Qed.

Lemma no_trailing_sep_intro p :
  p ≠ EmptyString → endswith SEP p = false → no_trailing_sep p = true.
Proof.
  intros H1 H2. unfold no_trailing_sep. rewrite H2.
  by rewrite bool_decide_eq_false_2.
Qed.

(** [os.path.join] puts one separator between a path without trailing
    separator and a relative path. *)
Lemma join_sep a n :
  no_trailing_sep a = true → rel_ok n = true →
  os_path_join a n = a +:+ String SEP n ∧
  no_trailing_sep (a +:+ String SEP n) = true.
Proof.
  intros [Ha1 Ha2]%no_trailing_sep_inv (Hn1 & Hn2 & Hn3)%rel_ok_inv.
  unfold os_path_join. rewrite Hn1, Ha2. split; [by destruct a|].
  apply no_trailing_sep_intro; [by destruct a|].
  rewrite endswith_suffix by done. simpl. by destruct n.
Qed.

Lemma join_names_cons n names :
  names ≠ [] → join_names (n :: names) = n +:+ String SEP (join_names names).
Proof. by destruct names. Qed.

Lemma join_names_snoc names f :
  names ≠ [] →
  join_names (names ++ [f]) = join_names names +:+ String SEP f.
Proof.
  induction names as [|n names IH]; [done|]. intros _.
  destruct names as [|n' names]; [done|].
  change ((n :: n' :: names) ++ [f]) with (n :: ((n' :: names) ++ [f])).
  rewrite !join_names_cons, IH by done. by rewrite app_assoc_str, app_cons.
Qed.

Lemma join_names_rel_ok names :
  names ≠ [] → Forall (λ n, valid_name n = true) names →
  rel_ok (join_names names) = true.
Proof.
  induction names as [|n names IH]; [done|]. intros _ [Hn Hall]%Forall_cons.
  destruct names as [|n' names]; [by apply valid_name_rel_ok|].
  rewrite join_names_cons by done.
  apply valid_name_rel_ok, rel_ok_inv in Hn as (Hn1 & Hn2 & Hn3).
  destruct (rel_ok_inv _ (IH ltac:(done) Hall)) as (Hr1 & Hr2 & Hr3).
  unfold rel_ok. apply andb_true_iff. split.
  - destruct n; [done|]. simpl in *. by rewrite Hn1.
  - apply no_trailing_sep_intro; [by destruct n|].
    rewrite endswith_suffix by done. by rewrite endswith_cons.
Qed.

(** The directory path [os.walk] builds for a chain of entry names. *)
Lemma walk_path top ds :
  no_trailing_sep top = true → Forall (λ n, valid_name n = true) ds →
  foldl os_path_join top ds
    = match ds with
      | [] => top
      | _ => top +:+ String SEP (join_names ds)
      end ∧
  no_trailing_sep (foldl os_path_join top ds) = true.
Proof.
  revert top. induction ds as [|d ds IH]; intros top Htop Hall; [done|].
  apply Forall_cons in Hall as [Hd Hall].
  destruct (join_sep top d Htop (valid_name_rel_ok d Hd)) as [Hj Hnt].
  simpl foldl. rewrite Hj. destruct (IH _ Hnt Hall) as [Hp Hn].
  split; [|done]. rewrite Hp. destruct ds as [|d' ds]; [done|].
  rewrite (join_names_cons d) by done. by rewrite app_assoc_str, app_cons.
Qed.

Lemma lookup_entry_elem name es child :
  lookup_entry name es = Some child → (name, child) ∈ es.
Proof.
  induction es as [|[n c] es IH]; simpl; [done|].
  destruct (bool_decide (n = name)) eqn:E.
  - apply bool_decide_eq_true in E as ->. intros [= ->]. by left.
  - intros H. right. by apply IH.
Qed.

Lemma filenames_elem name m es :
  (name, File m) ∈ es → (name, Some m) ∈ filenames es.
Proof.
  induction es as [|[n c] es IH]; [by intros ?%elem_of_nil|].
  intros [[= <- <-]|Hin]%elem_of_cons; simpl.
  - by left.
  - destruct c; [right| |right]; by apply IH.
Qed.

(** The names on the way to a file of a well-formed tree are valid. *)
Lemma find_file_valid path : ∀ tree m,
  wf_tree tree = true → find_file path tree = Some m →
  Forall (λ n, valid_name n = true) path.
Proof.
  induction path as [|name path IH]; intros tree m Hwf; [done|].
  destruct tree as [|es|]; [done| |done]. simpl.
  destruct (lookup_entry name es) as [child|] eqn:Hl; [|done]. intros Hf.
  apply wf_tree_dir in Hwf as (Hvalid & _ & Hsub).
  apply lookup_entry_elem in Hl. apply Forall_cons. split.
  - apply (proj1 (Forall_forall _ _) Hvalid), list_elem_of_fmap.
    by exists (name, child).
  - apply (IH child m); [|done]. by apply (proj1 (Forall_forall _ _) Hsub _ Hl).
Qed.

(** The walk reaches the directory of every file of the tree. *)
Lemma walk_finds ds : ∀ top tree f m,
  find_file (ds ++ [f]) tree = Some m →
  ∃ dirs files,
    (foldl os_path_join top ds, dirs, files) ∈ os_walk top tree ∧
    (f, Some m) ∈ files.
Proof.
  induction ds as [|d ds IH]; intros top tree f m; simpl.
  - destruct tree as [|es|]; [done| |done].
    destruct (lookup_entry f es) as [[m'| |]|] eqn:Hl; [|done..].
    intros [= ->]. exists (dirnames es), (filenames es). split; [by left|].
    by apply filenames_elem, lookup_entry_elem.
  - destruct tree as [|es|]; [done| |done].
    destruct (lookup_entry d es) as [child|] eqn:Hl; [|done].
    intros Hf. destruct (IH (os_path_join top d) child f m Hf)
      as (dirs & files & Hin & Hfile).
    exists dirs, files. split; [|done]. right.
    apply list_elem_of_In, in_concat.
    exists (os_walk (os_path_join top d) child). split; [|by apply list_elem_of_In].
    apply in_map_iff. exists (d, child). split; [done|].
    by apply list_elem_of_In, lookup_entry_elem.
Qed.

Lemma visited_elem root lrp tree local_dir dirs files f m :
  (local_dir, dirs, files) ∈ os_walk lrp tree → (f, Some m) ∈ files →
  Visit (os_path_join local_dir f) (int_of_float m)
        (os_path_join (os_path_join root (drop_str (len lrp + 1) local_dir)) f)
  ∈ visited root lrp tree.
Proof.
  intros Hw Hf. unfold visited. apply list_elem_of_In, in_concat.
  exists (visits_of root (len lrp + 1) (local_dir, dirs, files)). split.
  - apply in_map_iff. exists (local_dir, dirs, files). split; [done|].
    by apply list_elem_of_In.
  - apply list_elem_of_In. unfold visits_of.
    apply list_elem_of_fmap. exists (f, m). split; [done|].
    by apply reachable_elem.
Qed.

(** Slicing the directory path at [len(local_run_path) + 1] leaves the
    path relative to the scratch root. *)
Lemma strip_scratch_root lrp ds :
  no_trailing_sep lrp = true → Forall (λ n, valid_name n = true) ds →
  drop_str (len lrp + 1) (foldl os_path_join lrp ds) = join_names ds.
Proof.
  intros Hl Hall. destruct (walk_path lrp ds Hl Hall) as [-> _].
  destruct ds as [|d ds].
  - apply drop_str_ge. lia.
  - by rewrite drop_str_add, drop_str_app.
Qed.

(** The remote target as a string. *)
Lemma remote_target root ds f :
  no_trailing_sep root = true → Forall (λ n, valid_name n = true) (ds ++ [f]) →
  os_path_join (os_path_join root (join_names ds)) f
    = root +:+ String SEP (join_names (ds ++ [f])).
Proof.
  intros Hroot [Hds Hf]%Forall_app. apply Forall_cons in Hf as [Hf _].
  pose proof (valid_name_rel_ok f Hf) as Hrf.
  destruct ds as [|d ds].
  - simpl join_names. destruct (no_trailing_sep_inv _ Hroot) as [Hr1 Hr2].
    destruct (rel_ok_inv _ Hrf) as (Hf1 & Hf2 & Hf3).
    assert (os_path_join root EmptyString = root +:+ String SEP EmptyString) as ->.
    { unfold os_path_join. simpl. rewrite Hr2. by destruct root. }
    unfold os_path_join. rewrite Hf1, endswith_app, orb_true_r.
    by rewrite app_assoc_str, app_cons.
  - pose proof (join_names_rel_ok (d :: ds) ltac:(done) Hds) as Hrel.
    destruct (join_sep root _ Hroot Hrel) as [-> Hnt].
    destruct (join_sep _ f Hnt Hrf) as [-> _].
    rewrite join_names_snoc by done. by rewrite !app_assoc_str, !app_cons.
Qed.

End Paths.
(** ** Calls that return *)
Section Returns.
Variable B : backend.



End Returns.




(** ** The scratch directory *)
Section ScratchFacts.

Lemma mkdtemp_loop_ok dir cands st : ∀ ps d s1,
  mkdtemp_loop dir cands ps st = (Ok d, s1) →
  (d ∉ ps) ∧ paths s1 = {[d]} ∪ ps ∧ stuck s1 = st.
Proof.
  induction cands as [|n cands IH]; intros ps d s1; simpl; [done|].
  destruct (bool_decide (os_path_join dir ("tmp" +:+ n) ∈ ps)) eqn:Hex.
  - apply IH.
  - apply bool_decide_eq_false in Hex.
    destruct (bool_decide (dir ∈ ps)); [|done]. by intros [= <- <-].
Qed.

(** [rmtree] on a tree that it can remove. *)
Lemma rmtree_gone d s r s' :
  stuck s !! d = None → rmtree d s = (r, s') → d ∉ paths s'.
Proof.
  unfold rmtree. intros ->. destruct (bool_decide (d ∈ paths s)) eqn:Hin.
  - intros [= <- <-]. simpl. rewrite elem_of_filter. intros [Hu _].
    unfold under in Hu. by rewrite bool_decide_eq_true_2 in Hu.
  - apply bool_decide_eq_false in Hin. by intros [= <- <-].
Qed.

(** [rmtree] on a tree that it cannot remove. *)
Lemma rmtree_stuck d s kept :
  d ∈ paths s → stuck s !! d = Some kept →
  ∃ s', rmtree d s = (Raise (OSError "Cannot remove the directory tree"), s') ∧
        d ∈ paths s'.
Proof.
  intros Hin Hk. unfold rmtree. rewrite bool_decide_eq_true_2, Hk by done.
  eexists. split; [done|]. simpl. apply elem_of_filter. split; [|done].
  right. by left.
Qed.

End ScratchFacts.

(** C8: when the context manager is entered, the directory [mkdtemp]
    returns did not exist before and exists while the block runs; however
    the block ends, by returning or by raising, [rmtree] runs; when
    [rmtree] can remove the directory, the directory does not exist
    afterwards, and if it was still there at the end of the block, nothing
    below it is left and the outcome of the block is the outcome of the
    whole; when it cannot, the scope raises the error of [rmtree] and the
    directory still exists. *)
Theorem C8_scratch_dir_removed {A : Type} (gettempdir : string) (self : HDFSStore)
    (run_id : string) (body : string → M os_state A) (s s1 : os_state) (d : string) :
  mkdtemp gettempdir (_temp_dir self) s = (Ok d, s1) →
  (d ∉ paths s) ∧ d ∈ paths s1 ∧
  ∃ rb s2 r s',
    body d s1 = (rb, s2) ∧
    get_local_output_dir_fn gettempdir self run_id body s = (r, s') ∧
    (stuck s2 !! d = None →
     (d ∉ paths s') ∧
     (d ∈ paths s2 → r = rb ∧ ∀ p, under d p = true → p ∉ paths s')) ∧
    (d ∈ paths s2 → is_Some (stuck s2 !! d) →
     r = Raise (OSError "Cannot remove the directory tree") ∧ d ∈ paths s').
Proof.
  intros Hmk. pose proof Hmk as Hmk'. unfold mkdtemp in Hmk'.
  apply mkdtemp_loop_ok in Hmk' as (Hfresh & Hpaths & _).
  split; [done|]. split; [rewrite Hpaths; apply elem_of_union; left; by apply elem_of_singleton|].
  destruct (body d s1) as [rb s2] eqn:Hbody.
  destruct (rmtree d s2) as [rr s3] eqn:Hrm.
  exists rb, s2, (match rr with Ok _ => rb | Raise e => Raise e end), s3.
  split; [done|]. split.
  { unfold get_local_output_dir_fn, with_local_run_path. rewrite Hmk, Hbody, Hrm.
    by destruct rr. }
  split.
  - intros Hfree. split; [by eapply rmtree_gone|].
    intros Hin. unfold rmtree in Hrm.
    rewrite bool_decide_eq_true_2, Hfree in Hrm by done.
    injection Hrm as <- <-. split; [done|]. intros p Hp. simpl.
    rewrite elem_of_filter. intros [Hu _]. congruence.
  - intros Hin [kept Hk]. destruct (rmtree_stuck d s2 kept Hin Hk) as (s4 & Hrm' & Hin').
    rewrite Hrm' in Hrm. by injection Hrm as <- <-.
Qed.

Lemma C8_scratch_dir_removed_witness :
  ∃ d r s',
    d = "/tmp/tmpab" ∧
    get_local_output_dir_fn "/tmp" store_nn "run42" failing_block os0 = (r, s') ∧
    r = Raise (OSError "injected") ∧
    (d ∉ paths s') ∧ ("/tmp/tmpab/model.ckpt" ∉ paths s').
Proof.
  destruct (mkdtemp "/tmp" (_temp_dir store_nn) os0) as [rd s1] eqn:Hmk.
  assert (rd = Ok "/tmp/tmpab" ∧ stuck s1 = ∅) as [-> Hst].
  { vm_compute in Hmk. by injection Hmk as <- <-. }
  destruct (C8_scratch_dir_removed "/tmp" store_nn "run42" failing_block os0 s1
              "/tmp/tmpab" Hmk)
    as (_ & Hin & rb & s2 & r & s' & Hbody & Hwith & Hgone & _).
  assert (rb = Raise (OSError "injected") ∧ "/tmp/tmpab" ∈ paths s2 ∧
          stuck s2 = ∅) as (-> & Hin2 & Hst2).
  { unfold failing_block in Hbody. injection Hbody as <- <-. split; [done|].
    simpl. split; [|done]. apply elem_of_union. by right. }
  destruct Hgone as [Hgone Hrec]; [by rewrite Hst2|].
  destruct (Hrec Hin2) as [-> Hbelow].
  exists "/tmp/tmpab", (Raise (OSError "injected")), s'.
  repeat split; try done. apply Hbelow. by vm_compute.
Defined.

Lemma C8_scratch_dir_removed_counterexample :
  ∃ s',
    get_local_output_dir_fn "/tmp" store_nn "run42" locking_block os0
    = (Raise (OSError "Cannot remove the directory tree"), s') ∧
    "/tmp/tmpab" ∈ paths s' ∧ "/tmp/tmpab/model.ckpt" ∈ paths s'.
Proof.
  eexists. split; [vm_compute; reflexivity|]. split; vm_compute; reflexivity.
Qed.
(** ** Construction, beyond the statements about host and port *)
Section ConstructionMore.
Variable B : backend.


Lemma check_url_raise_inv url prefix path e :
  _check_url url prefix path = Raise e → ∃ msg, e = ValueError msg.
Proof.
  unfold _check_url. destruct prefix as [p|].
  - case_bool_decide; [intros [= <-]; by eexists|].
    destruct (falsy_str path); [intros [= <-]; by eexists | done].
  - destruct (falsy_str path); [intros [= <-]; by eexists | done].
Qed.



Lemma take_authority u :
  slice_to (Z.of_nat (len (authority_text u))) (unparse u) = authority_text u.
Proof.
  rewrite slice_to_nat. unfold unparse. apply take_str_app.
Qed.

(** The steps of [__init__] on a location spelt from parts. *)
Lemma init_parts u host port user kerb_ticket extra_conf temp_dir t :
  parse_url (unparse u) = Ok (parsed_of u) →
  (up_scheme u = None ∨ up_scheme u = Some "hdfs") →
  (∃ c s, up_path u = Some (String c s)) →
  let kw := HdfsKwargs (effective_host host (up_host u))
                       (effective_port port (p_port (parsed_of u)))
                       user kerb_ticket extra_conf in
  __init__ B (unparse u) host port user kerb_ticket extra_conf temp_dir t =
  if connect_ok B t kw
  then (Ok (mkHDFSStore temp_dir
              (match up_scheme u with
               | Some _ => authority_text u
               | None => FS_PREFIX
               end)
              kw (length t) (FilesystemStore_init (unparse u))),
        t ++ [EConnect kw (Some (length t))])
  else (Raise ConnectError, t ++ [EConnect kw None]).
Proof.
  intros Hp Hs (c & s & Hpath) kw.
  unfold __init__, mbind, lift_result, _get_filesystem_fn, pa_hdfs_connect, mret.
  rewrite Hp.
  assert (_check_url (unparse u) (p_prefix (parsed_of u)) (p_path (parsed_of u))
          = Ok tt) as ->.
  { unfold parsed_of, prefix_text; simpl. rewrite Hpath.
    by destruct Hs as [-> | ->]. }
  change (p_host (parsed_of u)) with (up_host u). fold kw.
  destruct (connect_ok B t kw); [|done].
  do 2 f_equal. f_equal.
  unfold parsed_of, prefix_text; simpl. rewrite Hpath.
  destruct Hs as [-> | ->]; simpl; [done|].
  apply take_authority.
Qed.

End ConstructionMore.


(** X6 ([__init__]): on a location that [parse_url] or [_check_url]
    rejects, the construction raises that same error and nothing has been
    asked of the backend: the [AttributeError] of a pattern that does not
    match, the [ValueError] of [int] on a port of more than 4300 digits, or
    the [ValueError] of [_check_url]. *)
Theorem X6_init_failures
    (B : backend) (prefix_path : string) (host : option string) (port : option Z)
    (user kerb_ticket : option string) (extra_conf : option (list (string * string)))
    (temp_dir : option string) (t : trace) (e : exn) :
  parse_url prefix_path = Raise e ∨
  (∃ p, parse_url prefix_path = Ok p ∧
        _check_url prefix_path (p_prefix p) (p_path p) = Raise e) →
  __init__ B prefix_path host port user kerb_ticket extra_conf temp_dir t = (Raise e, t) ∧
  (e = AttributeError ∨ ∃ msg, e = ValueError msg).
Proof.
  unfold __init__, mbind, lift_result.
  intros [Hp | (p & Hp & Hc)]; rewrite Hp.
  - split; [done|]. rewrite parse_url_unfold in Hp.
    destruct (search URL_PATTERN prefix_path); [|injection Hp as <-; by left].
    destruct (digits_fit _); [done|]. injection Hp as <-. right. by eexists.
  - rewrite Hc. split; [done|]. right. by apply (check_url_raise_inv _ _ _ _ Hc).
Qed.

Lemma X6_init_failures_witness :
  __init__ backend_up url_long_port None None None None None None []
  = (Raise (ValueError "Exceeds the limit (4300 digits) for integer string conversion"),
     []) ∧
  (ValueError "Exceeds the limit (4300 digits) for integer string conversion"
   = AttributeError ∨
   ∃ msg, ValueError "Exceeds the limit (4300 digits) for integer string conversion"
          = ValueError msg).
Proof.
  apply (X6_init_failures backend_up url_long_port None None None None None None []).
  left. vm_compute. reflexivity.
Defined.

(** X7 ([__init__]): on a location written as an optional ["hdfs://"], an
    optional host, an optional [":"] and at most 4300 digits, and a path
    that starts with ["/"], with no further ["://"], the construction
    reaches the connection and asks for exactly one, with the effective
    host and port; it raises when the backend refuses it, and a store it
    returns holds the handle of that connection, the [temp_dir] argument,
    these keyword arguments, and as prefix the location up to its path
    when it was written with ["hdfs://"], the bare ["hdfs://"] otherwise. *)
Theorem X7_init_canonical
    (B : backend) (u : url_parts) (host : option string) (port : option Z)
    (user kerb_ticket : option string) (extra_conf : option (list (string * string)))
    (temp_dir : option string) (t : trace) :
  canonical u = true →
  (up_scheme u = None ∨ up_scheme u = Some "hdfs") →
  up_path u ≠ None →
  digits_fit (up_digits u) = true →
  let kw := HdfsKwargs (effective_host host (up_host u))
                       (effective_port port (p_port (parsed_of u)))
                       user kerb_ticket extra_conf in
  ∃ r, __init__ B (unparse u) host port user kerb_ticket extra_conf temp_dir t
         = (r, t ++ [EConnect kw (if connect_ok B t kw then Some (length t) else None)]) ∧
       (connect_ok B t kw = false → r = Raise ConnectError) ∧
       ∀ st, r = Ok st →
             connect_ok B t kw = true ∧
             _hdfs st = length t ∧ _hdfs_kwargs st = kw ∧ _temp_dir st = temp_dir ∧
             path_prefix st = match up_scheme u with
                              | Some _ => authority_text u
                              | None => FS_PREFIX
                              end.
Proof.
  intros Hu Hs Hpath Hfit kw.
  assert (∃ c s, up_path u = Some (String c s)) as Hpath'.
  { apply canonical_inv in Hu as (_ & _ & _ & H4 & _).
    destruct (up_path u) as [[|c s]|]; [done | by eexists _, _ | done]. }
  rewrite (init_parts B u); [|try done..].
  - fold kw. destruct (connect_ok B t kw); eexists; (split; [reflexivity|]).
    + split; [done|]. by intros st [= <-].
    + split; [done|]. by intros st [=].
  - rewrite (parse_unparse u Hu). unfold parsed_or_error. by rewrite Hfit.
Qed.

Lemma X7_init_canonical_witness :
  ∃ r, __init__ backend_up "nn:8020/a/b" None None None None None (Some "/scratch") []
         = (r, [] ++ [EConnect (HdfsKwargs "nn" 8020 None None None) (Some 0)]) ∧
       (true = false → r = Raise ConnectError) ∧
       ∀ st, r = Ok st →
             true = true ∧
             _hdfs st = 0 ∧ _hdfs_kwargs st = HdfsKwargs "nn" 8020 None None None ∧
             _temp_dir st = Some "/scratch" ∧ path_prefix st = "hdfs://".
Proof.
  apply (X7_init_canonical backend_up
           (UrlParts None (Some "nn") (Some "8020") (Some "/a/b") EmptyString)
           None None None None None (Some "/scratch") []);
    [reflexivity | by left | done | reflexivity].
Defined.

(** X8 ([__init__], [sync_fn]): the closure does not use the handle the
    store made when it was built: its first call that gets past the
    connection has made a second connection, with the same keyword
    arguments, and keeps a handle that is not the store's. *)
Theorem X8_sync_own_connection
    (B : backend) (prefix_path : string) (host : option string) (port : option Z)
    (user kerb_ticket : option string) (extra_conf : option (list (string * string)))
    (temp_dir : option string) (t t1 later : trace) (st : HDFSStore)
    (run_id lrp : string) (env : sync_env) (s0 : SyncState) (tree : node)
    (r : result unit) (w' : world) :
  __init__ B prefix_path host port user kerb_ticket extra_conf temp_dir t = (Ok st, t1) →
  sync_fn st run_id t1 = (Ok (env, s0), t1) →
  fn B env lrp tree (World s0 (t1 ++ later)) = (r, w') →
  r ≠ Raise ConnectError →
  ∃ h, fs (state w') = Some h ∧ h ≠ _hdfs st ∧
       EConnect (_hdfs_kwargs st) (Some (_hdfs st)) ∈ events w' ∧
       EConnect (_hdfs_kwargs st) (Some h) ∈ events w'.
Proof.
  intros Hinit Hsync Hfn Hr.
  destruct (init_ok B _ _ _ _ _ _ _ _ _ _ Hinit) as (p & _ & _ & _ & _ & Hh & _ & Ht1).
  unfold sync_fn, mret in Hsync. injection Hsync as <- <-.
  rewrite fn_unfold in Hfn. simpl in Hfn.
  destruct (connect_ok B (t1 ++ later) (_hdfs_kwargs st)); [|by injection Hfn as <- <-].
  apply walk_outcome in Hfn as (Hfs & done_ & rest_ & _ & _ & Hev). simpl in Hfs.
  exists (length (t1 ++ later)). split; [done|]. split.
  { rewrite Hh, Ht1, !length_app. simpl. lia. }
  assert (∃ delta, events w' = t1 ++ later
            ++ [EConnect (_hdfs_kwargs st) (Some (length (t1 ++ later)))] ++ delta)
    as [delta ->].
  { destruct r as [[]|e].
    - destruct Hev as [_ ->]. simpl. eexists. by rewrite <- !app_assoc.
    - destruct e as [|msg| | |msg]; try done.
      + destruct Hev as (v & rest' & _ & _ & ->). simpl. eexists.
        by rewrite <- !app_assoc.
      + destruct Hev as (_ & _ & ->). simpl. eexists. by rewrite <- !app_assoc. }
  split.
  - apply elem_of_app. left. rewrite Ht1. apply elem_of_app. right.
    by apply list_elem_of_singleton.
  - apply elem_of_app. right. apply elem_of_app. right. apply elem_of_app. left.
    by apply list_elem_of_singleton.
Qed.

Lemma X8_sync_own_connection_witness :
  ∃ w', fn backend_up env_run42 scratch tree_two
          (World (mkSyncState None ∅)
                 ([EConnect (HdfsKwargs "nn" 8020 None None None) (Some 0)] ++ []))
        = (Ok tt, w') ∧
        ∃ h, fs (state w') = Some h ∧ h ≠ 0 ∧
             EConnect (HdfsKwargs "nn" 8020 None None None) (Some 0) ∈ events w' ∧
             EConnect (HdfsKwargs "nn" 8020 None None None) (Some h) ∈ events w'.
Proof.
  eexists. split; [vm_compute; reflexivity|].
  apply (X8_sync_own_connection backend_up "hdfs://nn:8020/user/test"
           None None None None None None []
           [EConnect (HdfsKwargs "nn" 8020 None None None) (Some 0)] []
           store_nn "run42" scratch env_run42 (mkSyncState None ∅) tree_two (Ok tt));
    [vm_compute; reflexivity | reflexivity | vm_compute; reflexivity | discriminate].
Defined.
(** ** The scratch directory, beyond its removal *)
Section ScratchMore.




End ScratchMore.

(** X9 ([get_local_output_dir_fn]): the scope removes nothing outside the
    scratch directory: a path that is neither the directory nor below it
    exists after the scope exactly when it existed at the end of the block,
    and entering the scope adds the directory and no other path. *)
Theorem X9_scratch_frame {A : Type} (gettempdir : string) (self : HDFSStore)
    (run_id : string) (body : string → M os_state A) (s s1 s2 s' : os_state)
    (d : string) (rb r : result A) :
  mkdtemp gettempdir (_temp_dir self) s = (Ok d, s1) →
  body d s1 = (rb, s2) →
  get_local_output_dir_fn gettempdir self run_id body s = (r, s') →
  (∀ p, under d p = false → (p ∈ paths s' ↔ p ∈ paths s2)) ∧
  (∀ p, p ≠ d → (p ∈ paths s1 ↔ p ∈ paths s)).
Proof.
  intros Hmk Hbody. unfold get_local_output_dir_fn, with_local_run_path.
  rewrite Hmk, Hbody. unfold mkdtemp in Hmk.
  apply mkdtemp_loop_ok in Hmk as (_ & Hpaths & _). intros Hwith. split.
  - intros p Hp. unfold rmtree in Hwith.
    destruct (bool_decide (d ∈ paths s2)); [|by injection Hwith as _ <-].
    destruct (stuck s2 !! d) as [kept|]; injection Hwith as _ <-; simpl;
      rewrite elem_of_filter; (split; [by intros [_ ?] | intros ?]); split; auto.
  - intros p Hp. rewrite Hpaths, elem_of_union, elem_of_singleton.
    split; [by intros [? | ?] | by right].
Qed.

Lemma X9_scratch_frame_witness :
  ∃ s1 s2 s',
    mkdtemp "/tmp" (_temp_dir store_nn) os0 = (Ok "/tmp/tmpab", s1) ∧
    get_local_output_dir_fn "/tmp" store_nn "run42" failing_block os0
      = (Raise (OSError "injected"), s') ∧
    (∀ p, under "/tmp/tmpab" p = false → (p ∈ paths s' ↔ p ∈ paths s2)) ∧
    (∀ p, p ≠ "/tmp/tmpab" → (p ∈ paths s1 ↔ p ∈ paths os0)).
Proof.
  destruct (mkdtemp "/tmp" (_temp_dir store_nn) os0) as [rd s1] eqn:Hmk.
  assert (rd = Ok "/tmp/tmpab") as ->.
  { vm_compute in Hmk. by injection Hmk as <- _. }
  destruct (failing_block "/tmp/tmpab" s1) as [rb s2] eqn:Hbody.
  destruct (get_local_output_dir_fn "/tmp" store_nn "run42" failing_block os0)
    as [r s'] eqn:Hwith.
  assert (r = Raise (OSError "injected")) as ->.
  { unfold get_local_output_dir_fn, with_local_run_path in Hwith.
    rewrite Hmk, Hbody in Hwith. unfold failing_block in Hbody.
    injection Hbody as <- <-. unfold rmtree in Hwith.
    unfold mkdtemp in Hmk. apply mkdtemp_loop_ok in Hmk as (_ & Hp1 & Hst1).
    rewrite bool_decide_eq_true_2 in Hwith.
    - simpl in Hwith. rewrite Hst1 in Hwith. simpl in Hwith.
      by injection Hwith as <- _.
    - simpl. apply elem_of_union. right. rewrite Hp1. apply elem_of_union. left.
      by apply elem_of_singleton. }
  exists s1, s2, s'. split; [done|]. split; [done|].
  exact (X9_scratch_frame "/tmp" store_nn "run42" failing_block os0 s1 s2 s'
           "/tmp/tmpab" rb (Raise (OSError "injected")) Hmk Hbody Hwith).
Defined.



(** X11 ([get_local_output_dir_fn]): when the block has removed the scratch
    directory itself, leaving the scope raises the [OSError] of [rmtree],
    also when the block returned normally or raised something else, and
    the filesystem is as the block left it. *)
Theorem X11_scratch_vanished {A : Type} (gettempdir : string) (self : HDFSStore)
    (run_id : string) (body : string → M os_state A) (s s1 s2 : os_state)
    (d : string) (rb : result A) :
  mkdtemp gettempdir (_temp_dir self) s = (Ok d, s1) →
  body d s1 = (rb, s2) →
  d ∉ paths s2 →
  get_local_output_dir_fn gettempdir self run_id body s
    = (Raise (OSError "No such file or directory"), s2).
Proof.
  intros Hmk Hbody Hgone. unfold get_local_output_dir_fn, with_local_run_path.
  rewrite Hmk, Hbody. unfold rmtree. by rewrite bool_decide_eq_false_2.
Qed.

Lemma X11_scratch_vanished_witness :
  ∃ s2,
    get_local_output_dir_fn "/tmp" store_nn "run42" removing_block os0
      = (Raise (OSError "No such file or directory"), s2) ∧
    "/tmp" ∈ paths s2.
Proof.
  destruct (mkdtemp "/tmp" (_temp_dir store_nn) os0) as [rd s1] eqn:Hmk.
  assert (rd = Ok "/tmp/tmpab") as ->.
  { vm_compute in Hmk. by injection Hmk as <- _. }
  destruct (removing_block "/tmp/tmpab" s1) as [rb s2] eqn:Hbody.
  assert (paths s2 = paths s1 ∖ {["/tmp/tmpab"]}) as Hs2.
  { unfold removing_block in Hbody. by injection Hbody as _ <-. }
  exists s2. split.
  - apply (X11_scratch_vanished "/tmp" store_nn "run42" removing_block os0 s1 s2
             "/tmp/tmpab" rb Hmk Hbody).
    rewrite Hs2, elem_of_difference, elem_of_singleton. by intros [_ ?].
  - unfold mkdtemp in Hmk. apply mkdtemp_loop_ok in Hmk as (_ & Hp & _).
    rewrite Hs2, Hp, elem_of_difference, elem_of_union, !elem_of_singleton.
    split; [by right | done].
Defined.


(** ** The ledger over a session *)
Section LedgerMore.
Variable B : backend.

Lemma never_older_refl u : never_older u u.
Proof. intros p ts H. exists ts. split; [done | lia]. Qed.

Lemma never_older_trans u1 u2 u3 :
  never_older u1 u2 → never_older u2 u3 → never_older u1 u3.
Proof.
  intros H12 H23 p ts H. destruct (H12 p ts H) as (ts2 & H2 & ?).
  destruct (H23 p ts2 H2) as (ts3 & H3 & ?). exists ts3. split; [done | lia].
Qed.

Lemma record_visit_never_older u v : never_older u (record_visit u v).
Proof.
  intros p ts Hp. unfold record_visit, up_to_date.
  destruct (decide (p = v_local v)) as [-> | Hne].
  - rewrite Hp. destruct (v_ts v <=? ts)%Z eqn:E.
    + exists ts. split; [done | lia].
    + apply Z.leb_gt in E. exists (v_ts v). rewrite lookup_insert_eq.
      split; [done | lia].
  - destruct (match u !! v_local v with Some l => _ | None => _ end).
    + exists ts. split; [done | lia].
    + exists ts. rewrite lookup_insert_ne by done. split; [done | lia].
Qed.

Lemma ledger_after_never_older vs : ∀ u, never_older u (ledger_after u vs).
Proof.
  induction vs as [|v vs IH]; intros u; [apply never_older_refl|].
  rewrite ledger_after_cons.
  eapply never_older_trans; [apply record_visit_never_older | apply IH].
Qed.

Lemma fn_never_older env lrp tree w r w' :
  fn B env lrp tree w = (r, w') →
  never_older (uploaded (state w)) (uploaded (state w')).
Proof.
  intros H. apply fn_summary in H as (done_ & rest_ & _ & -> & _).
  apply ledger_after_never_older.
Qed.

Lemma session_never_older env lrp trees : ∀ w rs w',
  session B env lrp trees w = (rs, w') →
  never_older (uploaded (state w)) (uploaded (state w')).
Proof.
  induction trees as [|tree trees IH]; intros w rs w'.
  - intros [= _ <-]. apply never_older_refl.
  - rewrite session_cons. destruct (fn B env lrp tree w) as [r w1] eqn:Hfn.
    destruct (session B env lrp trees w1) as [rs1 w2] eqn:Hs. intros [= _ <-].
    eapply never_older_trans; [by eapply fn_never_older | by eapply IH].
Qed.

End LedgerMore.

(** X13 ([sync_fn]): over the calls of a session, whatever their outcomes,
    no entry of the ledger is removed and no recorded timestamp
    decreases. *)
Theorem X13_ledger_never_older (B : backend) (env : sync_env) (lrp : string)
    (trees : list node) (w w' : world) (rs : list (result unit)) :
  session B env lrp trees w = (rs, w') →
  never_older (uploaded (state w)) (uploaded (state w')).
Proof. apply session_never_older. Qed.

Lemma X13_ledger_never_older_witness :
  ∃ rs w',
    session backend_f2_once env_run42 scratch [tree_pair; tree_pair] world0 = (rs, w') ∧
    never_older (uploaded (state world0)) (uploaded (state w')).
Proof.
  destruct (session backend_f2_once env_run42 scratch [tree_pair; tree_pair] world0)
    as [rs w'] eqn:Hs.
  exists rs, w'. split; [done|].
  exact (X13_ledger_never_older backend_f2_once env_run42 scratch
           [tree_pair; tree_pair] world0 w' rs Hs).
Defined.

(** X14 ([sync_fn]): what a call of the closure that raises leaves
    behind. With the error of the connection: it has walked nothing, the
    ledger and the handle field are what they were and no transfer was
    tried. With the error of a transfer: it holds a handle and the failed
    transfer, of a file of the walk, is the last thing it did. With the
    error of [os.path.getmtime]: it holds a handle, the walk has met a file
    whose modification time cannot be read, the ledger is what the files
    before that one made it, and nothing was tried for that file or after
    it. *)
Theorem X14_fn_failures (B : backend) (env : sync_env) (lrp : string)
    (tree : node) (w w' : world) (e : exn) :
  fn B env lrp tree w = (Raise e, w') →
  match e with
  | ConnectError =>
      fs (state w) = None ∧ state w' = state w ∧
      events w' = events w ++ [EConnect (get_filesystem_kw env) None]
  | UploadError =>
      ∃ h v before, fs (state w') = Some h ∧
                    v ∈ visited (hdfs_root_path env) lrp tree ∧
                    events w' = before ++ [failed_event h v]
  | OSError _ =>
      let os := steps (hdfs_root_path env) lrp tree in
      let u := uploaded (state w) in
      is_Some (fs (state w')) ∧ blocked os = true ∧
      uploaded (state w') = ledger_after u (readable os) ∧
      upload_attempts (events w')
      = upload_attempts (events w) ++ map v_local (pending u (readable os)) ∧
      uploads (events w')
      = uploads (events w) ++ map v_local (pending u (readable os))
  | _ => True
  end.
Proof.
  intros Hfn. destruct e as [|msg| | |msg]; [done|done| | |].
  - rewrite fn_unfold in Hfn. simpl in Hfn.
    assert (∀ h w0, for_each (steps (hdfs_root_path env) lrp tree) (sync_step B h) w0
                    ≠ (Raise ConnectError, w')) as Hloop.
    { intros h w0 Hl. by apply walk_outcome in Hl as (_ & done_ & rest_ & _ & _ & Hr). }
    destruct (fs (state w)) as [h|]; [by apply Hloop in Hfn|].
    destruct (connect_ok B (events w) (get_filesystem_kw env));
      [by apply Hloop in Hfn|].
    by injection Hfn as <-.
  - rewrite fn_unfold in Hfn. simpl in Hfn.
    assert (∀ h w0, fs (state w0) = Some h →
              for_each (steps (hdfs_root_path env) lrp tree) (sync_step B h) w0
              = (Raise UploadError, w') →
              ∃ h v before, fs (state w') = Some h ∧
                            v ∈ visited (hdfs_root_path env) lrp tree ∧
                            events w' = before ++ [failed_event h v]) as Hloop.
    { intros h w0 Hh Hl.
      apply walk_outcome in Hl
        as (Hfs & done_ & rest_ & Hvis & _ & v & rest' & -> & _ & Hev).
      exists h, v. eexists. split; [by rewrite Hfs|]. split.
      - rewrite visited_steps, Hvis. apply elem_of_app. right. by left.
      - rewrite Hev, app_assoc. done. }
    destruct (fs (state w)) as [h|] eqn:Hfs; [by apply (Hloop h w)|].
    destruct (connect_ok B (events w) (get_filesystem_kw env)); [|done].
    by eapply Hloop; [|exact Hfn].
  - apply fn_summary in Hfn as (done_ & rest_ & _ & Hled & Hup & _ & Hfs & Hb & -> & Hatt).
    done.
Qed.

Lemma X14_fn_failures_witness :
  ∃ w',
    fn backend_up env_run42 scratch tree_dangling world0
    = (Raise (OSError "No such file or directory"), w') ∧
    uploads (events w') = ["/tmp/tmpab/F1"] ∧
    let os := steps (hdfs_root_path env_run42) scratch tree_dangling in
    let u := uploaded (state world0) in
    is_Some (fs (state w')) ∧ blocked os = true ∧
    uploaded (state w') = ledger_after u (readable os) ∧
    upload_attempts (events w')
    = upload_attempts (events world0) ++ map v_local (pending u (readable os)) ∧
    uploads (events w')
    = uploads (events world0) ++ map v_local (pending u (readable os)).
Proof.
  eexists. split; [vm_compute; reflexivity|]. split; [reflexivity|].
  apply (X14_fn_failures backend_up env_run42 scratch tree_dangling world0 _
           (OSError "No such file or directory")).
  vm_compute. reflexivity.
Defined.
(** ** Trees rewritten within the second *)
Section NotNewer.
Variable B : backend.

Lemma forall2b_cons {X Y} (f : X → Y → bool) x l1 y l2 :
  forall2b f (x :: l1) (y :: l2) = f x y && forall2b f l1 l2.
Proof. reflexivity. Qed.

Lemma not_newer_filenames es1 : ∀ es2,
  forall2b (λ e1 e2, bool_decide (fst e1 = fst e2) && not_newer (snd e1) (snd e2))
           es1 es2 = true →
  Forall2 (λ f1 f2, fst f2 = fst f1 ∧ (int_of_float (snd f2) ≤ int_of_float (snd f1))%Z)
          (reachable (filenames es1)) (reachable (filenames es2)).
Proof.
  induction es1 as [|[n1 c1] es1 IH]; intros [|[n2 c2] es2]; simpl; try done.
  rewrite !andb_true_iff, bool_decide_eq_true. intros [[-> Hc] Hrest].
  destruct c1 as [m1|es1'|], c2 as [m2|es2'|]; simpl in Hc; try done.
  - change (reachable ((n2, Some m1) :: filenames es1))
      with ((n2, m1) :: reachable (filenames es1)).
    change (reachable ((n2, Some m2) :: filenames es2))
      with ((n2, m2) :: reachable (filenames es2)).
    constructor; [|by apply IH]. simpl. split; [done|]. by apply Z.leb_le.
  - by apply IH.
Qed.

(** A tree compared with another one has no unreadable entry. *)
Lemma not_newer_reachable old : ∀ new,
  not_newer old new = true → all_reachable new = true.
Proof.
  induction old as [m1|es1 IH|] using node_ind'; intros [m2|es2|]; simpl; try done.
  revert es2. induction es1 as [|[n1 c1] es1 IHes]; intros [|[n2 c2] es2];
    simpl; try done.
  rewrite !andb_true_iff, bool_decide_eq_true. intros [[_ Hc] Hrest].
  apply Forall_cons in IH as [IHc IHrest]. simpl in IHc. split.
  - by apply IHc.
  - by apply IHes.
Qed.

Lemma not_newer_walk old : ∀ new top,
  not_newer old new = true →
  Forall2 item_not_newer (os_walk top old) (os_walk top new).
Proof.
  induction old as [m1|es1 IH|] using node_ind'; intros [m2|es2|] top; simpl; try done.
  intros H. constructor.
  - split; [done|]. simpl. by apply not_newer_filenames.
  - revert es2 H. induction es1 as [|[n1 c1] es1 IHes]; intros [|[n2 c2] es2];
        simpl; try done.
      rewrite !andb_true_iff, bool_decide_eq_true. intros [[-> Hc] Hrest].
      apply Forall_cons in IH as [IHc IHrest]. simpl in IHc.
      apply Forall2_app; [by apply IHc | by apply IHes].
Qed.

Lemma not_newer_visits root prefix i1 i2 :
  item_not_newer i1 i2 →
  Forall2 visit_not_newer (visits_of root prefix i1) (visits_of root prefix i2).
Proof.
  destruct i1 as [[d1 ds1] fs1], i2 as [[d2 ds2] fs2]. intros [Hd Hf]. simpl in *.
  subst d2. unfold visits_of.
  induction Hf as [|f1 f2 l1 l2 [Hn Hts] _ IH]; simpl; constructor; [|done].
  unfold visit_not_newer; simpl. by rewrite Hn.
Qed.

Lemma not_newer_visited root lrp old new :
  not_newer old new = true →
  Forall2 visit_not_newer (visited root lrp old) (visited root lrp new).
Proof.
  intros H. unfold visited. apply (not_newer_walk old new lrp) in H.
  induction H as [|i1 i2 l1 l2 Hi _ IH]; simpl; [constructor|].
  apply Forall2_app; [by apply not_newer_visits | done].
Qed.

Lemma not_newer_covered u vs1 vs2 :
  Forall2 visit_not_newer vs1 vs2 →
  (∀ x, x ∈ vs1 → covered u x) → ∀ y, y ∈ vs2 → covered u y.
Proof.
  intros HF Hc y Hy.
  induction HF as [|a b l1 l2 (Hl & _ & Hts) _ IH].
  - by apply elem_of_nil in Hy.
  - apply elem_of_cons in Hy as [-> | Hy].
    + destruct (Hc a) as (last & Hlast & Hle); [by left|].
      exists last. rewrite Hl. split; [done | lia].
    + apply IH; [|done]. intros x Hx. apply Hc. by right.
Qed.

End NotNewer.

(** X15 ([sync_fn]): after a call that returned, a call on a directory
    whose files were rewritten without their integer modification time
    advancing, within the same second or set back in time, returns,
    transfers nothing and leaves the ledger as it is: such a change is
    never synced. *)
Theorem X15_not_newer_skipped (B : backend) (env : sync_env) (lrp : string)
    (old new : node) (w w1 w2 : world) (r : result unit) :
  not_newer old new = true →
  fn B env lrp old w = (Ok tt, w1) →
  fn B env lrp new w1 = (r, w2) →
  r = Ok tt ∧
  upload_attempts (events w2) = upload_attempts (events w1) ∧
  uploaded (state w2) = uploaded (state w1).
Proof.
  intros Hnn H1 H2.
  apply fn_summary in H1 as (done_ & rest_ & Hvis & Hled & _ & _ & -> & Hfs & _).
  rewrite app_nil_r in Hvis. subst done_.
  destruct (fn_all_covered B env lrp new w1 r w2 Hfs) as (-> & Hu & Hatt & _);
    [|idtac|done|done].
  { by apply all_reachable_clear, (not_newer_reachable old). }
  apply (not_newer_covered _ (visited (hdfs_root_path env) lrp old)).
  - by apply not_newer_visited.
  - intros x Hx. rewrite Hled. by apply visited_covered.
Qed.

Lemma X15_not_newer_skipped_witness :
  ∃ w1 r w2,
    fn backend_up env_run42 scratch tree_two world0 = (Ok tt, w1) ∧
    fn backend_up env_run42 scratch tree_same_second w1 = (r, w2) ∧
    r = Ok tt ∧
    upload_attempts (events w2) = upload_attempts (events w1) ∧
    uploaded (state w2) = uploaded (state w1).
Proof.
  destruct (fn backend_up env_run42 scratch tree_two world0) as [r1 w1] eqn:H1.
  assert (r1 = Ok tt) as -> by (vm_compute in H1; by injection H1 as <- _).
  destruct (fn backend_up env_run42 scratch tree_same_second w1) as [r w2] eqn:H2.
  exists w1, r, w2. split; [done|]. split; [done|].
  apply (X15_not_newer_skipped backend_up env_run42 scratch tree_two tree_same_second
           world0 w1 w2 r); [reflexivity | exact H1 | exact H2].
Defined.
(** ** Every visit is a file of the tree *)
Section WalkInverse.

Lemma lookup_entry_NoDup name child es :
  NoDup (map fst es) → (name, child) ∈ es → lookup_entry name es = Some child.
Proof.
  induction es as [|[n c] es IH]; simpl; intros Hnd Hin.
  - by apply elem_of_nil in Hin.
  - apply NoDup_cons in Hnd as [Hn Hnd]. case_bool_decide as Heq.
    + apply elem_of_cons in Hin as [[= -> ->] | Hin]; [done|]. subst n.
      exfalso. apply Hn. apply list_elem_of_fmap. by exists (name, child).
    + apply elem_of_cons in Hin as [[= -> ->] | Hin]; [done|]. by apply IH.
Qed.

Lemma filenames_inv name m es :
  (name, Some m) ∈ filenames es → (name, File m) ∈ es.
Proof.
  induction es as [|[n [m'|es'|]] es IH]; simpl; intros Hin.
  - by apply elem_of_nil in Hin.
  - apply elem_of_cons in Hin as [[= -> ->] | Hin]; [by left | right; by apply IH].
  - right. by apply IH.
  - apply elem_of_cons in Hin as [[=] | Hin]. right. by apply IH.
Qed.

Lemma walk_inv tree : ∀ top local_dir dirs files f m,
  wf_tree tree = true →
  (local_dir, dirs, files) ∈ os_walk top tree → (f, Some m) ∈ files →
  ∃ ds, local_dir = foldl os_path_join top ds ∧
        find_file (ds ++ [f]) tree = Some m.
Proof.
  induction tree as [m0|es IH|] using node_ind';
    intros top local_dir dirs files f m Hwf Hin Hf; simpl in Hin;
    [by apply elem_of_nil in Hin | | by apply elem_of_nil in Hin].
  - apply wf_tree_dir in Hwf as (_ & Hnd & Hwfs).
    apply elem_of_cons in Hin as [[= -> -> ->] | Hin].
    + exists []. split; [done|]. simpl.
      by rewrite (lookup_entry_NoDup f (File m) es Hnd (filenames_inv _ _ _ Hf)).
    + apply list_elem_of_In, in_concat in Hin as (l & Hl & Hin).
      apply in_map_iff in Hl as ([n c] & <- & Hc). simpl in Hin.
      apply list_elem_of_In in Hc, Hin.
      rewrite Forall_forall in IH, Hwfs.
      destruct (IH (n, c) Hc _ _ _ _ _ _ (Hwfs _ Hc) Hin Hf) as (ds & -> & Hfind).
      exists (n :: ds). split; [done|]. simpl.
      by rewrite (lookup_entry_NoDup n c es Hnd Hc).
Qed.

Lemma visited_inv root lrp tree v :
  wf_tree tree = true → v ∈ visited root lrp tree →
  ∃ ds f m,
    find_file (ds ++ [f]) tree = Some m ∧
    v = Visit (os_path_join (foldl os_path_join lrp ds) f) (int_of_float m)
              (os_path_join
                 (os_path_join root (drop_str (len lrp + 1) (foldl os_path_join lrp ds)))
                 f).
Proof.
  intros Hwf Hv. unfold visited in Hv.
  apply list_elem_of_In, in_concat in Hv as (l & Hl & Hv).
  apply in_map_iff in Hl as ([[local_dir dirs] files] & <- & Hitem).
  apply list_elem_of_In in Hitem, Hv. unfold visits_of in Hv.
  apply list_elem_of_fmap in Hv as ([f m] & -> & Hf%reachable_elem). simpl in *.
  destruct (walk_inv tree lrp local_dir dirs files f m Hwf Hitem Hf) as (ds & -> & Hfind).
  by exists ds, f, m.
Qed.

(** A visit, on a scratch root without trailing separator: the file of
    the tree it stands for, and the same relative path on both sides. *)
Lemma visited_mirror root lrp tree v :
  no_trailing_sep lrp = true → no_trailing_sep root = true →
  wf_tree tree = true → v ∈ visited root lrp tree →
  ∃ names m,
    find_file names tree = Some m ∧ v_ts v = int_of_float m ∧
    v_local v = lrp +:+ String SEP (join_names names) ∧
    v_remote v = root +:+ String SEP (join_names names).
Proof.
  intros Hlrp Hroot Hwf Hv.
  destruct (visited_inv root lrp tree v Hwf Hv) as (ds & f & m & Hfind & ->).
  pose proof (find_file_valid _ _ _ Hwf Hfind) as Hall.
  pose proof Hall as [Hds Hf]%Forall_app. apply Forall_cons in Hf as [Hf _].
  set (local_dir := foldl os_path_join lrp ds) in *.
  pose proof (strip_scratch_root lrp ds Hlrp Hds) as Hstrip. fold local_dir in Hstrip.
  destruct (walk_path lrp ds Hlrp Hds) as [Hdir Hdir_nt]. fold local_dir in Hdir, Hdir_nt.
  destruct (join_sep local_dir f Hdir_nt (valid_name_rel_ok f Hf)) as [Hlocal _].
  exists (ds ++ [f]), m. split; [done|]. split; [done|]. simpl. split.
  - rewrite Hlocal, Hdir. destruct ds as [|d ds]; [done|].
    rewrite join_names_snoc by done. by rewrite !app_assoc_str, !app_cons.
  - rewrite Hstrip. by apply remote_target.
Qed.

End WalkInverse.

(** X16 ([sync_fn]): on a well-formed scratch directory, with scratch root
    and remote root not ending in a separator, everything the walk hands
    to the transfer is a regular file of the tree, with its integer
    modification time, and its remote target has under the remote root the
    relative path the file has under the scratch root; directories and
    paths outside the scratch directory are never transferred. *)
Theorem X16_visits_mirror (B : backend) (env : sync_env) (lrp : string) (tree : node)
    (w w' : world) (r : result unit) :
  no_trailing_sep lrp = true → no_trailing_sep (hdfs_root_path env) = true →
  wf_tree tree = true →
  fn B env lrp tree w = (r, w') →
  ∃ delta,
    upload_targets (events w') = upload_targets (events w) ++ delta ∧
    ∀ l t, (l, t) ∈ delta →
      ∃ names m, find_file names tree = Some m ∧
                 l = lrp +:+ String SEP (join_names names) ∧
                 t = hdfs_root_path env +:+ String SEP (join_names names).
Proof.
  intros Hlrp Hroot Hwf Hfn.
  apply fn_summary in Hfn as (done_ & rest_ & Hvis & _ & _ & Htg & _).
  eexists. split; [exact Htg|]. intros l t Hin.
  apply list_elem_of_fmap in Hin as (v & [= -> ->] & Hv).
  apply pending_elem in Hv.
  assert (v ∈ visited (hdfs_root_path env) lrp tree) as Hv'.
  { rewrite Hvis. apply elem_of_app. by left. }
  destruct (visited_mirror _ _ _ _ Hlrp Hroot Hwf Hv') as (names & m & ? & _ & ? & ?).
  by exists names, m.
Qed.

Lemma X16_visits_mirror_witness :
  ∃ w' delta,
    fn backend_up env_run42 scratch tree_two world0 = (Ok tt, w') ∧
    upload_targets (events w') = upload_targets (events world0) ++ delta ∧
    ∀ l t, (l, t) ∈ delta →
      ∃ names m, find_file names tree_two = Some m ∧
                 l = scratch +:+ String SEP (join_names names) ∧
                 t = hdfs_root_path env_run42 +:+ String SEP (join_names names).
Proof.
  destruct (fn backend_up env_run42 scratch tree_two world0) as [r w'] eqn:Hfn.
  assert (r = Ok tt) as -> by (vm_compute in Hfn; by injection Hfn as <- _).
  destruct (X16_visits_mirror backend_up env_run42 scratch tree_two world0 w' (Ok tt))
    as (delta & Hd & Hall); [reflexivity | reflexivity | reflexivity | exact Hfn |].
  by exists w', delta.
Defined.

(** X17 ([sync_fn]): on a well-formed scratch directory, with scratch root
    and remote root not ending in a separator, no two files of a walk have
    the same remote target, and the transfers of one call all go to
    different targets. *)
Theorem X17_remote_targets_distinct (B : backend) (env : sync_env) (lrp : string)
    (tree : node) :
  no_trailing_sep lrp = true → no_trailing_sep (hdfs_root_path env) = true →
  wf_tree tree = true →
  NoDup (map v_remote (visited (hdfs_root_path env) lrp tree)) ∧
  ∀ w r w', fn B env lrp tree w = (r, w') →
    ∃ delta, upload_targets (events w') = upload_targets (events w) ++ delta ∧
             NoDup (map snd delta).
Proof.
  intros Hlrp Hroot Hwf.
  pose proof (wf_tree_NoDup (hdfs_root_path env) lrp tree Hwf) as Hnd.
  assert (NoDup (map v_remote (visited (hdfs_root_path env) lrp tree))) as Hrem.
  { apply NoDup_fmap_2_strong; [|by eapply NoDup_fmap_1].
    intros a b Ha Hb Heq.
    destruct (visited_mirror _ _ _ _ Hlrp Hroot Hwf Ha) as (na & ma & _ & _ & Hla & Hra).
    destruct (visited_mirror _ _ _ _ Hlrp Hroot Hwf Hb) as (nb & mb & _ & _ & Hlb & Hrb).
    rewrite Hra, Hrb in Heq. apply app_inv_head_str in Heq. injection Heq as Heq.
    apply (NoDup_map_inj_elem v_local _ a b Hnd Ha Hb). by rewrite Hla, Hlb, Heq. }
  split; [done|]. intros w r w' Hfn.
  apply fn_summary in Hfn as (done_ & rest_ & Hvis & _ & _ & Htg & _).
  eexists. split; [exact Htg|].
  rewrite Hvis in Hnd, Hrem.
  rewrite pending_filter by (by eapply NoDup_map_app_l).
  rewrite map_map. simpl.
  apply (sublist_NoDup _ (map v_remote (done_ ++ rest_))); [done|].
  rewrite map_app. apply sublist_inserts_r.
  apply (fmap_sublist v_remote), sublist_filter.
Qed.

Lemma X17_remote_targets_distinct_witness :
  NoDup (map v_remote (visited (hdfs_root_path env_run42) scratch tree_two)) ∧
  ∀ w r w', fn backend_up env_run42 scratch tree_two w = (r, w') →
    ∃ delta, upload_targets (events w') = upload_targets (events w) ++ delta ∧
             NoDup (map snd delta).
Proof. apply X17_remote_targets_distinct; reflexivity. Defined.

(** ** A scratch root written with a trailing separator *)
Section TrailingSeparator.

Lemma join_after_sep top n :
  top ≠ EmptyString → endswith SEP top = true → valid_name n = true →
  os_path_join top n = top +:+ n ∧ no_trailing_sep (top +:+ n) = true.
Proof.
  intros Htop Hend Hn. rewrite (join_base top n Hn). unfold base. rewrite Hend.
  rewrite orb_true_r. split; [done|].
  apply valid_name_inv in Hn as [Hne Hc].
  apply no_trailing_sep_intro.
  - destruct top; [done|]. by rewrite app_cons.
  - rewrite endswith_suffix by done. by apply no_sep_endswith.
Qed.

Lemma walk_path_after_sep top d ds :
  top ≠ EmptyString → endswith SEP top = true →
  Forall (λ n, valid_name n = true) (d :: ds) →
  foldl os_path_join top (d :: ds) = top +:+ join_names (d :: ds) ∧
  no_trailing_sep (foldl os_path_join top (d :: ds)) = true.
Proof.
  intros Htop Hend [Hd Hds]%Forall_cons. simpl foldl.
  destruct (join_after_sep top d Htop Hend Hd) as [-> Hnt].
  destruct (walk_path (top +:+ d) ds Hnt Hds) as [-> Hnt'].
  destruct ds as [|d' ds]; [done|]. split; [|done].
  rewrite (join_names_cons d) by done. by rewrite app_assoc_str.
Qed.

End TrailingSeparator.

(** X18 ([sync_fn]): when the scratch root is passed with a trailing
    separator, the slice at [len(local_run_path) + 1] cuts one character
    too many: a file in a sub-directory is visited under its local path,
    but the directory part of its remote target is the relative directory
    without its first character. *)
Theorem X18_trailing_separator (root lrp : string) (tree : node)
    (d : string) (ds : list string) (f : string) (m : Q) :
  lrp ≠ EmptyString → endswith SEP lrp = true →
  wf_tree tree = true →
  find_file ((d :: ds) ++ [f]) tree = Some m →
  Visit (lrp +:+ join_names ((d :: ds) ++ [f])) (int_of_float m)
        (os_path_join (os_path_join root (drop_str 1 (join_names (d :: ds)))) f)
  ∈ visited root lrp tree.
Proof.
  intros Hlrp Hend Hwf Hfind.
  pose proof (find_file_valid _ _ _ Hwf Hfind) as Hall.
  pose proof Hall as [Hds Hf]%Forall_app. apply Forall_cons in Hf as [Hf _].
  destruct (walk_finds (d :: ds) lrp tree f m Hfind) as (dirs & files & Hwalk & Hfile).
  destruct (walk_path_after_sep lrp d ds Hlrp Hend Hds) as [Hdir Hnt].
  pose proof (visited_elem root lrp tree _ dirs files f m Hwalk Hfile) as Hv.
  destruct (join_sep _ f Hnt (valid_name_rel_ok f Hf)) as [Hlocal _].
  rewrite Hlocal, Hdir in Hv.
  rewrite drop_str_add, drop_str_app in Hv.
  rewrite join_names_snoc by done.
  by rewrite app_assoc_str in Hv.
Qed.

Lemma X18_trailing_separator_witness :
  Visit "/tmp/tmpab/a/x" 2 "hdfs://nn:8020/user/test/run42/x"
  ∈ visited (get_run_path store_nn "run42") scratch_sep tree_shadow.
Proof.
  apply (X18_trailing_separator (get_run_path store_nn "run42") scratch_sep tree_shadow
           "a" [] "x" (2 # 1)); [done | reflexivity | reflexivity | reflexivity].
Defined.
(** ** Tuner lookup *)
Section TunerLookup.
Context {V : Type} (format_obj : V → string).

Lemma NAS_TUNERS_lookup s c :
  NAS_TUNERS !! s = Some c ↔
  (s = "hyperband" ∧ c = Hyperband) ∨ (s = "gridsearch" ∧ c = GridSearch) ∨
  (s = "randomsearch" ∧ c = RandomSearch).
Proof.
  unfold NAS_TUNERS. rewrite !lookup_insert_Some, lookup_empty. split.
  - intros [[<- <-] | [_ [[<- <-] | [_ [[<- <-] | [_ ?]]]]]]; auto. done.
  - intros [[-> ->] | [[-> ->] | [-> ->]]]; [by left | right | right].
    + split; [done|]. by left.
    + split; [done|]. right. split; [done|]. by left.
Qed.

Lemma advertised_in_message text n :
  n ∈ advertised → contains (quoted n) (tuner_error text) = true.
Proof.
  unfold advertised. rewrite !elem_of_cons, elem_of_nil.
  intros [-> | [-> | [-> | [-> | []]]]]; apply contains_spec.
  - exists "Expected the tuner argument to be one of ",
      (", " +:+ quoted "random" +:+ ", " +:+ quoted "hyperband" +:+ ", or "
       +:+ quoted "bayesian" +:+ ", but got " +:+ text).
    by cbv.
  - exists ("Expected the tuner argument to be one of " +:+ quoted "greedy" +:+ ", "),
      (", " +:+ quoted "hyperband" +:+ ", or "
       +:+ quoted "bayesian" +:+ ", but got " +:+ text).
    by cbv.
  - exists ("Expected the tuner argument to be one of " +:+ quoted "greedy" +:+ ", "
            +:+ quoted "random" +:+ ", "),
      (", or " +:+ quoted "bayesian" +:+ ", but got " +:+ text).
    by cbv.
  - exists ("Expected the tuner argument to be one of " +:+ quoted "greedy" +:+ ", "
            +:+ quoted "random" +:+ ", " +:+ quoted "hyperband" +:+ ", or "),
      (", but got " +:+ text).
    by cbv.
Qed.

End TunerLookup.

(** X19 ([get_tuner_class]): [get_tuner_class] returns exactly for the
    three strings ["hyperband"], ["gridsearch"] and ["randomsearch"], with
    the class registered under that name, and raises [ValueError] for every
    other string and for every argument that is not a string; of the four
    names its error message lists, ["hyperband"] is the only one it
    accepts. *)
Theorem X19_get_tuner_class {V : Type} (format_obj : V → string) :
  (∀ a c, get_tuner_class format_obj a = Returns c ↔
          (a = ArgStr "hyperband" ∧ c = Hyperband) ∨
          (a = ArgStr "gridsearch" ∧ c = GridSearch) ∨
          (a = ArgStr "randomsearch" ∧ c = RandomSearch)) ∧
  (∀ a e, get_tuner_class format_obj a = Raises e →
          e = PyValueError (tuner_error (format_arg V format_obj a)) ∧
          ∀ n, n ∈ advertised →
               contains (quoted n) (tuner_error (format_arg V format_obj a)) = true) ∧
  (∀ n, n ∈ advertised →
        ((∃ c, get_tuner_class format_obj (ArgStr n) = Returns c) ↔ n = "hyperband")).
Proof.
  split; [|split].
  - intros a c. destruct a as [s|v]; simpl.
    + destruct (NAS_TUNERS !! s) as [c'|] eqn:Hl.
      * split.
        -- intros [= <-]. apply NAS_TUNERS_lookup in Hl.
           destruct Hl as [[-> ->] | [[-> ->] | [-> ->]]]; auto.
        -- intros Hc. assert (NAS_TUNERS !! s = Some c) as Hl'.
           { apply NAS_TUNERS_lookup.
             destruct Hc as [[[= ->] ->] | [[[= ->] ->] | [[= ->] ->]]]; auto. }
           congruence.
      * split; [done|]. intros Hc. exfalso.
        assert (NAS_TUNERS !! s = Some c) as Hl'; [|congruence].
        apply NAS_TUNERS_lookup.
        destruct Hc as [[[= ->] ->] | [[[= ->] ->] | [[= ->] ->]]]; auto.
    + split; [done|]. by intros [[? _] | [[? _] | [? _]]].
  - intros a e He.
    assert (e = PyValueError (tuner_error (format_arg V format_obj a))) as ->.
    { destruct a as [s|v]; simpl in *; [|by injection He as <-].
      destruct (NAS_TUNERS !! s); [done | by injection He as <-]. }
    split; [done|]. intros n Hn. by apply advertised_in_message.
  - intros n Hn. simpl. split.
    + intros [c Hc]. destruct (NAS_TUNERS !! n) as [c'|] eqn:Hl; [|done].
      apply NAS_TUNERS_lookup in Hl. unfold advertised in Hn.
      rewrite !elem_of_cons, elem_of_nil in Hn.
      destruct Hl as [[-> _] | [[-> _] | [-> _]]]; [done|..];
        destruct Hn as [? | [? | [? | [? | []]]]]; done.
    + intros ->. by exists Hyperband.
Qed.

(** ** Binding a tuner, and [fit] *)
Section LifeCycle.
Context {V E : Type} (format_obj : V → string).
Context (ext : callee V → list V → list (string * V) → E → outcome V * E).
Context (est_gen_fun : V).

Lemma resource_bind_frame b st v em lc fc vb s :
  only_attr V E "model_selection" s
    (snd (resource_bind V E ext est_gen_fun b st v em lc fc vb s)).
Proof.
  unfold resource_bind, pbind, call, setattr.
  destruct (ext _ _ _ _) as [[ms|e] e']; simpl; intros n Hn; simpl; [|done].
  by rewrite lookup_insert_ne.
Qed.

(** [tuner_bind], step by step. *)
Lemma tuner_bind_unfold tuner pn mt d o ow mms hp kwargs s :
  tuner_bind V E format_obj ext tuner pn mt d o ow mms hp kwargs s =
  match (match tuner with
         | ArgStr n =>
             match NAS_TUNERS !! n with
             | Some c => Returns (Tuner_ctor c)
             | None => Raises (PyValueError (tuner_error n))
             end
         | ArgObj v => Returns (Callable v)
         end) with
  | Raises e => (Raises e, s)
  | Returns callee =>
      match inst s !! "graph" with
      | None => (Raises (PyAttributeError "graph"), s)
      | Some graph =>
          match inst s !! "model_selection" with
          | None => (Raises (PyAttributeError "model_selection"), s)
          | Some ms =>
              match inst s !! "seed" with
              | None => (Raises (PyAttributeError "seed"), s)
              | Some seed =>
                  match repeated_keyword V kwargs with
                  | Some k =>
                      (Raises (PyTypeError
                                 ("got multiple values for keyword argument " +:+ k)), s)
                  | None =>
                      match ext callee []
                              ([("hypermodel", graph); ("hyperparameters", hp);
                                ("model_selection", ms); ("overwrite", ow);
                                ("objective", o); ("max_trials", mt);
                                ("directory", d); ("seed", seed);
                                ("project_name", pn); ("max_model_size", mms)]
                               ++ kwargs) (outside s) with
                      | (Returns t, e') =>
                          (Returns tt, HState (<["tuner" := t]> (inst s)) e')
                      | (Raises e, e') => (Raises e, HState (inst s) e')
                      end
                  end
              end
          end
      end
  end.
Proof.
  unfold tuner_bind, pbind, getattr, call, setattr, pret, praise.
  destruct tuner as [n|v]; simpl.
  - destruct (NAS_TUNERS !! n); [|done].
    destruct (inst s !! "graph"); [|done].
    destruct (inst s !! "model_selection"); [|done].
    destruct (inst s !! "seed"); [|done].
    destruct (repeated_keyword V kwargs); [done|].
    by destruct (ext _ _ _ _) as [[x|x] y].
  - destruct (inst s !! "graph"); [|done].
    destruct (inst s !! "model_selection"); [|done].
    destruct (inst s !! "seed"); [|done].
    destruct (repeated_keyword V kwargs); [done|].
    by destruct (ext _ _ _ _) as [[x|x] y].
Qed.

Lemma tuner_bind_frame tuner pn mt d o ow mms hp kwargs s :
  only_attr V E "tuner" s
    (snd (tuner_bind V E format_obj ext tuner pn mt d o ow mms hp kwargs s)).
Proof.
  rewrite tuner_bind_unfold. intros n Hn.
  destruct (match tuner with ArgStr _ => _ | ArgObj _ => _ end); [|done].
  destruct (inst s !! "graph"); [|done].
  destruct (inst s !! "model_selection"); [|done].
  destruct (inst s !! "seed"); [|done].
  destruct (repeated_keyword V kwargs); [done|].
  destruct (ext _ _ _ _) as [[x|x] y]; simpl; [|done].
  by rewrite lookup_insert_ne.
Qed.

Lemma tuner_bind_outcome tuner pn mt d o ow mms hp kwargs s s' r :
  tuner_bind V E format_obj ext tuner pn mt d o ow mms hp kwargs s = (r, s') →
  (∀ e, r = Raises e → inst s' = inst s) ∧
  (r = Returns tt → ∃ t, inst s' = <["tuner" := t]> (inst s)).
Proof.
  rewrite tuner_bind_unfold. intros H. split.
  - intros e ->.
    destruct (match tuner with ArgStr _ => _ | ArgObj _ => _ end);
      [|by injection H as _ <-].
    destruct (inst s !! "graph"); [|by injection H as _ <-].
    destruct (inst s !! "model_selection"); [|by injection H as _ <-].
    destruct (inst s !! "seed"); [|by injection H as _ <-].
    destruct (repeated_keyword V kwargs); [by injection H as _ <-|].
    destruct (ext _ _ _ _) as [[x|x] y]; [done|]. by injection H as _ <-.
  - intros ->.
    destruct (match tuner with ArgStr _ => _ | ArgObj _ => _ end); [|done].
    destruct (inst s !! "graph"); [|done].
    destruct (inst s !! "model_selection"); [|done].
    destruct (inst s !! "seed"); [|done].
    destruct (repeated_keyword V kwargs); [done|].
    destruct (ext _ _ _ _) as [[x|x] y]; [|done]. injection H as <-. by exists x.
Qed.

Lemma run_calls_verbose cs : ∀ s,
  inst s !! "verbose" = None →
  inst (run_calls V E format_obj ext est_gen_fun cs s) !! "verbose" = None.
Proof.
  induction cs as [|c cs IH]; intros s Hs; [done|]. simpl. apply IH.
  destruct c; simpl.
  - by rewrite resource_bind_frame.
  - by rewrite tuner_bind_frame.
Qed.

Lemma run_calls_tuner cs : ∀ s,
  match inst (run_calls V E format_obj ext est_gen_fun cs s) !! "tuner" with
  | Some _ =>
      is_Some (inst s !! "tuner") ∨
      tuner_bound V E format_obj ext est_gen_fun cs s = true
  | None =>
      inst s !! "tuner" = None ∧
      tuner_bound V E format_obj ext est_gen_fun cs s = false
  end.
Proof.
  induction cs as [|c cs IH]; intros s; simpl.
  - destruct (inst s !! "tuner"); [left; by eexists | done].
  - specialize (IH (snd (run_call V E format_obj ext est_gen_fun c s))).
    destruct c as [b st v em lc fc vb | tuner pn mt d o ow mms hp kwargs].
    + simpl in *. rewrite (resource_bind_frame b st v em lc fc vb s "tuner") in IH by done.
      exact IH.
    + simpl in *.
      destruct (tuner_bind V E format_obj ext tuner pn mt d o ow mms hp kwargs s)
        as [r s1] eqn:Hb. simpl in *.
      destruct (tuner_bind_outcome tuner pn mt d o ow mms hp kwargs s s1 r Hb) as [Hraise Hret].
      destruct r as [[]|e].
      * destruct (Hret eq_refl) as [t Ht].
        destruct (inst (run_calls _ _ _ _ _ _ _) !! "tuner"); [by right|].
        destruct IH as [IH _]. rewrite Ht, lookup_insert_eq in IH. done.
      * rewrite (Hraise e eq_refl) in IH. done.
Qed.

End LifeCycle.

Lemma X19_get_tuner_class_witness :
  get_tuner_class format_nat (ArgStr "gridsearch") = Returns GridSearch ∧
  ¬ ∃ c, get_tuner_class format_nat (ArgStr "bayesian") = Returns c.
Proof.
  destruct (X19_get_tuner_class format_nat) as (Hok & _ & Hadv). split.
  - apply Hok. right; left. done.
  - intros Hc. apply (Hadv "bayesian") in Hc; [done|].
    unfold advertised. rewrite !elem_of_cons. auto.
Defined.

(** X20 ([tuner_bind]): [tuner_bind] calls the tuner class only when the
    name is registered in [NAS_TUNERS] (or an object was passed instead of
    a name), the instance has the attributes [graph], [model_selection]
    and [seed], and [**kwargs] repeats none of the ten keywords of the
    call; in every other case it raises and leaves the instance and
    everything outside it untouched. A call that raises leaves the
    attribute [tuner] as it was, and a call that returns has changed no
    other attribute. *)
Theorem X20_tuner_bind {V E : Type} (format_obj : V → string)
    (ext : callee V → list V → list (string * V) → E → outcome V * E)
    (tuner : py_arg V) (pn mt d o ow mms hp : V) (kwargs : list (string * V))
    (s s' : hstate V E) (r : outcome unit) :
  tuner_bind V E format_obj ext tuner pn mt d o ow mms hp kwargs s = (r, s') →
  ((∃ n, tuner = ArgStr n ∧ NAS_TUNERS !! n = None) ∨
   inst s !! "graph" = None ∨ inst s !! "model_selection" = None ∨
   inst s !! "seed" = None ∨ is_Some (repeated_keyword V kwargs) →
   s' = s ∧ ∃ e, r = Raises e) ∧
  (∀ e, r = Raises e → inst s' = inst s) ∧
  (r = Returns tt → ∃ t, inst s' = <["tuner" := t]> (inst s)).
Proof.
  intros H0. pose proof H0 as H. rewrite tuner_bind_unfold in H. split; [|split].
  - intros Hpre.
    destruct tuner as [n|v].
    + destruct (NAS_TUNERS !! n) eqn:Hn.
      * destruct Hpre as [(n' & [= <-] & Hn') | Hpre]; [congruence|].
        destruct (inst s !! "graph"); [|injection H as <- <-; by eauto].
        destruct (inst s !! "model_selection"); [|injection H as <- <-; by eauto].
        destruct (inst s !! "seed"); [|injection H as <- <-; by eauto].
        destruct (repeated_keyword V kwargs); [injection H as <- <-; by eauto|].
        destruct Hpre as [? | [? | [? | [? ?]]]]; done.
      * injection H as <- <-. by eauto.
    + destruct Hpre as [(n' & ? & _) | Hpre]; [done|].
      destruct (inst s !! "graph"); [|injection H as <- <-; by eauto].
      destruct (inst s !! "model_selection"); [|injection H as <- <-; by eauto].
      destruct (inst s !! "seed"); [|injection H as <- <-; by eauto].
      destruct (repeated_keyword V kwargs); [injection H as <- <-; by eauto|].
      destruct Hpre as [? | [? | [? | [? ?]]]]; done.
  - by apply (tuner_bind_outcome format_obj ext tuner pn mt d o ow mms hp kwargs s s' r).
  - by apply (tuner_bind_outcome format_obj ext tuner pn mt d o ow mms hp kwargs s s' r).
Qed.

Lemma X20_tuner_bind_witness :
  ∃ r s',
    tuner_bind nat nat format_nat ext_fresh (ArgStr "greedy") 0 0 0 0 0 0 0 []
      bound_instance = (r, s') ∧
    s' = bound_instance ∧ ∃ e, r = Raises e.
Proof.
  destruct (tuner_bind nat nat format_nat ext_fresh (ArgStr "greedy") 0 0 0 0 0 0 0 []
              bound_instance) as [r s'] eqn:H.
  exists r, s'. split; [done|].
  apply (proj1 (X20_tuner_bind format_nat ext_fresh (ArgStr "greedy") 0 0 0 0 0 0 0 []
                  bound_instance s' r H)).
  left. exists "greedy". split; reflexivity.
Defined.

(** X21 ([fit], [resource_bind], [tuner_bind]): neither binding method
    creates an attribute [verbose]; on an instance without it, after any
    calls of the two, [fit] raises at the latest when it first reads
    [self.verbose]: with [AttributeError] for [model_selection] or for
    [verbose], or with what reading [.backend] raised. Whatever follows
    that test in [fit] is not run, and the instance is not changed. *)
Theorem X21_fit_raises {V E : Type} (format_obj : V → string)
    (ext : callee V → list V → list (string * V) → E → outcome V * E)
    (est_gen_fun : V) (fit_rest : V → V → PyM V E unit)
    (cs : list (bind_call V)) (s0 : hstate V E) :
  inst s0 !! "verbose" = None →
  let s := run_calls V E format_obj ext est_gen_fun cs s0 in
  ∃ e s', fit V E ext fit_rest s = (Raises e, s') ∧ inst s' = inst s ∧
          match inst s !! "model_selection" with
          | None => e = PyAttributeError "model_selection" ∧ s' = s
          | Some ms =>
              match ext (Attribute ms "backend") [] [] (outside s) with
              | (Returns _, e') => e = PyAttributeError "verbose" ∧ outside s' = e'
              | (Raises x, e') => e = x ∧ outside s' = e'
              end
          end.
Proof.
  intros H0 s. pose proof (run_calls_verbose format_obj ext est_gen_fun cs s0 H0) as Hv.
  fold s in Hv. unfold fit, pbind, getattr, call.
  destruct (inst s !! "model_selection") as [ms|]; [|by eexists _, _].
  destruct (ext (Attribute ms "backend") [] [] (outside s)) as [[b|x] e'];
    simpl; [|by eexists _, _].
  rewrite Hv. by eexists _, _.
Qed.

Lemma X21_fit_raises_witness :
  let s := run_calls nat nat format_nat ext_fresh 0
             [TunerBind nat (ArgStr "gridsearch") 0 0 0 0 0 0 0 []] bound_instance in
  ∃ e s', fit nat nat ext_fresh fit_none s = (Raises e, s') ∧ inst s' = inst s ∧
          match inst s !! "model_selection" with
          | None => e = PyAttributeError "model_selection" ∧ s' = s
          | Some ms =>
              match ext_fresh (Attribute ms "backend") [] [] (outside s) with
              | (Returns _, e') => e = PyAttributeError "verbose" ∧ outside s' = e'
              | (Raises x, e') => e = x ∧ outside s' = e'
              end
          end.
Proof.
  apply (X21_fit_raises format_nat ext_fresh 0 fit_none
           [TunerBind nat (ArgStr "gridsearch") 0 0 0 0 0 0 0 []] bound_instance).
  reflexivity.
Defined.

(** X22 ([objective], [max_trials], [directory], [project_name],
    [export_model]): on an instance that had no attribute [tuner], after
    any calls of the two binding methods, the four properties and
    [export_model] raise [AttributeError] unless one of the calls was a
    [tuner_bind] that returned; once one has, they read from the tuner the
    instance holds. *)
Theorem X22_tuner_accessors {V E : Type} (format_obj : V → string)
    (ext : callee V → list V → list (string * V) → E → outcome V * E)
    (est_gen_fun : V) (cs : list (bind_call V)) (s0 : hstate V E) :
  inst s0 !! "tuner" = None →
  let s := run_calls V E format_obj ext est_gen_fun cs s0 in
  let missing := (Raises (PyAttributeError "tuner"), s) in
  if tuner_bound V E format_obj ext est_gen_fun cs s0
  then ∃ t, inst s !! "tuner" = Some t ∧
            objective V E ext s = call ext (Attribute t "objective") [] [] s ∧
            max_trials V E ext s = call ext (Attribute t "max_trials") [] [] s ∧
            directory V E ext s = call ext (Attribute t "directory") [] [] s ∧
            project_name V E ext s = call ext (Attribute t "project_name") [] [] s ∧
            export_model V E ext s = call ext (Method t "get_best_model") [] [] s
  else objective V E ext s = missing ∧ max_trials V E ext s = missing ∧
       directory V E ext s = missing ∧ project_name V E ext s = missing ∧
       export_model V E ext s = missing.
Proof.
  intros H0 s missing.
  pose proof (run_calls_tuner format_obj ext est_gen_fun cs s0) as H. fold s in H.
  unfold objective, max_trials, directory, project_name, tuner_property,
    export_model, pbind, getattr, missing.
  destruct (inst s !! "tuner") as [t|].
  - destruct H as [[? H] | ->]; [congruence|]. by exists t.
  - destruct H as [_ ->]. done.
Qed.

Lemma X22_tuner_accessors_witness :
  let s := run_calls nat nat format_nat ext_fresh 0
             [TunerBind nat (ArgStr "random") 0 0 0 0 0 0 0 []] bound_instance in
  let missing := (Raises (PyAttributeError "tuner"), s) in
  objective nat nat ext_fresh s = missing ∧ max_trials nat nat ext_fresh s = missing ∧
  directory nat nat ext_fresh s = missing ∧ project_name nat nat ext_fresh s = missing ∧
  export_model nat nat ext_fresh s = missing.
Proof.
  apply (X22_tuner_accessors format_nat ext_fresh 0
           [TunerBind nat (ArgStr "random") 0 0 0 0 0 0 0 []] bound_instance).
  reflexivity.
Defined.
